(** * rpy-tools: the screenplay converter and the script indexer

    A shallow embedding of [rpy_generator.py] and [rpy_indexer.py]:
    label normalisation, the speaker-line parser, the per-file line writer
    with its character map, and the paginated jump-menu builder that both
    tools carry.

    Python values are modelled as follows.
    - [str] is a list of Unicode code points ([N]).
    - [int] is [Z].
    - [Optional[str]] is [option str]; truthiness is written out.
    - a text file opened for writing is the text written to it so far, and
      [file.write(s)] appends [s]; a function that opens its file itself,
      with the UTF-8 codec, raises [UnicodeEncodeError] when a text it
      writes holds a surrogate code point, and its result is a sum.
    - what the programs print is not modelled.
    - [Dict[str, str]] is a [gmap str str].
    - [current_time_millis()] reads the clock; the reading is an argument. *)

From Stdlib Require Import ZArith NArith Decimal.
From Stdlib Require Strings.String Strings.Ascii DecimalZ.
From stdpp Require Import base numbers option list gmap.

#[local] Set Warnings "-clear-no-such-hyp".

Import Stdlib.Strings.String.StringSyntax.
Bind Scope string_scope with String.string.

(* ================================================================== *)
(** * Python built-ins used by the two programs *)
(* ================================================================== *)

Module Py.

Definition char : Type := N.
Definition str : Type := list char.

(** A string literal of the source, as code points. Literals of the source
    that hold a double quote or a line feed are spelled with [DQUOTE] and
    [NL]. *)
Definition u (s : String.string) : str :=
  map Ascii.N_of_ascii (String.list_ascii_of_string s).

Definition NL : str := [10%N].
Definition DQUOTE : str := [34%N].

(** ** Truthiness *)

Definition truthy (o : option str) : bool :=
  match o with
  | Some (_ :: _) => true
  | _ => false
  end.

Definition nonempty {A} (l : list A) : bool :=
  match l with
  | [] => false
  | _ :: _ => true
  end.

(** The text of an optional string where the source has already tested it. *)
Definition text (o : option str) : str := default [] o.

(** ** Character classes

    [str.isspace] and [str.isdigit] follow the Unicode database of the
    interpreter (here: Unicode 14, CPython 3.11), as inclusive ranges of
    code points. *)

Definition in_ranges (rs : list (N * N)) (c : char) : bool :=
  existsb (fun r => (fst r <=? c)%N && (c <=? snd r)%N) rs.

Definition whitespace_ranges : list (N * N) :=
  [(9, 13); (28, 32); (133, 133); (160, 160); (5760, 5760); (8192, 8202);
   (8232, 8233); (8239, 8239); (8287, 8287); (12288, 12288)]%N.

Definition digit_ranges : list (N * N) :=
  [(48, 57); (178, 179); (185, 185); (1632, 1641); (1776, 1785);
   (1984, 1993); (2406, 2415); (2534, 2543); (2662, 2671); (2790, 2799);
   (2918, 2927); (3046, 3055); (3174, 3183); (3302, 3311); (3430, 3439);
   (3558, 3567); (3664, 3673); (3792, 3801); (3872, 3881); (4160, 4169);
   (4240, 4249); (4969, 4977); (6112, 6121); (6160, 6169); (6470, 6479);
   (6608, 6618); (6784, 6793); (6800, 6809); (6992, 7001); (7088, 7097);
   (7232, 7241); (7248, 7257); (8304, 8304); (8308, 8313); (8320, 8329);
   (9312, 9320); (9332, 9340); (9352, 9360); (9450, 9450); (9461, 9469);
   (9471, 9471); (10102, 10110); (10112, 10120); (10122, 10130);
   (42528, 42537); (43216, 43225); (43264, 43273); (43472, 43481);
   (43504, 43513); (43600, 43609); (44016, 44025); (65296, 65305);
   (66720, 66729); (68160, 68163); (68912, 68921); (69216, 69224);
   (69714, 69722); (69734, 69743); (69872, 69881); (69942, 69951);
   (70096, 70105); (70384, 70393); (70736, 70745); (70864, 70873);
   (71248, 71257); (71360, 71369); (71472, 71481); (71904, 71913);
   (72016, 72025); (72784, 72793); (73040, 73049); (73120, 73129);
   (92768, 92777); (92864, 92873); (93008, 93017); (120782, 120831);
   (123200, 123209); (123632, 123641); (125264, 125273); (127232, 127242);
   (130032, 130041)]%N.

Definition isspace (c : char) : bool := in_ranges whitespace_ranges c.
Definition isdigit (c : char) : bool := in_ranges digit_ranges c.

(** ** [str.strip], [str.lstrip], [str.rstrip] *)

Fixpoint lstrip_with (p : char -> bool) (s : str) : str :=
  match s with
  | [] => []
  | c :: s' => if p c then lstrip_with p s' else s
  end.

Fixpoint rstrip_with (p : char -> bool) (s : str) : str :=
  match s with
  | [] => []
  | c :: s' =>
      match rstrip_with p s' with
      | [] => if p c then [] else [c]
      | r => c :: r
      end
  end.

(** [s.strip()], [s.rstrip()]: without an argument, whitespace is removed. *)
Definition rstrip (s : str) : str := rstrip_with isspace s.
Definition strip (s : str) : str := rstrip_with isspace (lstrip_with isspace s).

(** [s.lstrip(chars)]: every leading character that occurs in [chars]. *)
Definition lstrip_chars (chars s : str) : str :=
  lstrip_with (fun c => bool_decide (c ∈ chars)) s.

(** ** [str.replace] *)

(** Left to right, occurrences that do not overlap: [skip] counts the
    characters of a match still to be passed over. *)
Fixpoint replace_from (old new : str) (skip : nat) (s : str) : str :=
  match s with
  | [] => []
  | c :: s' =>
      match skip with
      | S k => replace_from old new k s'
      | O =>
          if bool_decide (old `prefix_of` s)
          then new ++ replace_from old new (length old - 1) s'
          else c :: replace_from old new 0 s'
      end
  end.

Definition replace (old new s : str) : str :=
  match old with
  | [] => new ++ flat_map (fun c => c :: new) s
  | _ :: _ => replace_from old new 0 s
  end.

(** ** [str.find]: the lowest index of [sub] in [s], or -1 *)

Fixpoint find (sub s : str) : Z :=
  if bool_decide (sub `prefix_of` s) then 0%Z
  else
    match s with
    | [] => (-1)%Z
    | _ :: s' =>
        let r := find sub s' in
        if (r <? 0)%Z then (-1)%Z else (r + 1)%Z
    end.

(** ** Slices [l[lo:hi]] and [l[lo:]] at indices that are not negative
    (the source never slices these strings and lists at a negative one) *)

Definition slice {A} (l : list A) (lo hi : Z) : list A :=
  take (Z.to_nat (hi - lo)) (drop (Z.to_nat lo) l).

Definition slice_from {A} (l : list A) (lo : Z) : list A :=
  drop (Z.to_nat lo) l.

Definition len {A} (l : list A) : Z := Z.of_nat (length l).

(** ** [str(n)] for an [int] *)

Fixpoint uint_chars (d : Decimal.uint) : str :=
  match d with
  | Decimal.Nil => []
  | Decimal.D0 d => 48%N :: uint_chars d
  | Decimal.D1 d => 49%N :: uint_chars d
  | Decimal.D2 d => 50%N :: uint_chars d
  | Decimal.D3 d => 51%N :: uint_chars d
  | Decimal.D4 d => 52%N :: uint_chars d
  | Decimal.D5 d => 53%N :: uint_chars d
  | Decimal.D6 d => 54%N :: uint_chars d
  | Decimal.D7 d => 55%N :: uint_chars d
  | Decimal.D8 d => 56%N :: uint_chars d
  | Decimal.D9 d => 57%N :: uint_chars d
  end.

Definition str_of_int (z : Z) : str :=
  match Z.to_int z with
  | Decimal.Pos d => uint_chars d
  | Decimal.Neg d => 45%N :: uint_chars d
  end.

(** ** [range(start, stop, step)] for a positive step

    The loop of the iterator; it runs at most [stop - start] times when
    [step >= 1], which is the fuel [range] gives it. *)

Fixpoint range_loop (fuel : nat) (i stop step : Z) : list Z :=
  match fuel with
  | O => []
  | S fuel' =>
      if (i <? stop)%Z then i :: range_loop fuel' (i + step)%Z stop step
      else []
  end.

Definition range (start stop step : Z) : list Z :=
  range_loop (Z.to_nat (stop - start)) start stop step.

(** ** A file opened for writing *)

Definition write (file : str) (s : str) : str := file ++ s.

(** ** [dict.setdefault] *)

Definition setdefault (m : gmap str str) (k v : str) : str * gmap str str :=
  match m !! k with
  | Some v' => (v', m)
  | None => (v, <[k:=v]> m)
  end.

(** ** [str.startswith] *)

Definition startswith (prefix s : str) : bool :=
  bool_decide (prefix `prefix_of` s).

(** ** [s.strip(chars)]: the characters of [chars] are removed at both ends *)

Definition strip_chars (chars s : str) : str :=
  rstrip_with (fun c => bool_decide (c ∈ chars))
    (lstrip_with (fun c => bool_decide (c ∈ chars)) s).

(** ** [str.rfind]: the highest index of [sub] in [s], or -1 *)

Fixpoint rfind (sub s : str) : Z :=
  match s with
  | [] => if bool_decide (sub `prefix_of` s) then 0%Z else (-1)%Z
  | _ :: s' =>
      let r := rfind sub s' in
      if (0 <=? r)%Z then (r + 1)%Z
      else if bool_decide (sub `prefix_of` s) then 0%Z else (-1)%Z
  end.

(** ** The slice [l[:hi]], where a negative [hi] counts from the end *)

Definition slice_to {A} (l : list A) (hi : Z) : list A :=
  if (hi <? 0)%Z then take (Z.to_nat (len l + hi)) l
  else take (Z.to_nat hi) l.

(** ** [file.readline()] on a file opened for reading as text

    The file is the text that is left to read, its line ends already
    translated to line feeds. The line read runs up to and including the
    first line feed; it is empty at the end of the file only. *)

Fixpoint readline (file : str) : str * str :=
  match file with
  | [] => ([], [])
  | c :: rest =>
      if (c =? 10)%N then ([c], rest)
      else let '(line, rest') := readline rest in (c :: line, rest')
  end.

(** ** Opening for reading a file that was written as text

    [read_text stored] is the text that [io.open(..., "r")] delivers for
    a file that holds [stored]: a carriage return, alone or in front of a
    line feed, is read as one line feed. A text written through
    [io.open(..., "w")] is held as it was written, its line feeds as the
    line separator of the system, which is read back as a line feed. *)
Fixpoint read_text (written : str) : str :=
  match written with
  | [] => []
  | c :: rest =>
      if (c =? 13)%N then
        match rest with
        | c' :: rest' =>
            if (c' =? 10)%N then 10%N :: read_text rest'
            else 10%N :: read_text rest
        | [] => [10%N]
        end
      else c :: read_text rest
  end.

(** ** Writing to a file opened with [encoding="utf-8"]

    UTF-8 has no encoding for the surrogate code points, U+D800 to
    U+DFFF, which a [str] may hold: [os.walk] gives a file name whose
    bytes are not valid UTF-8 with such code points in it. The codec is
    strict: a [write] whose argument holds one raises
    [UnicodeEncodeError] and writes nothing of it. *)

Definition surrogate (c : char) : bool := (55296 <=? c)%N && (c <=? 57343)%N.

Definition encodable (s : str) : bool := forallb (fun c => negb (surrogate c)) s.

Inductive Exception : Type := UnicodeEncodeError.

(** One [write] to such a file. *)
Definition write_utf8 (file : Exception + str) (s : str) : Exception + str :=
  match file with
  | inr file => if encodable s then inr (write file s) else inl UnicodeEncodeError
  | inl e => inl e
  end.

(** [with io.open(file=..., mode="w", encoding="utf-8") as f: body]. The
    file is opened empty. The writers that the block runs take the file
    as an argument and are written over the text it holds, with [write];
    [body] is the block over that text, and [text_of] reads the text of
    the file off what the block gives. The first [write] whose argument
    is not encodable raises, and the exception leaves the block and the
    function around it. The text that the block leaves when nothing
    raises is the concatenation of the arguments of its writes, which is
    encodable exactly when each of them is: so the block raises exactly
    when that text is not encodable. What reached the file before the
    exception is not kept, nor is what the block had done by then to a
    dictionary of the caller. *)
Definition with_open_utf8 {A : Type} (text_of : A -> str) (body : str -> A)
  : Exception + A :=
  let result := body [] in
  if encodable (text_of result) then inr result else inl UnicodeEncodeError.

End Py.

Import Py.

(* ================================================================== *)
(** * rpy_generator.py *)
(* ================================================================== *)

Module Generator.

Definition LABEL : str := u "label".
Definition MAIN_LABEL : str := u "main".
Definition TAB : str := u "    ".
Definition COLON : str := u ":".
Definition ELLIPSIS : str := u "...".
Definition MAX_LABELS_PER_MENU : Z := 20.

Record ScriptLine : Type := mkScriptLine {
  character_name : option str;
  phrase : str
}.

(** [now] is what [current_time_millis()] returns when it is called. *)
Definition normalize_label (now : Z) (label default_label : option str) : str :=
  let label := if truthy label then strip <$> label else label in
  if negb (truthy label) then
    if truthy default_label then text default_label
    else LABEL ++ u "_" ++ str_of_int now
  else
    let label := replace (u " ") (u "_") (text label) in
    let label := replace COLON (u "_") label in
    match label with
    | c :: _ => if isdigit c then LABEL ++ u "_" ++ label else label
    | [] => label (* not reached: [replace] keeps a text non-empty *)
    end.

Definition parse_text_line (line : str) : option ScriptLine :=
  if negb (nonempty line) then None
  else
    let line := strip line in
    if negb (nonempty line) then None
    else
      let colon_index := find COLON line in
      if (colon_index <? 1)%Z then
        (* character name not defined in screenplay line *)
        let line := lstrip_chars COLON line in
        if nonempty line then Some (mkScriptLine None line) else None
      else
        let line_length := len line in
        let character_name := rstrip (slice line 0 colon_index) in
        if (colon_index =? line_length - 1)%Z then
          Some (mkScriptLine
                  (if nonempty character_name then Some character_name else None)
                  ELLIPSIS)
        else
          let phrase := strip (slice_from line (colon_index + 1)) in
          if negb (nonempty character_name) && negb (nonempty phrase) then None
          else
            Some (mkScriptLine
                    (if nonempty character_name then Some character_name else None)
                    (if nonempty phrase then phrase else ELLIPSIS)).

(** The state of the loop of [write_lines_to_script_file]: the file, the
    character map (the caller's dictionary, updated in place) and the
    counter. *)
Record WriterState : Type := mkWriterState {
  script_file : str;
  character_map : gmap str str;
  lines_count : Z
}.

(** The identifier a line is written with, and the map after the line. *)
Definition character_id_of (line : ScriptLine) (character_map : gmap str str)
  : option str * gmap str str :=
  if truthy (character_name line) then
    let '(id, character_map) :=
      setdefault character_map (text (character_name line))
        (u "ch_" ++ str_of_int (Z.of_nat (size character_map))) in
    (Some id, character_map)
  else (None, character_map).

Definition script_line_text (character_id : option str) (line : ScriptLine) : str :=
  if truthy character_id
  then text character_id ++ u " " ++ DQUOTE ++ phrase line ++ DQUOTE
  else DQUOTE ++ phrase line ++ DQUOTE.

(** One turn of the loop; the generator may yield [None], which is skipped. *)
Definition write_line (st : WriterState) (line : option ScriptLine) : WriterState :=
  match line with
  | None => st
  | Some line =>
      let '(character_id, character_map) := character_id_of line (character_map st) in
      let script_line := script_line_text character_id line in
      mkWriterState
        (write (script_file st) (TAB ++ script_line ++ NL))
        character_map
        (lines_count st + 1)
  end.

(** [lines_generator] is the sequence the generator yields (a generator
    object is always true, so the first test of the source never fires). *)
Definition write_lines_to_script_file (script_file : str)
    (lines_generator : list (option ScriptLine)) (character_map : gmap str str)
  : WriterState :=
  foldl write_line (mkWriterState script_file character_map 0) lines_generator.

Definition write_jump_menu_to_script_file (script_file : str) (top_label : str)
    (labels : list str) (go_back_label : option str) : str :=
  let script_file := write script_file (LABEL ++ u " " ++ top_label ++ u ":" ++ NL ++ NL) in
  if negb (truthy go_back_label) && negb (nonempty labels) then
    write script_file (TAB ++ u "pass" ++ NL)
  else
    let script_file := write script_file (TAB ++ u "menu:" ++ NL) in
    let script_file :=
      if truthy go_back_label then
        let script_file :=
          write script_file (TAB ++ TAB ++ DQUOTE ++ u "< BACK" ++ DQUOTE ++ u ":" ++ NL) in
        write script_file (TAB ++ TAB ++ TAB ++ u "jump " ++ text go_back_label ++ NL ++ NL)
      else script_file in
    if negb (nonempty labels) then script_file
    else
      foldl (fun script_file label =>
               let script_file :=
                 write script_file (TAB ++ TAB ++ DQUOTE ++ label ++ DQUOTE ++ u ":" ++ NL) in
               write script_file (TAB ++ TAB ++ TAB ++ u "jump " ++ label ++ NL ++ NL))
            script_file labels.

Definition batch_labels (labels : list str) (batch_size : Z) : list (list str) :=
  if (batch_size =? 0)%Z || (batch_size <? 1)%Z then []
  else if negb (nonempty labels) then []
  else
    let labels_count := len labels in
    map (fun i => slice labels i (Z.min (i + batch_size) labels_count))
        (range 0 labels_count batch_size).

(** The loop over the batches carries the file, [batch_number] and
    [batch_top_labels]. *)
Definition write_submenu (root_label : str) (st : str * Z * list str)
    (labels_batch : list str) : str * Z * list str :=
  let '(script_file, batch_number, batch_top_labels) := st in
  let top_label := root_label ++ u "_" ++ str_of_int batch_number in
  let batch_top_labels := batch_top_labels ++ [top_label] in
  let script_file :=
    write_jump_menu_to_script_file script_file top_label labels_batch (Some root_label) in
  (script_file, (batch_number + 1)%Z, batch_top_labels).

Definition write_labels_to_script_file (script_file : str) (labels : list str)
    (root_label : str) (label_page_size : Z) : str :=
  let label_page_size :=
    if (label_page_size =? 0)%Z || (label_page_size <? 1)%Z
    then MAX_LABELS_PER_MENU else label_page_size in
  if negb (nonempty labels) || (len labels <=? label_page_size)%Z then
    write_jump_menu_to_script_file script_file root_label labels None
  else
    (* write submenus *)
    let '(script_file, _, batch_top_labels) :=
      foldl (write_submenu root_label) (script_file, 0%Z, [])
            (batch_labels labels label_page_size) in
    (* write top menu *)
    write_jump_menu_to_script_file script_file root_label batch_top_labels None.

Definition EXT_TXT : str := u ".txt".
Definition EXT_RPY : str := u ".rpy".
Definition EXT_RPY_LENGTH : Z := len EXT_RPY.

(** The loop of [read_lines_from_file] over the text of the screenplay
    file: one [readline] per turn, until the line read is empty. Every
    turn but the last takes at least one character off the file, so
    [read_lines_from_file] gives the loop one turn more than the file has
    characters. *)
Fixpoint read_lines_loop (fuel : nat) (screenplay_file : str) : list ScriptLine :=
  match fuel with
  | O => []
  | S fuel' =>
      let '(line, screenplay_file) := readline screenplay_file in
      if negb (nonempty line) then []
      else
        match parse_text_line line with
        | Some script_line => script_line :: read_lines_loop fuel' screenplay_file
        | None => read_lines_loop fuel' screenplay_file
        end
  end.

(** [screenplay_file] is the text of the file at [file_path]. *)
Definition read_lines_from_file (screenplay_file : str) : list ScriptLine :=
  read_lines_loop (S (length screenplay_file)) screenplay_file.

(** The file system is seen through [join] ([os.path.join]) and
    [path_exists] (the test [os.path.exists(output_file_path)], made once
    the output directory is there). [now_label] is the clock reading inside
    [normalize_label], [now_name] the one of the alternate file name. *)
Definition prepare_output_file_path_and_chapter_label
    (join : str -> str -> str) (path_exists : str -> bool) (now_label now_name : Z)
    (output_dir_path file_name : str) : str * str :=
  let output_file_path := join output_dir_path file_name in
  let chapter_label := slice_to file_name (- EXT_RPY_LENGTH) in
  let chapter_label := normalize_label now_label (Some chapter_label) None in
  if path_exists output_file_path then
    let file_name := chapter_label ++ u "_" ++ str_of_int now_name ++ EXT_RPY in
    let output_file_path := join output_dir_path file_name in
    (output_file_path, chapter_label)
  else (output_file_path, chapter_label).

(** What [write_script_file] leaves behind when it returns: the path of
    the file it opened for writing, and the text of that file, the
    character map and the counter in the writer's state. It returns
    [chapter_label] and [lines_count]. *)
Record ScriptFile : Type := mkScriptFile {
  output_file_path : str;
  chapter_label : str;
  written : WriterState
}.

Definition write_script_file
    (join : str -> str -> str) (path_exists : str -> bool) (now_label now_name : Z)
    (output_dir_path file_name : str)
    (lines_generator : list (option ScriptLine)) (character_map : gmap str str)
  : Exception + ScriptFile :=
  let '(output_file_path, chapter_label) :=
    prepare_output_file_path_and_chapter_label join path_exists now_label now_name
      output_dir_path file_name in
  with_open_utf8 (fun result => Generator.script_file (written result))
    (fun script_file =>
       let script_file :=
         write script_file (LABEL ++ u " " ++ chapter_label ++ u ":" ++ NL ++ NL) in
       let st := write_lines_to_script_file script_file lines_generator character_map in
       let st :=
         if (lines_count st =? 0)%Z
         then mkWriterState (write (Generator.script_file st) (TAB ++ u "pass" ++ NL))
                (Generator.character_map st) (lines_count st)
         else st in
       mkScriptFile output_file_path chapter_label st).

Definition generate_script_file_name (source_file_name : str) : str :=
  if negb (nonempty source_file_name) then u "script" ++ EXT_RPY
  else
    let source_file_name := strip_chars (u ".") source_file_name in
    if negb (nonempty source_file_name) then u "script" ++ EXT_RPY
    else
      let last_dot_index := rfind (u ".") source_file_name in
      if (last_dot_index <? 0)%Z then source_file_name ++ EXT_RPY
      else slice source_file_name 0 last_dot_index ++ EXT_RPY.

(** [screenplay_file] is the text of the source file, at
    [os.path.join(dir_path, file_name)]. *)
Definition process_text_file
    (join : str -> str -> str) (path_exists : str -> bool) (now_label now_name : Z)
    (screenplay_file : str) (file_name output_dir_path : str)
    (character_map : gmap str str) : Exception + ScriptFile :=
  let script_file_name := generate_script_file_name file_name in
  let lines_generator := Some <$> read_lines_from_file screenplay_file in
  write_script_file join path_exists now_label now_name
    output_dir_path script_file_name lines_generator character_map.

(** The main label of [generate_rpy_files]:
    [normalize_label(label=main_label, default_label=MAIN_LABEL)]. *)
Definition main_label_of (now : Z) (main_label : option str) : str :=
  normalize_label now main_label (Some MAIN_LABEL).

End Generator.

(* ================================================================== *)
(** * rpy_indexer.py *)
(* ================================================================== *)

Module Indexer.

Definition LABEL : str := u "label".
Definition MAIN_INDEX_LABEL : str := u "main_index".
Definition TAB : str := u "    ".
Definition MAX_LABELS_PER_MENU : Z := 20.

Definition normalize_label (now : Z) (label default_label : option str) : str :=
  let label := if truthy label then strip <$> label else label in
  if negb (truthy label) then
    if truthy default_label then text default_label
    else LABEL ++ u "_" ++ str_of_int now
  else
    let label := replace (u " ") (u "_") (text label) in
    let label := replace (u ":") (u "_") label in
    match label with
    | c :: _ => if isdigit c then LABEL ++ u "_" ++ label else label
    | [] => label (* not reached: [replace] keeps a text non-empty *)
    end.

Definition write_jump_menu_to_file (index_file : str) (top_label : str)
    (labels : list str) (go_back_label : option str) : str :=
  let index_file := write index_file (LABEL ++ u " " ++ top_label ++ u ":" ++ NL ++ NL) in
  if negb (truthy go_back_label) && negb (nonempty labels) then
    write index_file (TAB ++ u "pass" ++ NL)
  else
    let index_file := write index_file (TAB ++ u "menu:" ++ NL) in
    let index_file :=
      if truthy go_back_label then
        let index_file :=
          write index_file (TAB ++ TAB ++ DQUOTE ++ u "< BACK" ++ DQUOTE ++ u ":" ++ NL) in
        write index_file (TAB ++ TAB ++ TAB ++ u "jump " ++ text go_back_label ++ NL ++ NL)
      else index_file in
    if negb (nonempty labels) then index_file
    else
      foldl (fun index_file label =>
               let index_file :=
                 write index_file (TAB ++ TAB ++ DQUOTE ++ label ++ DQUOTE ++ u ":" ++ NL) in
               write index_file (TAB ++ TAB ++ TAB ++ u "jump " ++ label ++ NL ++ NL))
            index_file labels.

Definition batch_labels (labels : list str) (batch_size : Z) : list (list str) :=
  if (batch_size =? 0)%Z || (batch_size <? 1)%Z then []
  else if negb (nonempty labels) then []
  else
    let labels_count := len labels in
    map (fun i => slice labels i (Z.min (i + batch_size) labels_count))
        (range 0 labels_count batch_size).

Definition write_submenu (root_label : str) (st : str * Z * list str)
    (labels_batch : list str) : str * Z * list str :=
  let '(index_file, batch_number, batch_top_labels) := st in
  let top_label := root_label ++ u "_" ++ str_of_int batch_number in
  let batch_top_labels := batch_top_labels ++ [top_label] in
  let index_file :=
    write_jump_menu_to_file index_file top_label labels_batch (Some root_label) in
  (index_file, (batch_number + 1)%Z, batch_top_labels).

Definition write_labels_to_file_in_batches (index_file : str) (root_label : str)
    (labels : list str) (go_back_label : option str) (label_page_size : Z) : str :=
  let label_page_size :=
    if (label_page_size =? 0)%Z || (label_page_size <? 1)%Z
    then MAX_LABELS_PER_MENU else label_page_size in
  if negb (nonempty labels) || (len labels <=? label_page_size)%Z then
    write_jump_menu_to_file index_file root_label labels go_back_label
  else
    (* write submenus *)
    let '(index_file, _, batch_top_labels) :=
      foldl (write_submenu root_label) (index_file, 0%Z, [])
            (batch_labels labels label_page_size) in
    (* write top menu *)
    write_jump_menu_to_file index_file root_label batch_top_labels go_back_label.

Definition LABEL_START_POS : Z := len LABEL.
Definition EXT_RPY : str := u ".rpy".
Definition EXT_RPY_LENGTH : Z := len EXT_RPY.

Definition extract_label (line : str) : option str :=
  if negb (nonempty line) then None
  else if negb (startswith LABEL line) then None
  else
    let colon_index := find (u ":") line in
    if (colon_index <? LABEL_START_POS + 2)%Z then None
    else
      let label := slice line LABEL_START_POS colon_index in
      Some (strip label).

(** The loop of [read_labels_from_file] over the text of the script file,
    with the list of labels found so far. *)
Fixpoint read_labels_loop (fuel : nat) (script_file : str) (labels : list str)
  : list str :=
  match fuel with
  | O => labels
  | S fuel' =>
      let '(line, script_file) := readline script_file in
      if negb (nonempty line) then labels
      else
        let label := extract_label line in
        let labels := if truthy label then labels ++ [text label] else labels in
        read_labels_loop fuel' script_file labels
  end.

(** [script_file] is the text of the file at [file_path]. *)
Definition read_labels_from_file (script_file : str) : list str :=
  read_labels_loop (S (length script_file)) script_file [].

Definition prepare_output_file_path_and_root_label
    (join : str -> str -> str) (path_exists : str -> bool) (now_label now_name : Z)
    (output_dir_path file_name : str) : str * str :=
  let output_file_path := join output_dir_path file_name in
  let root_label := slice_to file_name (- EXT_RPY_LENGTH) in
  let root_label := normalize_label now_label (Some root_label) None in
  if path_exists output_file_path then
    let file_name := root_label ++ u "_" ++ str_of_int now_name ++ EXT_RPY in
    let output_file_path := join output_dir_path file_name in
    (output_file_path, root_label)
  else (output_file_path, root_label).

(** What [write_labels_to_file] leaves behind when it writes and returns:
    the path of the index file and its text. It returns [root_label]. *)
Record IndexFile : Type := mkIndexFile {
  output_file_path : str;
  root_label : str;
  index_file : str
}.

Definition write_labels_to_file
    (join : str -> str -> str) (path_exists : str -> bool) (now_label now_name : Z)
    (labels : list str) (output_dir_path file_name : str)
    (go_back_label : option str) (label_page_size : Z)
  : Exception + option IndexFile :=
  if negb (nonempty labels) then inr None
  else
    let '(output_file_path, root_label) :=
      prepare_output_file_path_and_root_label join path_exists now_label now_name
        output_dir_path file_name in
    match
      with_open_utf8 id
        (fun index_file =>
           write_labels_to_file_in_batches index_file root_label labels
             go_back_label label_page_size)
    with
    | inr index_file => inr (Some (mkIndexFile output_file_path root_label index_file))
    | inl raised => inl raised
    end.

(** [script_file] is the text of the file at
    [os.path.join(dir_path, file_name)]. *)
Definition process_script_file
    (join : str -> str -> str) (path_exists : str -> bool) (now_label now_name : Z)
    (script_file : str) (file_name output_dir_path main_label : str)
    (label_page_size : Z) : Exception + (option IndexFile * Z) :=
  let labels := read_labels_from_file script_file in
  if negb (nonempty labels) then inr (None, 0%Z)
  else
    let output_file_name := u "index_" ++ file_name in
    match
      write_labels_to_file join path_exists now_label now_name labels
        output_dir_path output_file_name (Some main_label) label_page_size
    with
    | inr root_label => inr (root_label, len labels)
    | inl raised => inl raised
    end.

(** The main label of [index_rpy_files]:
    [normalize_label(label=main_label, default_label=MAIN_INDEX_LABEL)]. *)
Definition main_label_of (now : Z) (main_label : option str) : str :=
  normalize_label now main_label (Some MAIN_INDEX_LABEL).

End Indexer.

(* ================================================================== *)
(** * Vocabulary of the statements *)
(* ================================================================== *)

Module Menu.

(** One call of the jump-menu writer emits one menu page: the label it is
    filed under, its entries and its optional back-link. *)
Record MenuPage : Type := mkPage {
  page_label : str;
  page_entries : list str;
  page_back : option str
}.

(** The text of a page, written out character by character. The header
    is the line [label <top_label>:] and a blank line. *)
Definition header_text (top_label : str) : str :=
  u "label " ++ top_label ++ u ":" ++ NL ++ NL.

(** A menu entry: the quoted label at two levels of indentation, the jump
    to it at three, and a blank line. *)
Definition entry_text (label : str) : str :=
  (u "        " ++ DQUOTE ++ label ++ DQUOTE ++ u ":" ++ NL)
  ++ (u "            jump " ++ label ++ NL ++ NL).

(** The back entry: it shows [< BACK] and jumps to [go_back]. *)
Definition back_text (go_back : str) : str :=
  (u "        " ++ DQUOTE ++ u "< BACK" ++ DQUOTE ++ u ":" ++ NL)
  ++ (u "            jump " ++ go_back ++ NL ++ NL).

(** A page with no entry and no back-link holds the statement [pass];
    any other page holds the line [menu:], the back entry when the page
    has a back-link, and its entries in order. A back-link that is the
    empty text counts as none. *)
Definition page_text (p : MenuPage) : str :=
  header_text (page_label p)
  ++ (if negb (truthy (page_back p)) && negb (nonempty (page_entries p))
      then u "    pass" ++ NL
      else (u "    menu:" ++ NL)
           ++ (if truthy (page_back p) then back_text (text (page_back p)) else [])
           ++ concat (entry_text <$> page_entries p)).

(** The label of sub-page [i] under [root]: [f"{root}_{i}"]. *)
Definition sub_label (root : str) (i : Z) : str :=
  root ++ u "_" ++ str_of_int i.

Definition sub_pages (root : str) (chunks : list (list str)) : list MenuPage :=
  imap (fun i c => mkPage (sub_label root (Z.of_nat i)) c (Some root)) chunks.

Definition top_page (root : str) (go_back : option str)
    (chunks : list (list str)) : MenuPage :=
  mkPage root (imap (fun i _ => sub_label root (Z.of_nat i)) chunks) go_back.

(** The ceiling of [n / p] for a positive [p]. *)
Definition ceil_div (n p : Z) : Z := ((n + p - 1) / p)%Z.

End Menu.

Import Menu.

Module Labels.

Definition SPACE : char := 32%N.
Definition COLON_CHAR : char := 58%N.
Definition UNDERSCORE : char := 95%N.

Definition starts_with_digit (s : str) : bool :=
  match s with
  | c :: _ => isdigit c
  | [] => false
  end.

(** Spaces and colons become underscores, one character at a time. *)
Definition underscored (s : str) : str :=
  (fun c => if decide (c = SPACE ∨ c = COLON_CHAR) then UNDERSCORE else c) <$> s.

(** A label that can be used as a jump target. *)
Record safe_label (s : str) : Prop := mkSafe {
  safe_nonempty : s ≠ [];
  safe_no_space : SPACE ∉ s;
  safe_no_colon : COLON_CHAR ∉ s;
  safe_no_digit : starts_with_digit s = false
}.

(** No whitespace at either end. *)
Definition trimmed (s : str) : Prop :=
  (∀ c, head s = Some c → isspace c = false)
  ∧ (∀ c, last s = Some c → isspace c = false).

(** An already-normalized label. *)
Definition normalized (s : str) : Prop := safe_label s ∧ trimmed s.

(** A default the normalizer may hand back: none, or a normalized one. *)
Definition default_normalized (d : option str) : Prop :=
  truthy d = false ∨ normalized (text d).

End Labels.

Import Labels.

Module Script.

Import Generator.

(** The speaker of a yielded line, when it names one. *)
Definition speaker (line : option ScriptLine) : option str :=
  match line with
  | Some l => if truthy (character_name l) then character_name l else None
  | None => None
  end.

(** The speakers that are not in [known], in the order of their first
    lines, each once. *)
Fixpoint new_speakers (known : gset str) (lines : list (option ScriptLine))
  : list str :=
  match lines with
  | [] => []
  | line :: lines =>
      match speaker line with
      | Some n =>
          if decide (n ∈ known) then new_speakers known lines
          else n :: new_speakers ({[n]} ∪ known) lines
      | None => new_speakers known lines
      end
  end.

(** The identifier [f"ch_{k}"]. *)
Definition ch (k : nat) : str := u "ch_" ++ str_of_int (Z.of_nat k).

(** The identifier a line is written with when the identifiers are read
    from the map [m]: the one [m] holds for the speaker of the line, if
    the line names a speaker and the identifier is not the empty text. *)
Definition line_id (m : gmap str str) (line : option ScriptLine) : option str :=
  match speaker line with
  | Some n =>
      match m !! n with
      | Some (c :: id) => Some (c :: id)
      | _ => None
      end
  | None => None
  end.

(** The text of a line, written out: four spaces, then the identifier
    and a space when the line has one, then the quoted phrase and a line
    feed. A [None] that the generator yields writes nothing. *)
Definition line_text (m : gmap str str) (line : option ScriptLine) : str :=
  match line with
  | None => []
  | Some l =>
      match line_id m line with
      | Some id => u "    " ++ id ++ u " " ++ DQUOTE ++ phrase l ++ DQUOTE ++ NL
      | None => u "    " ++ DQUOTE ++ phrase l ++ DQUOTE ++ NL
      end
  end.

End Script.

Import Script.

Module Files.

Definition LF : char := 10%N.
Definition CR : char := 13%N.
Definition DOT : char := 46%N.

(** A text that stays on its line: no line feed and no carriage return. *)
Definition no_break (s : str) : Prop := (LF ∉ s) ∧ (CR ∉ s).

(** A character that the tools never write of their own: the carriage
    return, and every character beyond ASCII. *)
Definition foreign (x : char) : Prop := x = CR ∨ (127 < x)%N.

(** A text that a file written as UTF-8 holds on one line and gives back
    as it is. *)
Definition storable (s : str) : Prop := no_break s ∧ encodable s = true.

(** The lines of a text, each with its line feed; the last one may lack
    it. *)
Fixpoint split_lines (content : str) : list str :=
  match content with
  | [] => []
  | c :: rest =>
      if (c =? 10)%N then [c] :: split_lines rest
      else
        match split_lines rest with
        | [] => [[c]]
        | line :: lines => (c :: line) :: lines
        end
  end.

(** A line that ends in a line feed and has no other. *)
Definition one_line (s : str) : Prop := ∃ body, s = body ++ NL ∧ LF ∉ body.

(** The label a line of a script file declares, if it declares one that
    is not empty. *)
Definition declared_label (line : str) : option str :=
  match Indexer.extract_label line with
  | Some (c :: l) => Some (c :: l)
  | _ => None
  end.

(** The labels a text declares, line by line. *)
Definition declared_labels (content : str) : list str :=
  omap declared_label (split_lines content).

(** A text made of whole lines that declare no label. *)
Definition quiet_line (line : str) : Prop :=
  one_line line ∧ declared_label line = None.

Definition quiet (s : str) : Prop :=
  ∃ lines, s = concat lines ∧ Forall quiet_line lines.

(** A label that a header line gives back: not empty, trimmed, on one
    line and without colon. *)
Record plain_label (s : str) : Prop := mkPlain {
  plain_nonempty : s ≠ [];
  plain_trimmed : trimmed s;
  plain_no_colon : COLON_CHAR ∉ s;
  plain_no_lf : LF ∉ s
}.

End Files.

Import Files.

(** A character that is not in a text built from literals and from texts
    known to be free of it. *)
Ltac literal_free :=
  let Hin := fresh "Hin" in
  intros Hin; apply list_elem_of_In in Hin; vm_compute in Hin;
  repeat (destruct Hin as [Hin|Hin]; [discriminate|]); exact Hin.

(** A foreign character is in no literal of the two programs. *)
Ltac literal_foreign Hx :=
  let Hin := fresh "Hin" in
  let Hx' := fresh "Hx" in
  intros Hin; apply list_elem_of_In in Hin; vm_compute in Hin;
  pose proof Hx as Hx'; unfold foreign, CR in Hx'; lia.

(* ================================================================== *)
(** * The jump-menu writer *)
(* ================================================================== *)

Section JumpMenu.

Implicit Types (file top root : str) (labels : list str) (gb : option str).

Lemma write_entries_foldl file labels :
  foldl (fun f label =>
           write (write f (Generator.TAB ++ Generator.TAB ++ DQUOTE ++ label
                             ++ DQUOTE ++ u ":" ++ NL))
                 (Generator.TAB ++ Generator.TAB ++ Generator.TAB ++ u "jump "
                    ++ label ++ NL ++ NL))
        file labels
  = file ++ concat (entry_text <$> labels).
Proof.
  revert file.
  induction labels as [|l labels IH]; intros file;
    cbn [foldl fmap list_fmap concat].
  - by rewrite app_nil_r.
  - rewrite IH. unfold write, entry_text. by rewrite <- !app_assoc.
Qed.

(** The writer, as the text it appends. *)
Lemma jump_menu_text file top labels gb :
  Generator.write_jump_menu_to_script_file file top labels gb
  = file ++ header_text top
    ++ (if negb (truthy gb) && negb (nonempty labels)
        then Generator.TAB ++ u "pass" ++ NL
        else (Generator.TAB ++ u "menu:" ++ NL)
             ++ (if truthy gb then back_text (text gb) else [])
             ++ concat (entry_text <$> labels)).
Proof.
  unfold Generator.write_jump_menu_to_script_file.
  destruct (truthy gb) eqn:Hgb; destruct labels as [|l labels]; simpl negb;
    simpl andb; cbv iota.
  - unfold write, back_text, header_text. simpl concat.
    rewrite ?app_nil_r, <- ?app_assoc. reflexivity.
  - rewrite write_entries_foldl. unfold write, back_text, header_text.
    rewrite <- ?app_assoc. reflexivity.
  - unfold write, header_text. rewrite <- ?app_assoc. reflexivity.
  - rewrite write_entries_foldl. unfold write, header_text.
    rewrite <- ?app_assoc. reflexivity.
Qed.

(** The writer only appends to the file. *)
Lemma jump_menu_appends file top labels gb :
  Generator.write_jump_menu_to_script_file file top labels gb
  = file ++ page_text (mkPage top labels gb).
Proof.
  rewrite jump_menu_text. unfold page_text.
  cbn [page_label page_entries page_back]. reflexivity.
Qed.

(** The indexer's writer is the generator's, word for word. *)
Lemma indexer_jump_menu file top labels gb :
  Indexer.write_jump_menu_to_file file top labels gb
  = Generator.write_jump_menu_to_script_file file top labels gb.
Proof. reflexivity. Qed.

Lemma indexer_batch_labels labels (P : Z) :
  Indexer.batch_labels labels P = Generator.batch_labels labels P.
Proof. reflexivity. Qed.

End JumpMenu.

(* ================================================================== *)
(** * Batching the labels *)
(* ================================================================== *)

Section Batching.

Local Open Scope Z_scope.

Lemma ceil_div_step (a p : Z) : 0 < p → ceil_div (a - p) p = ceil_div a p - 1.
Proof.
  intros Hp. unfold ceil_div.
  replace (a - p + p - 1) with ((a + p - 1) + (-1) * p) by lia.
  rewrite Z.div_add by lia. lia.
Qed.

Lemma ceil_div_nonpos (a p : Z) : 0 < p → a ≤ 0 → ceil_div a p ≤ 0.
Proof.
  intros Hp Ha. unfold ceil_div.
  assert ((a + p - 1) / p < 1); [|lia].
  apply Z.div_lt_upper_bound; lia.
Qed.

Lemma ceil_div_pos (a p : Z) : 0 < p → 0 < a → 0 < ceil_div a p.
Proof.
  intros Hp Ha. unfold ceil_div.
  apply Z.div_str_pos. lia.
Qed.

Lemma ceil_div_covers (a p : Z) : 0 < p → a ≤ ceil_div a p * p.
Proof.
  intros Hp. unfold ceil_div.
  pose proof (Z.div_mod (a + p - 1) p ltac:(lia)) as Hdm.
  pose proof (Z.mod_pos_bound (a + p - 1) p Hp) as Hm. nia.
Qed.

Lemma ceil_div_tight (a p : Z) : 0 < p → (ceil_div a p - 1) * p < a.
Proof.
  intros Hp. unfold ceil_div.
  pose proof (Z.div_mod (a + p - 1) p ltac:(lia)) as Hdm.
  pose proof (Z.mod_pos_bound (a + p - 1) p Hp) as Hm. nia.
Qed.

(** The loop of [range] visits [i], [i + step], ... below [stop]: the fuel
    that [range] gives it is enough. *)
Lemma range_loop_spec (fuel : nat) (i stop step : Z) :
  1 ≤ step → (Z.to_nat (stop - i) ≤ fuel)%nat →
  range_loop fuel i stop step
  = (fun k : nat => i + Z.of_nat k * step)
      <$> seq 0 (Z.to_nat (ceil_div (stop - i) step)).
Proof.
  intros Hstep. revert i.
  induction fuel as [|fuel IH]; intros i Hfuel; cbn [range_loop].
  - pose proof (ceil_div_nonpos (stop - i) step). 
    replace (Z.to_nat (ceil_div (stop - i) step)) with 0%nat by lia.
    reflexivity.
  - destruct (i <? stop) eqn:Hlt.
    + apply Z.ltb_lt in Hlt.
      pose proof (ceil_div_pos (stop - i) step ltac:(lia) ltac:(lia)) as Hpos.
      pose proof (ceil_div_step (stop - i) step ltac:(lia)) as Hs.
      replace (Z.to_nat (ceil_div (stop - i) step))
        with (S (Z.to_nat (ceil_div (stop - (i + step)) step)))
        by (replace (stop - (i + step)) with (stop - i - step) by lia; lia).
      rewrite IH by lia.
      cbn [seq fmap list_fmap]. f_equal; [lia|].
      rewrite <- seq_shift, <- list_fmap_compose.
      apply list_fmap_ext. intros _ k _. simpl. lia.
    + apply Z.ltb_ge in Hlt.
      pose proof (ceil_div_nonpos (stop - i) step).
      replace (Z.to_nat (ceil_div (stop - i) step)) with 0%nat by lia.
      reflexivity.
Qed.

Lemma take_min_length {A} (l : list A) (n : nat) :
  take (n `min` length l) l = take n l.
Proof.
  destruct (decide (n ≤ length l)%nat).
  - by rewrite Nat.min_l.
  - rewrite Nat.min_r by lia. rewrite !take_ge; [done| lia | lia].
Qed.

(** Batch [k] is the slice of [P] labels that starts at [k * P]. *)
Lemma batch_labels_chunks (labels : list str) (P : Z) :
  1 ≤ P →
  Generator.batch_labels labels P
  = (fun k : nat => take (Z.to_nat P) (drop (k * Z.to_nat P) labels))
      <$> seq 0 (Z.to_nat (ceil_div (len labels) P)).
Proof.
  intros HP. unfold Generator.batch_labels.
  replace ((P =? 0) || (P <? 1)) with false
    by (symmetry; apply orb_false_iff; split; [apply Z.eqb_neq | apply Z.ltb_ge]; lia).
  destruct labels as [|l0 labels']; cbn [nonempty negb].
  - unfold len, ceil_div. simpl length.
    replace ((Z.of_nat 0 + P - 1) / P) with 0 by (symmetry; apply Z.div_small; lia).
    reflexivity.
  - set (labels := l0 :: labels').
    unfold range. rewrite range_loop_spec by lia.
    rewrite Z.sub_0_r, <- list_fmap_compose.
    apply list_fmap_ext. intros _ k _. simpl.
    unfold slice, len.
    replace (Z.to_nat (0 + Z.of_nat k * P)) with (k * Z.to_nat P)%nat by lia.
    rewrite <- (take_min_length (drop _ _) (Z.to_nat P)).
    f_equal. rewrite length_drop. lia.
Qed.

Lemma chunks_concat {A} (l : list A) (p n : nat) :
  concat ((fun k : nat => take p (drop (k * p) l)) <$> seq 0 n) = take (n * p) l.
Proof.
  induction n as [|n IH].
  - reflexivity.
  - rewrite seq_S, fmap_app, concat_app, IH. cbn [fmap list_fmap concat].
    rewrite app_nil_r. simpl plus.
    replace (S n * p)%nat with (n * p + p)%nat by lia.
    by rewrite take_take_drop.
Qed.

End Batching.

(* ================================================================== *)
(** * The menu builder *)
(* ================================================================== *)

Section Builder.

Implicit Types (file root : str) (labels : list str) (gb : option str).

(** The loop over the batches: one sub-page per batch, numbered from the
    current [batch_number]. *)
Lemma write_submenus_foldl root file (n : Z) (tops : list str)
    (chunks : list (list str)) :
  foldl (Generator.write_submenu root) (file, n, tops) chunks
  = (file ++ concat (page_text <$>
               imap (fun i c => mkPage (sub_label root (n + Z.of_nat i)) c (Some root))
                    chunks),
     (n + len chunks)%Z,
     tops ++ imap (fun i _ => sub_label root (n + Z.of_nat i)) chunks).
Proof.
  revert file n tops.
  induction chunks as [|c chunks IH]; intros file n tops.
  - cbn. rewrite !app_nil_r. do 2 f_equal. unfold len. simpl. lia.
  - cbn [foldl]. unfold Generator.write_submenu at 2.
    rewrite IH, jump_menu_appends. rewrite !imap_cons.
    cbn [fmap list_fmap concat]. rewrite <- !app_assoc.
    replace (n + Z.of_nat 0)%Z with n by lia.
    assert (Hext : forall (F : Z -> list str -> MenuPage),
               imap (fun i c0 => F (n + 1 + Z.of_nat i)%Z c0) chunks
               = imap ((fun i c0 => F (n + Z.of_nat i)%Z c0) ∘ S) chunks).
    { intros F. apply imap_ext. intros i x _. simpl. f_equal. lia. }
    rewrite (Hext (fun z c0 => mkPage (sub_label root z) c0 (Some root))).
    assert (Hext' :
               imap (fun i (_ : list str) => sub_label root (n + 1 + Z.of_nat i)%Z) chunks
               = imap ((fun i (_ : list str) => sub_label root (n + Z.of_nat i)%Z) ∘ S) chunks).
    { apply imap_ext. intros i x _. simpl. f_equal. lia. }
    rewrite Hext'.
    replace (n + 1 + len chunks)%Z with (n + len (c :: chunks))%Z
      by (unfold len; simpl length; lia).
    reflexivity.
Qed.

Lemma page_size_guard (P : Z) :
  (0 < P)%Z → ((P =? 0)%Z || (P <? 1)%Z) = false.
Proof.
  intros HP. apply orb_false_iff. split; [apply Z.eqb_neq | apply Z.ltb_ge]; lia.
Qed.

(** A list that fits one page: one call of the writer, under the root. *)
Lemma builder_single_page file root labels gb (P : Z) :
  (0 < P)%Z → (len labels ≤ P)%Z →
  Indexer.write_labels_to_file_in_batches file root labels gb P
  = file ++ page_text (mkPage root labels gb).
Proof.
  intros HP HN. unfold Indexer.write_labels_to_file_in_batches.
  rewrite page_size_guard by done.
  replace (len labels <=? P)%Z with true by (symmetry; by apply Z.leb_le).
  rewrite orb_true_r. rewrite indexer_jump_menu. apply jump_menu_appends.
Qed.

(** A longer list: one sub-page per batch, then the top page. *)
Lemma builder_paged file root labels gb (P : Z) :
  (0 < P)%Z → (P < len labels)%Z →
  Indexer.write_labels_to_file_in_batches file root labels gb P
  = file
    ++ concat (page_text <$> sub_pages root (Generator.batch_labels labels P))
    ++ page_text (top_page root gb (Generator.batch_labels labels P)).
Proof.
  intros HP HN. unfold Indexer.write_labels_to_file_in_batches.
  rewrite page_size_guard by done.
  replace (len labels <=? P)%Z with false by (symmetry; apply Z.leb_gt; lia).
  destruct labels as [|l0 labels']; [unfold len in HN; simpl in HN; lia|].
  cbn [nonempty negb orb].
  change (Indexer.write_submenu root) with (Generator.write_submenu root).
  rewrite indexer_batch_labels, write_submenus_foldl.
  rewrite indexer_jump_menu, jump_menu_appends.
  rewrite <- app_assoc. reflexivity.
Qed.

(** The generator's builder is the indexer's without a go-back label. *)
Lemma generator_builder_is_indexer_builder file labels root (P : Z) :
  Generator.write_labels_to_script_file file labels root P
  = Indexer.write_labels_to_file_in_batches file root labels None P.
Proof. reflexivity. Qed.

End Builder.

Section Chunks.

Local Open Scope Z_scope.
Implicit Types (labels : list str) (P : Z).

Lemma len_nonneg {A} (l : list A) : (0 ≤ len l)%Z.
Proof. unfold len. lia. Qed.

Lemma ceil_div_len_nonneg labels P : (0 < P)%Z → (0 ≤ ceil_div (len labels) P)%Z.
Proof.
  intros HP. pose proof (len_nonneg labels) as HN.
  destruct (decide (len labels = 0)) as [H0|H0].
  - rewrite H0. unfold ceil_div. rewrite Z.div_small; lia.
  - pose proof (ceil_div_pos (len labels) P HP ltac:(lia)). lia.
Qed.

Lemma batch_labels_length labels P :
  (0 < P)%Z → len (Generator.batch_labels labels P) = ceil_div (len labels) P.
Proof.
  intros HP. rewrite batch_labels_chunks by lia.
  unfold len at 1. rewrite length_fmap, length_seq.
  pose proof (ceil_div_len_nonneg labels P HP). lia.
Qed.

Lemma batch_labels_concat labels P :
  (0 < P)%Z → concat (Generator.batch_labels labels P) = labels.
Proof.
  intros HP. rewrite batch_labels_chunks by lia.
  rewrite chunks_concat. apply take_ge.
  pose proof (ceil_div_covers (len labels) P HP) as Hc.
  pose proof (ceil_div_len_nonneg labels P HP) as H0.
  unfold len in *. nia.
Qed.

Lemma batch_labels_lookup labels P (i : nat) (c : list str) :
  (0 < P)%Z → Generator.batch_labels labels P !! i = Some c →
  c = take (Z.to_nat P) (drop (i * Z.to_nat P) labels)
  ∧ (i < length (Generator.batch_labels labels P))%nat.
Proof.
  intros HP Hi. split; [|by eapply lookup_lt_Some].
  rewrite batch_labels_chunks in Hi by lia.
  rewrite list_lookup_fmap in Hi.
  destruct (seq 0 _ !! i) as [k|] eqn:Hk; [|done].
  apply lookup_seq in Hk as [-> _]. simpl in Hi. by inversion Hi.
Qed.

Lemma batch_labels_lookup_lt labels P (i : nat) :
  (0 < P)%Z → (Z.of_nat i < ceil_div (len labels) P)%Z →
  Generator.batch_labels labels P !! i
  = Some (take (Z.to_nat P) (drop (i * Z.to_nat P) labels)).
Proof.
  intros HP Hi. rewrite batch_labels_chunks by lia.
  rewrite list_lookup_fmap.
  rewrite (proj2 (lookup_seq 0 _ i i)); [done|]. split; lia.
Qed.

(** Every batch holds between one and [P] labels, and every batch but the
    last holds exactly [P]. *)
Lemma batch_labels_sizes labels P (i : nat) (c : list str) :
  (0 < P)%Z → Generator.batch_labels labels P !! i = Some c →
  (0 < len c ≤ P)%Z
  ∧ ((S i < length (Generator.batch_labels labels P))%nat → len c = P).
Proof.
  intros HP Hi.
  destruct (batch_labels_lookup _ _ _ _ HP Hi) as [-> Hlt].
  pose proof (batch_labels_length labels P HP) as Hlen.
  pose proof (ceil_div_tight (len labels) P HP) as Ht.
  unfold len in *. rewrite length_take, length_drop.
  split; [|intros HS]; nia.
Qed.

(** Entry [k] of batch [i] is the label at position [i * P + k]. *)
Lemma batch_labels_entry labels P (i k : nat) (c : list str) (l : str) :
  (0 < P)%Z → Generator.batch_labels labels P !! i = Some c →
  c !! k = Some l →
  (k < Z.to_nat P)%nat ∧ labels !! (i * Z.to_nat P + k)%nat = Some l.
Proof.
  intros HP Hi Hk.
  destruct (batch_labels_lookup _ _ _ _ HP Hi) as [-> _].
  apply lookup_take_Some in Hk as [Hk Hlt]. by rewrite lookup_drop in Hk.
Qed.

(** The label at position [j] is entry [j mod P] of batch [j / P]. *)
Lemma batch_labels_position labels P (j : nat) (l : str) :
  (0 < P)%Z → labels !! j = Some l →
  ∃ c, Generator.batch_labels labels P !! (j / Z.to_nat P)%nat = Some c
       ∧ c !! (j mod Z.to_nat P)%nat = Some l.
Proof.
  intros HP Hj.
  pose proof (lookup_lt_Some _ _ _ Hj) as Hlt.
  pose proof (Nat.div_mod_eq j (Z.to_nat P)) as Hdm.
  pose proof (Nat.mod_upper_bound j (Z.to_nat P) ltac:(lia)) as Hm.
  eexists. split.
  - apply batch_labels_lookup_lt; [done|].
    pose proof (ceil_div_covers (len labels) P HP) as Hc.
    unfold len in *.
    destruct (decide (Z.of_nat (j / Z.to_nat P) < ceil_div (Z.of_nat (length labels)) P)%Z)
      as [|Hge]; [done|].
    exfalso.
    pose proof (ceil_div_tight (Z.of_nat (length labels)) P HP) as Ht.
    pose proof (ceil_div_step (Z.of_nat (length labels) + P) P HP) as Hs.
    unfold ceil_div in *.
    pose proof (Z.div_mod (Z.of_nat (length labels) + P - 1) P ltac:(lia)) as Hd.
    pose proof (Z.mod_pos_bound (Z.of_nat (length labels) + P - 1) P HP) as Hb.
    nia.
  - rewrite lookup_take_Some. split; [|done].
    rewrite lookup_drop. rewrite <- Hj. f_equal. lia.
Qed.

End Chunks.

(* ================================================================== *)
(** * Stripping, replacing and printing *)
(* ================================================================== *)

Section Stripping.

Variable p : char -> bool.

Lemma lstrip_with_suffix (s : str) : lstrip_with p s `suffix_of` s.
Proof.
  induction s as [|c s IH]; cbn [lstrip_with]; [done|].
  destruct (p c); [by apply suffix_cons_r | done].
Qed.

Lemma lstrip_with_head (s : str) (c : char) :
  head (lstrip_with p s) = Some c → p c = false.
Proof.
  induction s as [|x s IH]; cbn [lstrip_with]; [done|].
  destruct (p x) eqn:Hx; [done|]. simpl. by intros [= <-].
Qed.

Lemma lstrip_with_id (s : str) :
  (∀ c, head s = Some c → p c = false) → lstrip_with p s = s.
Proof.
  destruct s as [|c s]; [done|]. intros H. cbn [lstrip_with].
  by rewrite (H c eq_refl).
Qed.

Lemma lstrip_with_all (s : str) :
  forallb p s = true → lstrip_with p s = [].
Proof.
  induction s as [|c s IH]; [done|]. cbn [forallb lstrip_with].
  intros [Hc Hs]%andb_true_iff. rewrite Hc. by apply IH.
Qed.

Lemma rstrip_with_prefix (s : str) : rstrip_with p s `prefix_of` s.
Proof.
  induction s as [|c s IH]; cbn [rstrip_with]; [done|].
  destruct (rstrip_with p s) as [|r rs] eqn:Hr.
  - destruct (p c); [apply prefix_nil | apply prefix_cons, prefix_nil].
  - by apply prefix_cons.
Qed.

Lemma rstrip_with_last (s : str) (c : char) :
  last (rstrip_with p s) = Some c → p c = false.
Proof.
  induction s as [|x s IH]; cbn [rstrip_with]; [done|].
  destruct (rstrip_with p s) as [|r rs] eqn:Hr.
  - destruct (p x) eqn:Hx; [done|]. simpl. by intros [= <-].
  - rewrite last_cons_cons. apply IH.
Qed.

Lemma rstrip_with_id (s : str) :
  (∀ c, last s = Some c → p c = false) → rstrip_with p s = s.
Proof.
  induction s as [|x s IH]; [done|]. intros H. cbn [rstrip_with].
  destruct s as [|y s].
  - simpl. by rewrite (H x eq_refl).
  - rewrite IH; [done|]. intros c Hc. apply H. by rewrite last_cons_cons.
Qed.

Lemma rstrip_with_keeps_head (c : char) (s : str) :
  p c = false → ∃ r, rstrip_with p (c :: s) = c :: r.
Proof.
  intros Hc. cbn [rstrip_with]. rewrite Hc.
  destruct (rstrip_with p s); eauto.
Qed.

End Stripping.

Section Strip.

Implicit Types s : str.

Lemma suffix_last s1 s2 : s1 `suffix_of` s2 → s1 ≠ [] → last s1 = last s2.
Proof.
  intros [k ->] Hne. rewrite last_app.
  destruct (last s1) eqn:Hl; [done|]. by apply last_None in Hl.
Qed.

Lemma strip_trimmed s : trimmed (strip s).
Proof.
  unfold strip. split.
  - intros c Hc.
    destruct (lstrip_with isspace s) as [|x t] eqn:Hl; [done|].
    assert (Hx : isspace x = false)
      by (apply (lstrip_with_head isspace s); by rewrite Hl).
    destruct (rstrip_with_keeps_head isspace x t Hx) as [r Hr].
    rewrite Hr in Hc. simpl in Hc. by inversion Hc; subst.
  - intros c. apply rstrip_with_last.
Qed.

Lemma strip_id s : trimmed s → strip s = s.
Proof.
  intros [Hh Hl]. unfold strip.
  rewrite lstrip_with_id by done. by apply rstrip_with_id.
Qed.

Lemma strip_idempotent s : strip (strip s) = strip s.
Proof. apply strip_id, strip_trimmed. Qed.

Lemma strip_whitespace s : forallb isspace s = true → strip s = [].
Proof. intros H. unfold strip. by rewrite lstrip_with_all. Qed.

Lemma rstrip_trimmed s : trimmed s → rstrip s = s.
Proof. intros [_ Hl]. by apply rstrip_with_id. Qed.

(** ** Replacing one character by another *)

Lemma replace_char (a b : char) s :
  replace [a] [b] s = (fun c => if decide (c = a) then b else c) <$> s.
Proof.
  unfold replace. induction s as [|c s IH]; [done|].
  cbn [replace_from fmap list_fmap]. simpl length. simpl Nat.sub.
  case_bool_decide as Hp.
  - apply prefix_cons_inv_1 in Hp. subst.
    rewrite decide_True by done. simpl. by rewrite IH.
  - rewrite decide_False; [by rewrite IH|].
    intros ->. apply Hp. apply prefix_cons, prefix_nil.
Qed.

Lemma replace_space_colon s :
  replace Generator.COLON (u "_") (replace (u " ") (u "_") s) = underscored s.
Proof.
  change Generator.COLON with [COLON_CHAR]. change (u "_") with [UNDERSCORE].
  change (u " ") with [SPACE]. rewrite !replace_char.
  unfold underscored. rewrite <- list_fmap_compose.
  apply list_fmap_ext. intros _ c _. simpl.
  destruct (decide (c = SPACE)) as [->|Hs]; [done|].
  destruct (decide (c = COLON_CHAR)) as [->|Hc]; [done|].
  rewrite decide_False by (intros [?|?]; done). done.
Qed.

Lemma underscored_nil_inv s : underscored s = [] → s = [].
Proof. unfold underscored. apply fmap_nil_inv. Qed.

Lemma underscored_no_space s : SPACE ∉ underscored s.
Proof.
  unfold underscored. intros (c & Hc & _)%list_elem_of_fmap.
  case_decide; [done|]. naive_solver.
Qed.

Lemma underscored_no_colon s : COLON_CHAR ∉ underscored s.
Proof.
  unfold underscored. intros (c & Hc & _)%list_elem_of_fmap.
  case_decide; [done|]. naive_solver.
Qed.


Lemma underscored_trimmed s : trimmed s → trimmed (underscored s).
Proof.
  unfold underscored. intros [Hh Hl]. split; intros c Hc.
  - destruct s as [|x s]; [done|]. simpl in Hc. inversion Hc as [Hx].
    case_decide; [done|]. by apply Hh.
  - rewrite fmap_last in Hc.
    destruct (last s) as [x|] eqn:Hx; [|done]. simpl in Hc.
    inversion Hc as [Hx']. case_decide; [done|]. by apply Hl.
Qed.

(** ** The digits of [str(n)] *)

Lemma uint_chars_digits (d : Decimal.uint) (c : char) :
  c ∈ uint_chars d → (48 ≤ c ≤ 57)%N.
Proof.
  induction d; cbn [uint_chars]; intros Hc;
    [by apply elem_of_nil in Hc
    | apply elem_of_cons in Hc as [->|Hc]; [lia | by apply IHd] ..].
Qed.

Lemma str_of_int_chars (z : Z) (c : char) :
  c ∈ str_of_int z → c = 45%N ∨ (48 ≤ c ≤ 57)%N.
Proof.
  unfold str_of_int. destruct (Z.to_int z) as [d|d]; intros Hc.
  - right. by eapply uint_chars_digits.
  - apply elem_of_cons in Hc as [->|Hc]; [by left|].
    right. by eapply uint_chars_digits.
Qed.

End Strip.

(* ================================================================== *)
(** * Label normalisation *)
(* ================================================================== *)

Section Normalize.

Implicit Types (s t : str) (label d : option str) (now : Z).

(** The indexer carries its own copy of the normalizer. *)
Lemma indexer_normalize_label now label d :
  Indexer.normalize_label now label d = Generator.normalize_label now label d.
Proof. reflexivity. Qed.

(** The normalizer by cases on the trimmed text. *)
Lemma normalize_label_cases now label d :
  Generator.normalize_label now label d
  = match strip (text label) with
    | [] =>
        if truthy d then text d
        else Generator.LABEL ++ u "_" ++ str_of_int now
    | _ :: _ =>
        let t := underscored (strip (text label)) in
        if starts_with_digit t then Generator.LABEL ++ u "_" ++ t else t
    end.
Proof.
  unfold Generator.normalize_label.
  destruct label as [[|c l]|];
    cbn [truthy text from_option id fmap option_fmap option_map negb];
    try reflexivity.
  destruct (strip (c :: l)) as [|x t] eqn:Ht; cbn [truthy negb]; [reflexivity|].
  rewrite replace_space_colon.
  destruct (underscored (x :: t)) as [|y t'] eqn:Hu; [|reflexivity].
  by apply underscored_nil_inv in Hu.
Qed.

Lemma in_label_prefix (c : char) :
  c ∈ Generator.LABEL ++ u "_" →
  c ≠ SPACE ∧ c ≠ COLON_CHAR ∧ isspace c = false.
Proof.
  change (Generator.LABEL ++ u "_") with [108; 97; 98; 101; 108; 95]%N.
  intros Hc. repeat (apply elem_of_cons in Hc as [->|Hc]; [by repeat split|]).
  by apply elem_of_nil in Hc.
Qed.

Lemma digit_not_space (c : char) :
  c = 45%N ∨ (48 ≤ c ≤ 57)%N → isspace c = false.
Proof.
  intros Hc. apply not_true_is_false. unfold isspace, in_ranges.
  intros ([lo hi] & Hin & Hb)%existsb_exists.
  apply andb_true_iff in Hb as [Hlo%N.leb_le Hhi%N.leb_le].
  cbn [fst snd] in *. unfold whitespace_ranges in Hin.
  repeat (destruct Hin as [[= <- <-]|Hin]; [lia|]). destruct Hin.
Qed.

Lemma prefixed_safe s :
  SPACE ∉ s → COLON_CHAR ∉ s → safe_label (Generator.LABEL ++ u "_" ++ s).
Proof.
  intros Hs Hc. split; [done| | |done].
  - rewrite app_assoc. intros [H|H]%elem_of_app; [|done].
    by destruct (in_label_prefix _ H) as (? & ? & ?).
  - rewrite app_assoc. intros [H|H]%elem_of_app; [|done].
    by destruct (in_label_prefix _ H) as (? & ? & ?).
Qed.

Lemma prefixed_trimmed s :
  (∀ c, last s = Some c → isspace c = false) →
  trimmed (Generator.LABEL ++ u "_" ++ s).
Proof.
  intros Hl. split; intros c Hc.
  - by inversion Hc.
  - rewrite app_assoc, last_app in Hc.
    destruct (last s) as [x|] eqn:Hx.
    + inversion Hc; subst. by apply Hl.
    + by inversion Hc.
Qed.

(** The timestamp label is a normalized label. *)
Lemma timestamp_label_normalized now :
  normalized (Generator.LABEL ++ u "_" ++ str_of_int now).
Proof.
  split.
  - apply prefixed_safe; intros [H|H]%str_of_int_chars; unfold SPACE, COLON_CHAR in *; lia.
  - apply prefixed_trimmed. intros c Hc%last_Some_elem_of.
    by apply digit_not_space, str_of_int_chars with now.
Qed.

(** What the normalizer makes of a text that is not empty once trimmed. *)
Lemma underscored_label_normalized s :
  s ≠ [] → trimmed s →
  normalized (if starts_with_digit (underscored s)
              then Generator.LABEL ++ u "_" ++ underscored s
              else underscored s).
Proof.
  intros Hne Htr.
  pose proof (underscored_no_space s) as Hs.
  pose proof (underscored_no_colon s) as Hc.
  pose proof (underscored_trimmed s Htr) as [Hh Hl].
  destruct (starts_with_digit (underscored s)) eqn:Hd.
  - split; [by apply prefixed_safe | by apply prefixed_trimmed].
  - split; [|done]. split; try done.
    intros Hu. by apply underscored_nil_inv in Hu.
Qed.


(** The normalizer returns a normalized label, unless it hands back a
    default that is not one. *)
Lemma normalize_label_normalized now label d :
  default_normalized d → normalized (Generator.normalize_label now label d).
Proof.
  intros Hd. rewrite normalize_label_cases.
  destruct (strip (text label)) as [|x t] eqn:Ht.
  - destruct Hd as [Hd|Hd].
    + rewrite Hd. apply timestamp_label_normalized.
    + destruct (truthy d); [done | apply timestamp_label_normalized].
  - cbv zeta. apply underscored_label_normalized; [done|].
    rewrite <- Ht. apply strip_trimmed.
Qed.

Lemma normalize_label_nonempty now label d :
  Generator.normalize_label now label d ≠ [].
Proof.
  rewrite normalize_label_cases.
  destruct (strip (text label)) as [|x t] eqn:Ht.
  - destruct d as [[|c s]|]; done.
  - cbv zeta. destruct (starts_with_digit _); [done|].
    intros Hu. by apply underscored_nil_inv in Hu.
Qed.

End Normalize.

(* ================================================================== *)
(** * The speaker-line parser *)
(* ================================================================== *)

Section Parser.

Import Generator.

Lemma ellipsis_trimmed : trimmed ELLIPSIS.
Proof. split; intros c Hc; cbv in Hc; by inversion Hc. Qed.

Lemma trimmed_cons_rstrip (c : char) (s : str) :
  isspace c = false →
  rstrip (c :: s) ≠ [] ∧ strip (rstrip (c :: s)) = rstrip (c :: s).
Proof.
  intros Hc. unfold rstrip.
  destruct (rstrip_with_keeps_head isspace c s Hc) as [r Hr].
  split; [by rewrite Hr|].
  apply strip_id. split.
  - rewrite Hr. by intros x [= <-].
  - intros x. apply rstrip_with_last.
Qed.

(** What a returned record looks like. *)
Lemma parse_text_line_shape (line : str) (r : ScriptLine) :
  parse_text_line line = Some r →
  phrase r ≠ []
  ∧ rstrip (phrase r) = phrase r
  ∧ (phrase r = ELLIPSIS
     ∨ strip (phrase r) = phrase r
     ∨ (character_name r = None
        ∧ head (strip line) = Some COLON_CHAR
        ∧ phrase r = lstrip_chars COLON (strip line)))
  ∧ (character_name r = None
     ∨ ∃ n, character_name r = Some n ∧ n ≠ [] ∧ strip n = n).
Proof.
  unfold parse_text_line.
  destruct line as [|c0 line0]; [done|]. cbn [nonempty negb].
  generalize (c0 :: line0). clear c0 line0. intros line.
  pose proof (strip_trimmed line) as Htr.
  destruct (strip line) as [|c t] eqn:Hs; [done|]. cbn [nonempty negb].
  pose proof Htr as [Hh Hl]. specialize (Hh c eq_refl).
  destruct (find COLON (c :: t) <? 1)%Z eqn:Hci.
  - destruct (lstrip_chars COLON (c :: t)) as [|x ph] eqn:Hph; [done|].
    cbn [nonempty]. intros [= <-]. cbn [phrase character_name].
    assert (Hlast : ∀ y, last (x :: ph) = Some y → isspace y = false).
    { intros y Hy. apply Hl. rewrite <- Hy. symmetry.
      apply suffix_last; [|done]. rewrite <- Hph. apply lstrip_with_suffix. }
    split; [done|]. split; [by apply rstrip_with_id|]. split; [|by left].
    destruct (decide (c = COLON_CHAR)) as [->|Hne].
    + right; right. done.
    + right; left.
      assert (Hid : lstrip_chars COLON (c :: t) = c :: t).
      { apply lstrip_with_id. intros y [= <-].
        apply bool_decide_eq_false. intros Hin.
        apply list_elem_of_singleton in Hin. done. }
      rewrite Hid in Hph. rewrite <- Hph. by apply strip_id.
  - apply Z.ltb_ge in Hci.
    assert (Hname : ∃ s, slice (c :: t) 0 (find COLON (c :: t)) = c :: s).
    { unfold slice. rewrite Z.sub_0_r.
      destruct (Z.to_nat (find COLON (c :: t))) as [|k] eqn:Hk; [lia|].
      simpl. eauto. }
    destruct Hname as [s Hname]. rewrite Hname.
    destruct (trimmed_cons_rstrip c s Hh) as [Hne Hidn].
    destruct (rstrip (c :: s)) as [|n0 n] eqn:Hn; [done|].
    cbn [nonempty negb andb].
    assert (Hnm : character_name (mkScriptLine (Some (n0 :: n)) ELLIPSIS) = None
                  ∨ ∃ m, Some (n0 :: n) = Some m ∧ m ≠ [] ∧ strip m = m)
      by (right; eauto).
    destruct (find COLON (c :: t) =? len (c :: t) - 1)%Z.
    + intros [= <-]. cbn [phrase character_name].
      split; [done|]. split; [apply rstrip_trimmed, ellipsis_trimmed|].
      split; [by left|]. right. eauto.
    + destruct (strip (slice_from (c :: t) (find COLON (c :: t) + 1)))
        as [|p0 ph] eqn:Hph; cbn [nonempty]; intros [= <-];
        cbn [phrase character_name].
      * split; [done|]. split; [apply rstrip_trimmed, ellipsis_trimmed|].
        split; [by left|]. right. eauto.
      * split; [done|].
        assert (Htp : trimmed (p0 :: ph)) by (rewrite <- Hph; apply strip_trimmed).
        split; [by apply rstrip_trimmed|].
        split; [right; left; by apply strip_id|]. right. eauto.
Qed.

End Parser.

(* ================================================================== *)
(** * The line writer and the character map *)
(* ================================================================== *)

Section Characters.

Import Generator.

Implicit Types (m : gmap str str) (lines : list (option ScriptLine)).

Lemma new_speakers_elem_of (known : gset str) lines (n : str) :
  n ∈ new_speakers known lines
  ↔ (n ∉ known) ∧ (∃ line, line ∈ lines ∧ speaker line = Some n).
Proof.
  revert known. induction lines as [|line lines IH]; intros known.
  - cbn [new_speakers]. split.
    + by intros Hn%elem_of_nil.
    + intros (_ & l & Hl & _). by apply elem_of_nil in Hl.
  - cbn [new_speakers]. destruct (speaker line) as [x|] eqn:Hx.
    + destruct (decide (x ∈ known)) as [Hin|Hin].
      * rewrite IH. split.
        -- intros (? & l & ? & ?). split; [done|]. exists l. split; [by right|done].
        -- intros (Hn & l & [->|Hl]%elem_of_cons & Hsp).
           ++ rewrite Hx in Hsp. inversion Hsp; subst. done.
           ++ split; [done|]. eauto.
      * rewrite elem_of_cons, IH. split.
        -- intros [->|(Hn & l & Hl & Hsp)].
           ++ split; [done|]. exists line. split; [by left|done].
           ++ split; [set_solver|]. exists l. split; [by right|done].
        -- intros (Hn & l & [->|Hl]%elem_of_cons & Hsp).
           ++ rewrite Hx in Hsp. inversion Hsp; subst. by left.
           ++ destruct (decide (n = x)) as [->|Hne]; [by left|].
              right. split; [set_solver|]. eauto.
    + rewrite IH. split.
      * intros (? & l & ? & ?). split; [done|]. exists l. split; [by right|done].
      * intros (Hn & l & [->|Hl]%elem_of_cons & Hsp); [congruence|].
        split; [done|]. eauto.
Qed.

Lemma new_speakers_NoDup (known : gset str) lines :
  NoDup (new_speakers known lines).
Proof.
  revert known. induction lines as [|line lines IH]; intros known;
    cbn [new_speakers]; [constructor|].
  destruct (speaker line) as [x|]; [|done].
  destruct (decide (x ∈ known)); [done|].
  constructor; [|done]. rewrite new_speakers_elem_of. set_solver.
Qed.

(** One turn of the loop: what it does to the map, ... *)
Lemma write_line_map (st : WriterState) (line : option ScriptLine) :
  character_map (write_line st line)
  = match speaker line with
    | Some n =>
        match character_map st !! n with
        | Some _ => character_map st
        | None => <[n := ch (size (character_map st))]> (character_map st)
        end
    | None => character_map st
    end.
Proof.
  destruct line as [l|]; [|reflexivity].
  unfold write_line, character_id_of, speaker, setdefault.
  destruct (character_name l) as [[|c n]|]; cbn [truthy text from_option id];
    try reflexivity.
  destruct (character_map st !! _); reflexivity.
Qed.

(** What the formatter makes of a line is the text of the line. *)
Lemma script_line_written m (l : ScriptLine) :
  TAB ++ script_line_text
           (if truthy (character_name l) then m !! text (character_name l)
            else None) l
      ++ NL
  = line_text m (Some l).
Proof.
  unfold line_text, line_id, speaker, script_line_text.
  destruct (character_name l) as [[|c n]|]; cbn [truthy text from_option id];
    [| destruct (m !! _) as [[|d v]|]; cbn [truthy text from_option id] |];
    by rewrite <- ?app_assoc.
Qed.

(** ... to the file, read with any later state [m'] of the map, ... *)
Lemma write_line_file (st : WriterState) (line : option ScriptLine) m' :
  character_map (write_line st line) ⊆ m' →
  script_file (write_line st line) = script_file st ++ line_text m' line.
Proof.
  destruct line as [l|]; [|intros _; cbn; by rewrite app_nil_r].
  rewrite <- script_line_written.
  unfold write_line, character_id_of, setdefault, write.
  destruct (character_name l) as [[|c n]|]; cbn [truthy text from_option id];
    try (intros _; reflexivity).
  destruct (character_map st !! _) as [v|] eqn:Hlook;
    cbn [character_map script_file]; intros Hsub.
  - by rewrite (lookup_weaken _ _ _ _ Hlook Hsub).
  - eapply lookup_weaken in Hsub; [|apply lookup_insert_eq].
    by rewrite Hsub.
Qed.

(** ... and to the counter. *)
Lemma write_line_count (st : WriterState) (line : option ScriptLine) :
  lines_count (write_line st line)
  = (lines_count st + match line with Some _ => 1 | None => 0 end)%Z.
Proof.
  destruct line as [l|]; [|cbn; lia].
  unfold write_line. by destruct (character_id_of l (character_map st)).
Qed.

(** The loop, from any state it can be in. *)
Lemma write_lines_foldl lines (st : WriterState) :
  let st' := foldl write_line st lines in
  character_map st ⊆ character_map st'
  ∧ (∀ (k : nat) (n : str),
        new_speakers (dom (character_map st)) lines !! k = Some n →
        character_map st !! n = None
        ∧ character_map st' !! n = Some (ch (size (character_map st) + k)))
  ∧ dom (character_map st')
    = dom (character_map st) ∪ list_to_set (new_speakers (dom (character_map st)) lines)
  ∧ script_file st'
    = script_file st ++ concat (line_text (character_map st') <$> lines)
  ∧ lines_count st' = (lines_count st + len (omap id lines))%Z.
Proof.
  revert st. induction lines as [|line lines IH]; intros st.
  - cbn. rewrite app_nil_r. split_and!; try done.
    + set_solver.
    + unfold len. simpl. lia.
  - cbn [foldl]. cbv zeta.
    specialize (IH (write_line st line)). cbv zeta in IH.
    destruct IH as (Hsub & Hnew & Hdom & Hfile & Hcnt).
    set (st' := foldl write_line (write_line st line) lines) in *.
    pose proof (write_line_file st line _ Hsub) as Hline.
    rewrite write_line_count in Hcnt. rewrite Hline in Hfile. clear Hline.
    rewrite write_line_map in Hsub, Hnew, Hdom.
    cbn [new_speakers fmap list_fmap concat]. rewrite <- app_assoc in Hfile.
    assert (Hcount : lines_count st' = (lines_count st + len (omap id (line :: lines)))%Z).
    { rewrite Hcnt. unfold len. destruct line as [l|].
      - change (omap id (Some l :: lines)) with (l :: omap id lines).
        cbn [length]. lia.
      - change (omap id (None :: lines)) with (omap id lines). lia. }
    destruct (speaker line) as [n|] eqn:Hsp; [|done].
    destruct (character_map st !! n) as [v|] eqn:Hlook.
    + rewrite decide_True by (apply elem_of_dom; eauto). done.
    + rewrite decide_False by (by apply not_elem_of_dom).
      rewrite dom_insert_L in Hnew, Hdom.
      rewrite map_size_insert_None in Hnew by done.
      split_and!; [| | |done|done].
      * etrans; [|exact Hsub]. by apply insert_subseteq.
      * intros [|k] x Hk.
        -- inversion Hk; subst. rewrite Nat.add_0_r. split; [done|].
           eapply lookup_weaken; [|exact Hsub]. apply lookup_insert_eq.
        -- destruct (Hnew k x Hk) as [Hx1 Hx2]. split.
           ++ apply lookup_insert_None in Hx1. tauto.
           ++ rewrite Hx2. do 2 f_equal. lia.
      * rewrite Hdom. cbn [list_to_set foldr]. set_solver.
Qed.

End Characters.

(* ================================================================== *)
(** * The menu builder: the properties of the pages *)
(* ================================================================== *)

Section MenuClaims.

Local Open Scope Z_scope.
Implicit Types (file root : str) (labels : list str) (gb : option str) (P : Z).

(** C1. For a label list of length N and a page size P > 0: when N <= P
    the builder emits exactly one page, under the root label, with all
    the labels; when N > P it emits one sub-page per batch and then one
    top page, there are ceil(N/P) batches, the batches are the
    consecutive slices of P labels in input order (the last one possibly
    shorter, none empty), their concatenation is the label list, and
    every position of the list is one entry of exactly one sub-page (so,
    when the labels are distinct, every label is on exactly one
    sub-page). What is emitted is given as text: [page_text] writes a
    page out, header, menu line, back entry and one entry per label.
    Stated for the generator's builder and for the indexer's, whatever the
    go-back label of the latter. *)
Theorem menu_pages_partition file labels root gb P :
  0 < P →
  let chunks := Generator.batch_labels labels P in
  (len labels ≤ P →
     Generator.write_labels_to_script_file file labels root P
     = file ++ page_text (mkPage root labels None)
     ∧ Indexer.write_labels_to_file_in_batches file root labels gb P
       = file ++ page_text (mkPage root labels gb))
  ∧ (P < len labels →
     Generator.write_labels_to_script_file file labels root P
     = file ++ concat (page_text <$> sub_pages root chunks)
            ++ page_text (top_page root None chunks)
     ∧ Indexer.write_labels_to_file_in_batches file root labels gb P
       = file ++ concat (page_text <$> sub_pages root chunks)
              ++ page_text (top_page root gb chunks)
     ∧ len (sub_pages root chunks) = ceil_div (len labels) P
     ∧ concat chunks = labels
     ∧ (∀ (i : nat) (c : list str), chunks !! i = Some c →
          c = take (Z.to_nat P) (drop (i * Z.to_nat P) labels)
          ∧ 0 < len c ≤ P
          ∧ ((S i < length chunks)%nat → len c = P))
     ∧ (∀ (j : nat) (l : str), labels !! j = Some l →
          exists ! ik : nat * nat,
            ∃ c, chunks !! ik.1 = Some c ∧ c !! ik.2 = Some l
                 ∧ j = (ik.1 * Z.to_nat P + ik.2)%nat)
     ∧ (NoDup labels → ∀ l, l ∈ labels →
          exists ! i : nat, ∃ c, chunks !! i = Some c ∧ l ∈ c)).
Proof.
  intros HP chunks. split.
  - intros HN. rewrite generator_builder_is_indexer_builder.
    split; by apply builder_single_page.
  - intros HN. rewrite generator_builder_is_indexer_builder.
    assert (Hentry : ∀ (i k : nat) c l, chunks !! i = Some c → c !! k = Some l →
              (k < Z.to_nat P)%nat ∧ labels !! (i * Z.to_nat P + k)%nat = Some l)
      by (intros; by eapply batch_labels_entry).
    split_and!.
    + by apply builder_paged.
    + by apply builder_paged.
    + unfold sub_pages, len. rewrite length_imap.
      by apply batch_labels_length.
    + by apply batch_labels_concat.
    + intros i c Hi.
      destruct (batch_labels_lookup _ _ _ _ HP Hi) as [Hc _].
      destruct (batch_labels_sizes _ _ _ _ HP Hi) as [Hsz Hfull].
      done.
    + intros j l Hj.
      destruct (batch_labels_position labels P j l HP Hj) as (c & Hc & Hl).
      exists (j / Z.to_nat P, j mod Z.to_nat P)%nat. split.
      * exists c. cbn [fst snd]. split_and!; [done|done|].
        pose proof (Nat.div_mod_eq j (Z.to_nat P)). lia.
      * intros [i k] (c' & Hi & Hk & Hjk). cbn [fst snd] in *.
        destruct (Hentry i k c' l Hi Hk) as [Hlt _].
        assert (Hi' : (j / Z.to_nat P)%nat = i).
        { subst j. rewrite Nat.add_comm, Nat.div_add by lia.
          rewrite Nat.div_small by done. done. }
        assert (Hk' : (j mod Z.to_nat P)%nat = k).
        { subst j. rewrite Nat.add_comm, Nat.Div0.mod_add.
          by apply Nat.mod_small. }
        by rewrite Hi', Hk'.
    + intros Hnd l Hl.
      apply list_elem_of_lookup in Hl as [j Hj].
      destruct (batch_labels_position labels P j l HP Hj) as (c & Hc & Hk).
      exists (j / Z.to_nat P)%nat. split.
      * exists c. split; [done|]. by eapply list_elem_of_lookup_2.
      * intros i (c' & Hi & [k Hk']%list_elem_of_lookup).
        destruct (Hentry i k c' l Hi Hk') as [Hlt Hpos].
        pose proof (NoDup_lookup _ _ _ _ Hnd Hj Hpos) as ->.
        rewrite Nat.add_comm, Nat.div_add by lia.
        by rewrite Nat.div_small.
Qed.

Lemma menu_pages_partition_witness :
  0 < 2
  ∧ Generator.write_labels_to_script_file [] [u "a"; u "b"; u "c"] (u "r") 2
    = concat (page_text <$> sub_pages (u "r") [[u "a"; u "b"]; [u "c"]])
      ++ page_text (top_page (u "r") None [[u "a"; u "b"]; [u "c"]]).
Proof.
  split; [lia|].
  destruct (menu_pages_partition [] [u "a"; u "b"; u "c"] (u "r") None 2
              ltac:(lia)) as [_ H].
  destruct H as [H _]; [vm_compute; reflexivity | exact H].
Defined.

(** C2. The two tools build their menus alike: for every file, label
    list, root label and page size, the generator's builder writes the
    very text that the indexer's builder writes when its go-back label is
    left at [None]. *)
Theorem generator_and_indexer_menus_agree file labels root P :
  Generator.write_labels_to_script_file file labels root P
  = Indexer.write_labels_to_file_in_batches file root labels None P.
Proof.
  unfold Generator.write_labels_to_script_file,
    Indexer.write_labels_to_file_in_batches.
  change Indexer.MAX_LABELS_PER_MENU with Generator.MAX_LABELS_PER_MENU.
  destruct (negb (nonempty labels) || (len labels <=? _)).
  - symmetry. apply indexer_jump_menu.
  - change (Indexer.batch_labels labels) with (Generator.batch_labels labels).
    change (Indexer.write_submenu root) with (Generator.write_submenu root).
    destruct (foldl _ _ _) as [[f n] tops]. symmetry. apply indexer_jump_menu.
Qed.

(** C6. An empty label list with no go-back label never makes the builder
    fail: whatever the page size, it appends one page under the root label
    that holds the single statement [pass] and no menu entry. This holds
    for the generator's builder, for the indexer's with the go-back label
    absent or empty, and for the jump-menu writer itself. *)
Theorem empty_menu_placeholder file root P :
  let page := (u "label " ++ root ++ u ":" ++ NL ++ NL) ++ (u "    pass" ++ NL) in
  Generator.write_labels_to_script_file file [] root P = file ++ page
  ∧ Indexer.write_labels_to_file_in_batches file root [] None P = file ++ page
  ∧ Indexer.write_labels_to_file_in_batches file root [] (Some []) P = file ++ page
  ∧ Generator.write_jump_menu_to_script_file file root [] None = file ++ page
  ∧ Indexer.write_jump_menu_to_file file root [] None = file ++ page.
Proof.
  cbv zeta.
  assert (Hm : ∀ gb, truthy gb = false →
            Generator.write_jump_menu_to_script_file file root [] gb
            = file ++ (u "label " ++ root ++ u ":" ++ NL ++ NL) ++ (u "    pass" ++ NL)).
  { intros gb Hgb. rewrite jump_menu_text, Hgb. cbn [nonempty negb andb].
    unfold header_text. by rewrite <- !app_assoc. }
  split_and!.
  - unfold Generator.write_labels_to_script_file. cbn [nonempty negb orb].
    by apply Hm.
  - unfold Indexer.write_labels_to_file_in_batches. cbn [nonempty negb orb].
    rewrite indexer_jump_menu. by apply Hm.
  - unfold Indexer.write_labels_to_file_in_batches. cbn [nonempty negb orb].
    rewrite indexer_jump_menu. by apply Hm.
  - by apply Hm.
  - rewrite indexer_jump_menu. by apply Hm.
Qed.

(** C10. With an empty label list and a go-back label that is not empty,
    the jump-menu writer appends a menu block with exactly one entry, the
    back entry that jumps to the go-back label: no [pass] and no label
    entry. The same holds for the indexer's writer. *)
Theorem back_only_menu file (top go_back : str) :
  go_back ≠ [] →
  let page :=
    (u "label " ++ top ++ u ":" ++ NL ++ NL)
    ++ (u "    menu:" ++ NL)
    ++ (u "        " ++ DQUOTE ++ u "< BACK" ++ DQUOTE ++ u ":" ++ NL)
    ++ (u "            jump " ++ go_back ++ NL ++ NL) in
  Generator.write_jump_menu_to_script_file file top [] (Some go_back) = file ++ page
  ∧ Indexer.write_jump_menu_to_file file top [] (Some go_back) = file ++ page.
Proof.
  intros Hgb. cbv zeta.
  assert (Generator.write_jump_menu_to_script_file file top [] (Some go_back)
          = file ++ (u "label " ++ top ++ u ":" ++ NL ++ NL)
            ++ (u "    menu:" ++ NL)
            ++ (u "        " ++ DQUOTE ++ u "< BACK" ++ DQUOTE ++ u ":" ++ NL)
            ++ (u "            jump " ++ go_back ++ NL ++ NL)) as Hpage;
    [|split; [exact Hpage | etrans; [apply indexer_jump_menu | exact Hpage]]].
  rewrite jump_menu_text. destruct go_back as [|c g]; [done|].
  cbn [truthy nonempty negb andb fmap list_fmap concat text from_option id].
  unfold header_text, back_text. rewrite app_nil_r, <- !app_assoc. reflexivity.
Qed.

Lemma back_only_menu_witness :
  u "main" ≠ []
  ∧ Generator.write_jump_menu_to_script_file [] (u "index") [] (Some (u "main"))
    = (u "label index:" ++ NL ++ NL)
      ++ (u "    menu:" ++ NL)
      ++ (u "        " ++ DQUOTE ++ u "< BACK" ++ DQUOTE ++ u ":" ++ NL)
      ++ (u "            jump main" ++ NL ++ NL).
Proof.
  split; [discriminate|].
  exact (proj1 (back_only_menu [] (u "index") (u "main") ltac:(discriminate))).
Defined.

(** C7. With 45 labels and a page size of 20 the builder writes three
    sub-pages, filed under [root_0], [root_1] and [root_2], with the first
    20 labels, the next 20 and the last 5 as their entries; each of them
    (so the first two) begins with the back entry that jumps to the root
    label, the label of the top page; then it writes the top page, under
    the root label, whose three entries are [root_0], [root_1] and
    [root_2]. The root label is a label, so it is not empty. The text is
    written out in full: [sub] is the text of a sub-page, [top] that of
    the top page. *)
Theorem menu_45_labels_page_20 file labels root gb :
  length labels = 45%nat → root ≠ [] →
  let sub (name : str) (entries : list str) : str :=
    header_text name ++ (u "    menu:" ++ NL)
    ++ back_text root ++ concat (entry_text <$> entries) in
  let top (gb : option str) : str :=
    header_text root ++ (u "    menu:" ++ NL)
    ++ (if truthy gb then back_text (text gb) else [])
    ++ entry_text (root ++ u "_0") ++ entry_text (root ++ u "_1")
    ++ entry_text (root ++ u "_2") in
  Generator.write_labels_to_script_file file labels root 20
  = file ++ sub (root ++ u "_0") (take 20 labels)
         ++ sub (root ++ u "_1") (take 20 (drop 20 labels))
         ++ sub (root ++ u "_2") (drop 40 labels)
         ++ top None
  ∧ Indexer.write_labels_to_file_in_batches file root labels gb 20
    = file ++ sub (root ++ u "_0") (take 20 labels)
           ++ sub (root ++ u "_1") (take 20 (drop 20 labels))
           ++ sub (root ++ u "_2") (drop 40 labels)
           ++ top gb
  ∧ length (take 20 labels) = 20%nat
  ∧ length (take 20 (drop 20 labels)) = 20%nat
  ∧ length (drop 40 labels) = 5%nat
  ∧ take 20 labels ++ take 20 (drop 20 labels) ++ drop 40 labels = labels.
Proof.
  intros Hlen Hroot. cbv zeta.
  assert (Hchunks : Generator.batch_labels labels 20
                    = [take 20 labels; take 20 (drop 20 labels); drop 40 labels]).
  { rewrite batch_labels_chunks by lia. unfold len. rewrite Hlen.
    change (Z.to_nat (ceil_div (Z.of_nat 45) 20)) with 3%nat.
    cbn [seq fmap list_fmap]. change (Z.to_nat 20) with 20%nat.
    cbn [Nat.mul Nat.add]. rewrite drop_0.
    do 3 f_equal. apply take_ge. rewrite length_drop. lia. }
  assert (Hsub : ∀ name entries,
            page_text (mkPage name entries (Some root))
            = header_text name ++ (u "    menu:" ++ NL)
              ++ back_text root ++ concat (entry_text <$> entries)).
  { intros name entries. unfold page_text.
    cbn [page_label page_entries page_back].
    destruct root as [|c r]; [done|]. reflexivity. }
  assert (Htop : ∀ g,
            page_text (mkPage root [root ++ u "_0"; root ++ u "_1"; root ++ u "_2"] g)
            = header_text root ++ (u "    menu:" ++ NL)
              ++ (if truthy g then back_text (text g) else [])
              ++ entry_text (root ++ u "_0") ++ entry_text (root ++ u "_1")
              ++ entry_text (root ++ u "_2")).
  { intros g. unfold page_text. cbn [page_label page_entries page_back].
    cbn [nonempty negb andb fmap list_fmap concat].
    rewrite andb_false_r, app_nil_r. reflexivity. }
  assert (Hpaged : ∀ g,
            Indexer.write_labels_to_file_in_batches file root labels g 20
            = file
              ++ page_text (mkPage (root ++ u "_0") (take 20 labels) (Some root))
              ++ page_text (mkPage (root ++ u "_1") (take 20 (drop 20 labels)) (Some root))
              ++ page_text (mkPage (root ++ u "_2") (drop 40 labels) (Some root))
              ++ page_text (mkPage root [root ++ u "_0"; root ++ u "_1"; root ++ u "_2"] g)).
  { intros g. rewrite builder_paged by (unfold len; lia). rewrite Hchunks.
    unfold sub_pages, top_page. cbn [imap fmap list_fmap concat].
    rewrite app_nil_r, <- !app_assoc. reflexivity. }
  split_and!.
  - rewrite generator_builder_is_indexer_builder, Hpaged, !Hsub, Htop.
    reflexivity.
  - rewrite Hpaged, !Hsub, Htop. reflexivity.
  - rewrite length_take. lia.
  - rewrite length_take, length_drop. lia.
  - rewrite length_drop. lia.
  - replace (drop 40 labels) with (drop 20 (drop 20 labels))
      by (by rewrite drop_drop).
    by rewrite !take_drop.
Qed.

Lemma menu_45_labels_page_20_witness :
  let labels := (fun i : nat => u "ch" ++ str_of_int (Z.of_nat i)) <$> seq 0 45 in
  let sub (name : str) (entries : list str) : str :=
    header_text name ++ (u "    menu:" ++ NL)
    ++ back_text (u "main") ++ concat (entry_text <$> entries) in
  length labels = 45%nat
  ∧ u "main" ≠ []
  ∧ Generator.write_labels_to_script_file [] labels (u "main") 20
    = sub (u "main_0") (take 20 labels)
      ++ sub (u "main_1") (take 20 (drop 20 labels))
      ++ sub (u "main_2") (drop 40 labels)
      ++ header_text (u "main") ++ (u "    menu:" ++ NL)
      ++ entry_text (u "main_0") ++ entry_text (u "main_1")
      ++ entry_text (u "main_2")
  ∧ length (drop 40 labels) = 5%nat.
Proof.
  cbv zeta.
  assert (Hlen : length ((fun i : nat => u "ch" ++ str_of_int (Z.of_nat i))
                           <$> seq 0 45) = 45%nat)
    by (vm_compute; reflexivity).
  assert (Hroot : u "main" ≠ []) by discriminate.
  split; [exact Hlen|]. split; [exact Hroot|].
  destruct (menu_45_labels_page_20 []
              ((fun i : nat => u "ch" ++ str_of_int (Z.of_nat i)) <$> seq 0 45)
              (u "main") None Hlen Hroot)
    as (Hgen & _ & _ & _ & H2 & _).
  split; [exact Hgen | exact H2].
Defined.

End MenuClaims.

(* ================================================================== *)
(** * Label normalisation: the contract *)
(* ================================================================== *)

Section NormalizeClaims.

Implicit Types (s : str) (label d : option str) (now : Z).

(** C3, as the claim states it, fails: with no usable text the normalizer
    hands the default back as it is, so a default with a space, a colon
    and a leading digit comes out with all three. *)
Lemma normalize_label_default_verbatim :
  Generator.normalize_label 0 (Some (u "  ")) (Some (u "1 a:b")) = u "1 a:b"
  ∧ SPACE ∈ Generator.normalize_label 0 (Some (u "  ")) (Some (u "1 a:b"))
  ∧ COLON_CHAR ∈ Generator.normalize_label 0 (Some (u "  ")) (Some (u "1 a:b"))
  ∧ starts_with_digit
      (Generator.normalize_label 0 (Some (u "  ")) (Some (u "1 a:b"))) = true.
Proof.
  assert (H : Generator.normalize_label 0 (Some (u "  ")) (Some (u "1 a:b"))
              = u "1 a:b") by reflexivity.
  rewrite H. split_and!; [reflexivity| | |reflexivity].
  - apply list_elem_of_In. vm_compute. tauto.
  - apply list_elem_of_In. vm_compute. tauto.
Qed.

(** C3, amended. The normalizer trims the text; when nothing is left it
    returns the default if one is given (not empty), else the label made
    of the clock reading; otherwise it turns spaces and colons into
    underscores and puts [label_] in front when the result starts with a
    digit. The result is never empty. It has no space, no colon and no
    leading digit whenever it is not the default handed back as it is,
    and also then when the default itself has none. *)
Theorem normalize_label_contract now label d :
  let t := strip (text label) in
  let r := Generator.normalize_label now label d in
  r ≠ []
  ∧ (t = [] → truthy d = true → r = text d)
  ∧ (t = [] → truthy d = false → r = u "label_" ++ str_of_int now)
  ∧ (t ≠ [] →
     r = if starts_with_digit (underscored t)
         then u "label_" ++ underscored t else underscored t)
  ∧ (t ≠ [] ∨ truthy d = false ∨ safe_label (text d) → safe_label r).
Proof.
  cbv zeta. split; [apply normalize_label_nonempty|].
  rewrite normalize_label_cases.
  destruct (strip (text label)) as [|x t] eqn:Ht.
  - split_and!; try done.
    + by intros _ ->.
    + by intros _ ->.
    + intros [H|[H|H]]; [done| |].
      * rewrite H. apply timestamp_label_normalized.
      * destruct (truthy d); [done | apply timestamp_label_normalized].
  - split_and!; try done. intros _. cbv zeta.
    apply underscored_label_normalized; [done|].
    rewrite <- Ht. apply strip_trimmed.
Qed.

Lemma normalize_label_contract_witness :
  Generator.normalize_label 7 (Some (u " 1st act: intro ")) None
  = u "label_1st_act__intro"
  ∧ safe_label (Generator.normalize_label 7 (Some (u " 1st act: intro ")) None).
Proof.
  destruct (normalize_label_contract 7 (Some (u " 1st act: intro ")) None)
    as (_ & _ & _ & Hr & Hsafe).
  split.
  - rewrite Hr; [reflexivity | discriminate].
  - apply Hsafe. left. discriminate.
Defined.




End NormalizeClaims.

(* ================================================================== *)
(** * The parser and the line writer: the properties *)
(* ================================================================== *)

Section ScriptClaims.

Import Generator.

(** C5. The parser on the examples: a speaker and a phrase around a
    colon; a colon at the end of the line gives the ellipsis as phrase; a
    colon at the start gives narration with no speaker; the empty line and
    every line of whitespace alone give no record. *)
Theorem parse_text_line_examples :
  parse_text_line (u "Alice: Hello")
  = Some (mkScriptLine (Some (u "Alice")) (u "Hello"))
  ∧ parse_text_line (u "Alice:") = Some (mkScriptLine (Some (u "Alice")) (u "..."))
  ∧ parse_text_line (u ":Hello") = Some (mkScriptLine None (u "Hello"))
  ∧ parse_text_line [] = None
  ∧ ∀ line, forallb isspace line = true → parse_text_line line = None.
Proof.
  split_and!; try reflexivity.
  intros line Hws. unfold parse_text_line.
  destruct (nonempty line); [|done]. cbn [negb].
  by rewrite strip_whitespace.
Qed.

Lemma parse_text_line_examples_witness :
  forallb isspace (u "   " ++ [9%N] ++ NL) = true
  ∧ parse_text_line (u "   " ++ [9%N] ++ NL) = None.
Proof.
  split; [reflexivity|].
  destruct parse_text_line_examples as (_ & _ & _ & _ & H).
  apply H. reflexivity.
Defined.

(** C9, as the claim states it, fails: a narration line that starts with a
    colon keeps the whitespace that follows the colon, so its phrase is
    neither trimmed text nor the ellipsis. *)
Lemma parse_text_line_untrimmed_phrase :
  parse_text_line (u ": Hello") = Some (mkScriptLine None (u " Hello"))
  ∧ u " Hello" ≠ ELLIPSIS
  ∧ strip (u " Hello") ≠ u " Hello".
Proof. split_and!; [reflexivity | discriminate | discriminate]. Qed.

(** C9, amended. Whenever the parser returns a record, its phrase is not
    empty and has no trailing whitespace: it is the ellipsis, or trimmed
    text, or, for a narration line that starts with a colon, what is left
    of the trimmed line after its leading colons. Its speaker name is
    absent, or not empty and trimmed. So no record has both fields
    empty. *)
Theorem parse_text_line_record (line : str) (r : ScriptLine) :
  parse_text_line line = Some r →
  phrase r ≠ []
  ∧ rstrip (phrase r) = phrase r
  ∧ (phrase r = ELLIPSIS
     ∨ strip (phrase r) = phrase r
     ∨ (character_name r = None
        ∧ head (strip line) = Some COLON_CHAR
        ∧ phrase r = lstrip_chars COLON (strip line)))
  ∧ (character_name r = None
     ∨ ∃ n, character_name r = Some n ∧ n ≠ [] ∧ strip n = n).
Proof. apply parse_text_line_shape. Qed.

Lemma parse_text_line_record_witness :
  parse_text_line (u " Bob :  Hi there ")
  = Some (mkScriptLine (Some (u "Bob")) (u "Hi there"))
  ∧ u "Hi there" ≠ [].
Proof.
  split; [reflexivity|].
  exact (proj1 (parse_text_line_record (u " Bob :  Hi there ")
                  (mkScriptLine (Some (u "Bob")) (u "Hi there")) eq_refl)).
Defined.

(** C8. The character map over one run of the line writer, from any
    starting map (empty, or seeded from the configuration). The map only
    grows: what it holds after any part of the lines it still holds at the
    end, so a stored identifier is never changed. The speakers that were
    not in the starting map get their identifiers in the order of their
    first lines: the k-th of them gets [ch_] followed by the size of the
    starting map plus k. The keys at the end are the starting ones and
    these speakers. And every line is written with the identifier that the
    final map holds for its speaker, the first line of a speaker as well
    as the later ones: the text written is, line by line, four spaces, the
    identifier, a space and the quoted phrase ([line_text] writes it out;
    an identifier that is the empty text, which only a seeded map can
    hold, is left out as the writer's test [if character_id] has it). *)
Theorem character_ids_first_seen_stable (file : str)
    (lines : list (option ScriptLine)) (m0 : gmap str str) :
  let st := write_lines_to_script_file file lines m0 in
  (∀ pre post, lines = pre ++ post →
     character_map (write_lines_to_script_file file pre m0) ⊆ character_map st)
  ∧ (∀ (k : nat) (n : str), new_speakers (dom m0) lines !! k = Some n →
       m0 !! n = None ∧ character_map st !! n = Some (ch (size m0 + k)))
  ∧ dom (character_map st) = dom m0 ∪ list_to_set (new_speakers (dom m0) lines)
  ∧ script_file st = file ++ concat (line_text (character_map st) <$> lines)
  ∧ (∀ (l : ScriptLine) (n : str),
       Some l ∈ lines → speaker (Some l) = Some n →
       ∃ v, character_map st !! n = Some v
            ∧ (v ≠ [] →
               line_text (character_map st) (Some l)
               = u "    " ++ v ++ u " " ++ DQUOTE ++ phrase l ++ DQUOTE ++ NL))
  ∧ lines_count st = len (omap id lines).
Proof.
  cbv zeta. unfold write_lines_to_script_file.
  destruct (write_lines_foldl lines (mkWriterState file m0 0))
    as (Hsub & Hnew & Hdom & Hfile & Hcnt).
  cbn [character_map script_file lines_count] in *.
  split_and!; try done.
  - intros pre post ->. rewrite foldl_app.
    apply (write_lines_foldl post (foldl write_line (mkWriterState file m0 0) pre)).
  - intros l n Hl Hsp.
    assert (Hin : n ∈ dom (character_map
                             (foldl write_line (mkWriterState file m0 0) lines))).
    { rewrite Hdom. destruct (decide (n ∈ dom m0)) as [Hn|Hn];
        [by apply elem_of_union_l|].
      apply elem_of_union_r, elem_of_list_to_set, new_speakers_elem_of.
      split; [done|]. by exists (Some l). }
    apply elem_of_dom in Hin as [v Hv]. exists v. split; [done|].
    intros Hne. unfold line_text, line_id. rewrite Hsp.
    destruct (character_map _ !! _) as [[|c id]|]; inversion Hv; by subst.
Qed.

Lemma character_ids_first_seen_stable_witness :
  let lines :=
    [Some (mkScriptLine (Some (u "Alice")) (u "Hello"));
     Some (mkScriptLine None (u "She waves."));
     Some (mkScriptLine (Some (u "Bob")) (u "Hi"));
     Some (mkScriptLine (Some (u "Alice")) (u "Bye"))] in
  new_speakers (dom (∅ : gmap str str)) lines !! 1%nat = Some (u "Bob")
  ∧ character_map (write_lines_to_script_file [] lines ∅) !! u "Bob"
    = Some (u "ch_1")
  ∧ script_file (write_lines_to_script_file [] lines ∅)
    = (u "    ch_0 " ++ DQUOTE ++ u "Hello" ++ DQUOTE ++ NL)
      ++ (u "    " ++ DQUOTE ++ u "She waves." ++ DQUOTE ++ NL)
      ++ (u "    ch_1 " ++ DQUOTE ++ u "Hi" ++ DQUOTE ++ NL)
      ++ (u "    ch_0 " ++ DQUOTE ++ u "Bye" ++ DQUOTE ++ NL).
Proof.
  cbv zeta.
  assert (Hk : new_speakers (dom (∅ : gmap str str))
                 [Some (mkScriptLine (Some (u "Alice")) (u "Hello"));
                  Some (mkScriptLine None (u "She waves."));
                  Some (mkScriptLine (Some (u "Bob")) (u "Hi"));
                  Some (mkScriptLine (Some (u "Alice")) (u "Bye"))] !! 1%nat
               = Some (u "Bob"))
    by (vm_compute; reflexivity).
  split; [exact Hk|].
  destruct (character_ids_first_seen_stable []
              [Some (mkScriptLine (Some (u "Alice")) (u "Hello"));
               Some (mkScriptLine None (u "She waves."));
               Some (mkScriptLine (Some (u "Bob")) (u "Hi"));
               Some (mkScriptLine (Some (u "Alice")) (u "Bye"))] ∅)
    as (_ & Hnew & _ & Hfile & _).
  split; [exact (proj2 (Hnew 1%nat (u "Bob") Hk))|].
  etrans; [exact Hfile | vm_compute; reflexivity].
Defined.

End ScriptClaims.

(* ================================================================== *)
(** * The programs on small inputs *)
(* ================================================================== *)

Section Examples.

Import Generator.

Example str_of_int_ex :
  str_of_int 0 = u "0" ∧ str_of_int 45 = u "45" ∧ str_of_int (-7) = u "-7".
Proof. split_and!; reflexivity. Qed.

Example range_ex : range 0 45 20 = [0; 20; 40]%Z.
Proof. reflexivity. Qed.

Example batch_labels_ex :
  batch_labels [u "a"; u "b"; u "c"; u "d"; u "e"] 2
  = [[u "a"; u "b"]; [u "c"; u "d"]; [u "e"]].
Proof. reflexivity. Qed.

Example normalize_label_ex :
  normalize_label 1700000000000 (Some (u " 1st act: intro ")) None
  = u "label_1st_act__intro"
  ∧ normalize_label 1700000000000 (Some (u "chapter one")) (Some (u "main"))
    = u "chapter_one"
  ∧ normalize_label 1700000000000 None (Some (u "main")) = u "main"
  ∧ normalize_label 1700000000000 (Some (u "  ")) None = u "label_1700000000000".
Proof. split_and!; reflexivity. Qed.

Example parse_text_line_ex :
  parse_text_line (u "  Bob  :  Hi there  ")
  = Some (mkScriptLine (Some (u "Bob")) (u "Hi there"))
  ∧ parse_text_line (u "The door opens.")
    = Some (mkScriptLine None (u "The door opens."))
  ∧ parse_text_line (u ":::") = None
  ∧ parse_text_line (u "a:b:c") = Some (mkScriptLine (Some (u "a")) (u "b:c")).
Proof. split_and!; reflexivity. Qed.

Example write_lines_ex :
  script_file
    (write_lines_to_script_file []
       [Some (mkScriptLine (Some (u "Alice")) (u "Hello"));
        Some (mkScriptLine None (u "She waves."));
        Some (mkScriptLine (Some (u "Alice")) (u "Bye"))] ∅)
  = (u "    ch_0 " ++ DQUOTE ++ u "Hello" ++ DQUOTE ++ NL)
    ++ (u "    " ++ DQUOTE ++ u "She waves." ++ DQUOTE ++ NL)
    ++ (u "    ch_0 " ++ DQUOTE ++ u "Bye" ++ DQUOTE ++ NL).
Proof. vm_compute. reflexivity. Qed.

Example write_jump_menu_ex :
  write_jump_menu_to_script_file [] (u "main") [u "intro"] None
  = (u "label main:" ++ NL ++ NL)
    ++ (u "    menu:" ++ NL)
    ++ (u "        " ++ DQUOTE ++ u "intro" ++ DQUOTE ++ u ":" ++ NL)
    ++ (u "            jump intro" ++ NL ++ NL).
Proof. reflexivity. Qed.

End Examples.

(* ================================================================== *)
(** * Reading a file line by line *)
(* ================================================================== *)

Section Reading.

Implicit Types (content line rest body : str).

Lemma readline_split content :
  content ≠ [] →
  (readline content).1 ≠ []
  ∧ content = (readline content).1 ++ (readline content).2
  ∧ split_lines content = (readline content).1 :: split_lines (readline content).2.
Proof.
  induction content as [|c rest IH]; [done|]. intros _.
  cbn [readline split_lines]. destruct (c =? 10)%N; [done|].
  destruct rest as [|c' rest'].
  - done.
  - destruct (IH ltac:(done)) as (Hne & Happ & Hsplit).
    destruct (readline (c' :: rest')) as [l r]. cbn [fst snd] in *.
    split_and!; [done | by rewrite Happ at 1 | by rewrite Hsplit].
Qed.

Lemma readline_nil : readline [] = ([], []).
Proof. reflexivity. Qed.

(** The fuel of [read_lines_from_file] is enough: the loop parses every
    line of the file. *)
Lemma read_lines_loop_lines (fuel : nat) content :
  (length content < fuel)%nat →
  Generator.read_lines_loop fuel content
  = omap Generator.parse_text_line (split_lines content).
Proof.
  revert content. induction fuel as [|fuel IH]; intros content Hfuel; [lia|].
  cbn [Generator.read_lines_loop].
  destruct content as [|c rest]; [done|].
  destruct (readline_split (c :: rest) ltac:(done)) as (Hne & Happ & Hsplit).
  destruct (readline (c :: rest)) as [l r]. cbn [fst snd] in *.
  destruct l as [|x l]; [done|]. cbn [nonempty negb].
  rewrite Hsplit. cbn [omap list_omap].
  assert (length r < fuel)%nat.
  { apply (f_equal length) in Happ. rewrite length_app in Happ.
    simpl in Happ, Hfuel. lia. }
  rewrite IH by done. reflexivity.
Qed.

Lemma read_lines_from_file_lines content :
  Generator.read_lines_from_file content
  = omap Generator.parse_text_line (split_lines content).
Proof. apply read_lines_loop_lines. lia. Qed.

Lemma read_labels_loop_lines (fuel : nat) content (labels : list str) :
  (length content < fuel)%nat →
  Indexer.read_labels_loop fuel content labels
  = labels ++ declared_labels content.
Proof.
  unfold declared_labels.
  revert content labels.
  induction fuel as [|fuel IH]; intros content labels Hfuel; [lia|].
  cbn [Indexer.read_labels_loop].
  destruct content as [|c rest]; [by rewrite app_nil_r|].
  destruct (readline_split (c :: rest) ltac:(done)) as (Hne & Happ & Hsplit).
  destruct (readline (c :: rest)) as [l r]. cbn [fst snd] in *.
  destruct l as [|x l]; [done|]. cbn [nonempty negb].
  rewrite Hsplit. cbn [omap list_omap].
  assert (length r < fuel)%nat.
  { apply (f_equal length) in Happ. rewrite length_app in Happ.
    simpl in Happ, Hfuel. lia. }
  rewrite IH by done. unfold declared_label.
  destruct (Indexer.extract_label (x :: l)) as [[|y lab]|];
    cbn [truthy text from_option id]; [done| |done].
  by rewrite <- app_assoc.
Qed.

Lemma read_labels_from_file_lines content :
  Indexer.read_labels_from_file content = declared_labels content.
Proof.
  unfold Indexer.read_labels_from_file.
  by rewrite read_labels_loop_lines by lia.
Qed.

(** A text that starts with a whole line splits after it. *)
Lemma split_lines_one_line line rest :
  one_line line → split_lines (line ++ rest) = line :: split_lines rest.
Proof.
  intros (body & -> & Hlf). rewrite <- app_assoc.
  induction body as [|c body IH]; [done|].
  apply not_elem_of_cons in Hlf as [Hc Hbody].
  cbn [app split_lines]. fold (@app char).
  replace (c =? 10)%N with false by (symmetry; apply N.eqb_neq; done).
  change ((c :: body) ++ NL ++ rest) with (c :: (body ++ NL ++ rest)).
  cbn [split_lines].
  replace (c =? 10)%N with false by (symmetry; apply N.eqb_neq; done).
  by rewrite IH.
Qed.

Lemma split_lines_concat (lines : list str) rest :
  Forall one_line lines →
  split_lines (concat lines ++ rest) = lines ++ split_lines rest.
Proof.
  induction 1 as [|line lines Hline _ IH]; [done|].
  cbn [concat]. rewrite <- app_assoc, split_lines_one_line by done.
  by rewrite IH.
Qed.

Lemma declared_labels_one_line line rest :
  one_line line →
  declared_labels (line ++ rest)
  = from_option (fun l => [l]) [] (declared_label line) ++ declared_labels rest.
Proof.
  intros Hline. unfold declared_labels.
  rewrite split_lines_one_line by done. cbn [omap list_omap].
  by destruct (declared_label line).
Qed.

(** Every line of a text has its line feeds at its end only. *)
Lemma split_lines_shape content line :
  line ∈ split_lines content →
  ∃ body, (LF ∉ body) ∧ (line = body ∨ line = body ++ NL).
Proof.
  revert line. induction content as [|c rest IH]; intros line Hin.
  - by apply elem_of_nil in Hin.
  - cbn [split_lines] in Hin. destruct (c =? 10)%N eqn:Hc.
    + apply elem_of_cons in Hin as [->|Hin]; [|by apply IH].
      exists []. split; [apply not_elem_of_nil|]. right.
      apply N.eqb_eq in Hc. by subst.
    + apply N.eqb_neq in Hc.
      destruct (split_lines rest) as [|l ls] eqn:Hs.
      * apply list_elem_of_singleton in Hin as ->. exists [c]. split; [|by left].
        apply not_elem_of_cons. split; [by intros <- | apply not_elem_of_nil].
      * apply elem_of_cons in Hin as [->|Hin].
        -- destruct (IH l ltac:(by left)) as (body & Hb & Hl).
           exists (c :: body).
           split; [apply not_elem_of_cons; split; [by intros <- | done]|].
           destruct Hl as [->| ->]; [by left | by right].
        -- apply IH. by right.
Qed.

End Reading.

(* ================================================================== *)
(** * File names *)
(* ================================================================== *)

Section FileNames.

Import Generator.
Local Open Scope Z_scope.
Implicit Types (s stem ext name : str) (d : char).

Lemma strip_with_ends (p : char → bool) s (c : char) :
  head (rstrip_with p (lstrip_with p s)) = Some c
  ∨ last (rstrip_with p (lstrip_with p s)) = Some c →
  p c = false.
Proof.
  intros [Hc|Hc]; [|by eapply rstrip_with_last].
  destruct (lstrip_with p s) as [|x t] eqn:Hl; [done|].
  assert (Hx : p x = false) by (apply (lstrip_with_head p s); by rewrite Hl).
  destruct (rstrip_with_keeps_head p x t Hx) as [r Hr].
  rewrite Hr in Hc. by inversion Hc; subst.
Qed.

Lemma strip_with_id (p : char → bool) s :
  (∀ c, head s = Some c → p c = false) →
  (∀ c, last s = Some c → p c = false) →
  rstrip_with p (lstrip_with p s) = s.
Proof.
  intros Hh Hl. rewrite lstrip_with_id by done. by apply rstrip_with_id.
Qed.

Lemma strip_chars_ends (chars : str) s (c : char) :
  head (strip_chars chars s) = Some c ∨ last (strip_chars chars s) = Some c →
  c ∉ chars.
Proof.
  intros H. apply (strip_with_ends _ s) in H. by apply bool_decide_eq_false in H.
Qed.

Lemma strip_chars_id (chars : str) s :
  (∀ c, head s = Some c → c ∉ chars) →
  (∀ c, last s = Some c → c ∉ chars) →
  strip_chars chars s = s.
Proof.
  intros Hh Hl. apply strip_with_id; intros c Hc; apply bool_decide_eq_false; auto.
Qed.

Lemma in_dot d : d ∉ u "." ↔ d ≠ DOT.
Proof. change (u ".") with [DOT]. by rewrite list_elem_of_singleton. Qed.

Lemma prefix_singleton d s :
  [d] `prefix_of` s ↔ head s = Some d.
Proof.
  split.
  - intros [k ->]. done.
  - destruct s as [|x s']; [done|]. intros [= ->]. by exists s'.
Qed.

Lemma rfind_char_bounds d s : -1 ≤ rfind [d] s < len s ∨ (s = [] ∧ rfind [d] s = -1).
Proof.
  induction s as [|x s IH].
  - right. split; [done|]. cbn [rfind]. by rewrite bool_decide_eq_false_2 by
      (by intros ?%prefix_nil_inv).
  - left. cbn [rfind]. unfold len in *. cbn [length].
    destruct (0 <=? rfind [d] s) eqn:Hr.
    + apply Z.leb_le in Hr. destruct IH as [IH|[-> IH]]; [lia|].
      rewrite IH in Hr. lia.
    + case_bool_decide; lia.
Qed.

Lemma rfind_char_not_in d s : d ∉ s → rfind [d] s = -1.
Proof.
  induction s as [|x s IH]; intros Hd.
  - cbn [rfind]. by rewrite bool_decide_eq_false_2 by (by intros ?%prefix_nil_inv).
  - apply not_elem_of_cons in Hd as [Hx Hs]. cbn [rfind].
    rewrite IH by done. cbn.
    rewrite bool_decide_eq_false_2; [done|].
    rewrite prefix_singleton. by intros [= ->].
Qed.

Lemma rfind_char_last d stem ext :
  d ∉ ext → rfind [d] (stem ++ d :: ext) = len stem.
Proof.
  intros Hd. induction stem as [|x stem IH].
  - cbn [app rfind]. rewrite rfind_char_not_in by done. cbn.
    rewrite bool_decide_eq_true_2; [done|]. by apply prefix_singleton.
  - cbn [app rfind]. rewrite IH.
    replace (0 <=? len stem) with true
      by (symmetry; apply Z.leb_le; unfold len; lia).
    unfold len. cbn [length]. lia.
Qed.

(** A dot found at index 0 is the first character. *)
Lemma rfind_char_zero d s : rfind [d] s = 0 → head s = Some d.
Proof.
  destruct s as [|x s]; cbn [rfind].
  - case_bool_decide; [|done]. intros _. by apply prefix_singleton.
  - destruct (0 <=? rfind [d] s) eqn:Hr.
    + apply Z.leb_le in Hr. lia.
    + case_bool_decide; [|done]. intros _. by apply prefix_singleton.
Qed.

Lemma slice_to_ext stem : slice_to (stem ++ EXT_RPY) (- EXT_RPY_LENGTH) = stem.
Proof.
  unfold slice_to.
  assert (Hneg : (- EXT_RPY_LENGTH <? 0) = true) by reflexivity.
  assert (Hlen : Z.to_nat (len (stem ++ EXT_RPY) + - EXT_RPY_LENGTH) = length stem).
  { unfold len. rewrite length_app.
    change EXT_RPY_LENGTH with 4. change (length EXT_RPY) with 4%nat. lia. }
  rewrite Hneg, Hlen. apply take_app_length.
Qed.

(** The three ways out of [generate_script_file_name]. *)
Lemma generate_script_file_name_cases name :
  let t := strip_chars (u ".") name in
  generate_script_file_name name
  = (if nonempty t
     then (if rfind (u ".") t <? 0 then t
           else take (Z.to_nat (rfind (u ".") t)) t)
     else u "script") ++ EXT_RPY.
Proof.
  cbv zeta. unfold generate_script_file_name.
  destruct name as [|c name]; [done|]. cbn [nonempty negb].
  destruct (strip_chars (u ".") (c :: name)) as [|x t]; [done|].
  cbn [nonempty negb]. destruct (rfind _ _ <? 0); [done|].
  unfold slice. by rewrite Z.sub_0_r, drop_0.
Qed.

End FileNames.

Section FileNameProperties.

Import Generator.
Local Open Scope Z_scope.
Implicit Types (s stem ext name : str).

(** X1. Whatever the source file name, the script file name is a stem
    that is not empty and does not start with a dot, followed by [.rpy];
    cutting the extension off again, as the writer does to get the chapter
    label, gives that stem back. *)
Theorem generate_script_file_name_stem name :
  ∃ stem,
    generate_script_file_name name = stem ++ EXT_RPY
    ∧ stem ≠ []
    ∧ head stem ≠ Some DOT
    ∧ slice_to (generate_script_file_name name) (- EXT_RPY_LENGTH) = stem.
Proof.
  rewrite generate_script_file_name_cases. cbv zeta.
  assert (Hends : ∀ c, head (strip_chars (u ".") name) = Some c → c ≠ DOT).
  { intros c Hc. apply in_dot.
    apply (strip_chars_ends (u ".") name). by left. }
  destruct (strip_chars (u ".") name) as [|x t] eqn:Ht; cbn [nonempty].
  - exists (u "script"). split_and!; [done|done|done|apply slice_to_ext].
  - specialize (Hends x eq_refl).
    destruct (rfind (u ".") (x :: t) <? 0) eqn:Hr.
    + exists (x :: t). split_and!; [done|done| |apply slice_to_ext].
      cbn. by intros [= ->].
    + apply Z.ltb_ge in Hr.
      destruct (Z.to_nat (rfind (u ".") (x :: t))) as [|k] eqn:Hk.
      * assert (H0 : rfind [DOT] (x :: t) = 0) by (change [DOT] with (u "."); lia).
        apply rfind_char_zero in H0. by inversion H0.
      * cbn [take]. exists (x :: take k t).
        split_and!; [done|done| |apply slice_to_ext].
        cbn. by intros [= ->].
Qed.

(** X2. A source name [stem.ext], where the stem is not empty and does
    not start with a dot and the extension is not empty and has no dot,
    becomes [stem.rpy]: only the last extension is replaced. *)
Theorem generate_script_file_name_ext stem ext :
  stem ≠ [] → head stem ≠ Some DOT → ext ≠ [] → DOT ∉ ext →
  generate_script_file_name (stem ++ u "." ++ ext) = stem ++ EXT_RPY.
Proof.
  intros Hstem Hhead Hext Hdot.
  rewrite generate_script_file_name_cases. cbv zeta.
  assert (Hid : strip_chars (u ".") (stem ++ u "." ++ ext) = stem ++ u "." ++ ext).
  { apply strip_chars_id; intros c Hc; apply in_dot.
    - destruct stem as [|x stem']; [done|]. cbn in Hc, Hhead.
      inversion Hc; subst. by intros ->.
    - rewrite app_assoc, last_app in Hc.
      destruct (last ext) as [y|] eqn:Hy; [|by apply last_None in Hy].
      inversion Hc; subst. intros ->. by apply last_Some_elem_of in Hy. }
  rewrite Hid. destruct stem as [|x stem']; [done|]. cbn [app nonempty].
  change (x :: stem' ++ u "." ++ ext) with ((x :: stem') ++ DOT :: ext).
  change (u ".") with [DOT]. rewrite rfind_char_last by done.
  replace (len (x :: stem') <? 0) with false
    by (symmetry; apply Z.ltb_ge; unfold len; lia).
  unfold len. rewrite Nat2Z.id. by rewrite take_app_length.
Qed.

Lemma generate_script_file_name_ext_witness :
  generate_script_file_name (u "act 1.final" ++ u "." ++ u "txt")
  = u "act 1.final" ++ EXT_RPY.
Proof.
  apply generate_script_file_name_ext; [discriminate | discriminate | discriminate|].
  intros Hin. apply list_elem_of_In in Hin. vm_compute in Hin.
  repeat (destruct Hin as [Hin|Hin]; [discriminate|]). done.
Defined.

(** X3. A source name without any dot keeps its whole text and gets
    [.rpy] appended; a name made of dots only (or empty) falls back to
    [script.rpy]. *)
Theorem generate_script_file_name_no_ext name :
  (name ≠ [] → DOT ∉ name → generate_script_file_name name = name ++ EXT_RPY)
  ∧ (Forall (fun c => c = DOT) name →
     generate_script_file_name name = u "script.rpy").
Proof.
  split.
  - intros Hne Hdot. rewrite generate_script_file_name_cases. cbv zeta.
    assert (Hid : strip_chars (u ".") name = name).
    { apply strip_chars_id; intros c Hc; apply in_dot; intros ->.
      - apply Hdot. by apply head_Some_elem_of.
      - apply Hdot. by apply last_Some_elem_of. }
    rewrite Hid. destruct name as [|x t]; [done|]. cbn [nonempty].
    change (u ".") with [DOT]. by rewrite rfind_char_not_in.
  - intros Hall. rewrite generate_script_file_name_cases. cbv zeta.
    unfold strip_chars. rewrite lstrip_with_all; [done|].
    apply forallb_forall. intros c Hc%list_elem_of_In.
    rewrite Forall_forall in Hall. rewrite (Hall c Hc). reflexivity.
Qed.

Lemma generate_script_file_name_no_ext_witness :
  generate_script_file_name (u "README") = u "README" ++ EXT_RPY
  ∧ generate_script_file_name (u "...") = u "script.rpy".
Proof.
  split.
  - apply (proj1 (generate_script_file_name_no_ext (u "README"))); [discriminate|].
    intros Hin. apply list_elem_of_In in Hin. vm_compute in Hin.
    repeat (destruct Hin as [Hin|Hin]; [discriminate|]). done.
  - apply (proj2 (generate_script_file_name_no_ext (u "..."))).
    repeat constructor.
Defined.

(** The alternate file name is never the name that was asked for: the
    label is at least as long as the stem it is made of. *)
Lemma alternate_file_name_differs (now_label now_name : Z) (file_name : str) :
  normalize_label now_label (Some (slice_to file_name (- EXT_RPY_LENGTH))) None
    ++ u "_" ++ str_of_int now_name ++ EXT_RPY
  ≠ file_name.
Proof.
  intros Heq.
  remember (normalize_label now_label
              (Some (slice_to file_name (- EXT_RPY_LENGTH))) None) as X eqn:HX.
  remember (X ++ u "_" ++ str_of_int now_name) as stem eqn:Hstem.
  assert (Hcut : slice_to file_name (- EXT_RPY_LENGTH) = stem).
  { rewrite <- Heq, Hstem.
    replace (X ++ u "_" ++ str_of_int now_name ++ EXT_RPY)
      with ((X ++ u "_" ++ str_of_int now_name) ++ EXT_RPY)
      by (by rewrite <- !app_assoc).
    apply slice_to_ext. }
  rewrite Hcut in HX.
  assert (Hnorm : normalized X)
    by (rewrite HX; apply normalize_label_normalized; by left).
  destruct Hnorm as [[HXne _ _ _] [HXh _]].
  assert (Htr : trimmed stem).
  { split; intros c Hc.
    - rewrite Hstem, head_app in Hc.
      destruct (head X) as [x|] eqn:Hx; [|by apply head_None in Hx].
      inversion Hc; subst. by apply HXh.
    - rewrite Hstem, app_assoc, last_app in Hc.
      destruct (last (str_of_int now_name)) as [y|] eqn:Hy.
      + inversion Hc; subst. apply last_Some_elem_of in Hy.
        by apply digit_not_space, str_of_int_chars with now_name.
      + change (u "_") with [UNDERSCORE] in Hc. rewrite last_snoc in Hc.
        by inversion Hc. }
  assert (Hlen : (length stem ≤ length X)%nat).
  { rewrite HX, normalize_label_cases.
    cbn [text from_option id]. rewrite (strip_id stem Htr).
    destruct stem as [|c stem']; [simpl; lia|]. cbv zeta.
    destruct (starts_with_digit _);
      rewrite ?length_app; unfold underscored; rewrite length_fmap; lia. }
  rewrite Hstem, !length_app in Hlen. simpl in Hlen. lia.
Qed.

(** X4. Where the output file goes. The label it is filed under is a
    normalized label, whatever the file name. If no file is at the
    requested path, that path is used. If one is there, the file goes to
    the alternate name made of the label, the clock reading and [.rpy],
    which is never the requested name; so, when different names give
    different paths in that directory, the existing file is not the one
    written. The indexer's copy of the function does the same. *)
Theorem prepare_output_file_path_fresh
    (join : str → str → str) (path_exists : str → bool) (now_label now_name : Z)
    (dir file_name : str) :
  let r := prepare_output_file_path_and_chapter_label join path_exists
             now_label now_name dir file_name in
  let alt := r.2 ++ u "_" ++ str_of_int now_name ++ EXT_RPY in
  normalized r.2
  ∧ alt ≠ file_name
  ∧ (path_exists (join dir file_name) = false → r.1 = join dir file_name)
  ∧ (path_exists (join dir file_name) = true → r.1 = join dir alt)
  ∧ (path_exists (join dir file_name) = true →
     (∀ a b, join dir a = join dir b → a = b) →
     r.1 ≠ join dir file_name)
  ∧ Indexer.prepare_output_file_path_and_root_label join path_exists
      now_label now_name dir file_name = r.
Proof.
  cbv zeta.
  assert (Hidx : Indexer.prepare_output_file_path_and_root_label join path_exists
                   now_label now_name dir file_name
                 = prepare_output_file_path_and_chapter_label join path_exists
                     now_label now_name dir file_name) by reflexivity.
  rewrite Hidx. clear Hidx.
  unfold prepare_output_file_path_and_chapter_label.
  pose proof (alternate_file_name_differs now_label now_name file_name) as Halt.
  assert (Hnorm : normalized (normalize_label now_label
                    (Some (slice_to file_name (- EXT_RPY_LENGTH))) None))
    by (apply normalize_label_normalized; by left).
  destruct (path_exists (join dir file_name)) eqn:Hex; cbn [fst snd].
  - split_and!; try done.
    intros _ Hinj Heq. by apply Hinj in Heq.
  - split_and!; done.
Qed.

Lemma prepare_output_file_path_fresh_witness :
  let join := fun d f : str => d ++ u "/" ++ f in
  (prepare_output_file_path_and_chapter_label join (fun _ => true) 5 1700
     (u "out") (u "1 act.rpy")).1
  ≠ join (u "out") (u "1 act.rpy")
  ∧ (prepare_output_file_path_and_chapter_label join (fun _ => false) 5 1700
       (u "out") (u "1 act.rpy")).1
    = join (u "out") (u "1 act.rpy").
Proof.
  cbv zeta. split.
  - apply (prepare_output_file_path_fresh (fun d f : str => d ++ u "/" ++ f)
             (fun _ => true) 5 1700 (u "out") (u "1 act.rpy")); [reflexivity|].
    intros a b Hab. cbv beta in Hab. by do 2 apply app_inv_head in Hab.
  - apply (prepare_output_file_path_fresh (fun d f : str => d ++ u "/" ++ f)
             (fun _ => false) 5 1700 (u "out") (u "1 act.rpy")). reflexivity.
Defined.

End FileNameProperties.

(* ================================================================== *)
(** * More on stripping and finding *)
(* ================================================================== *)

Section StrippingMore.

Variable p : char → bool.
Implicit Types (a b s w : str).

Lemma lstrip_with_app a b :
  lstrip_with p (a ++ b)
  = match lstrip_with p a with
    | [] => lstrip_with p b
    | r => r ++ b
    end.
Proof.
  induction a as [|x a IH]; [done|]. cbn [app lstrip_with].
  destruct (p x); [exact IH | done].
Qed.

Lemma rstrip_with_app a b :
  rstrip_with p (a ++ b)
  = match rstrip_with p b with
    | [] => rstrip_with p a
    | r => a ++ r
    end.
Proof.
  induction a as [|x a IH].
  - cbn [app rstrip_with]. by destruct (rstrip_with p b).
  - cbn [app rstrip_with]. rewrite IH.
    destruct (rstrip_with p b) as [|y r]; [done|].
    by destruct a.
Qed.

Lemma rstrip_with_all w : forallb p w = true → rstrip_with p w = [].
Proof.
  induction w as [|x w IH]; [done|]. cbn [forallb rstrip_with].
  intros [Hx Hw]%andb_true_iff. by rewrite IH, Hx.
Qed.

Lemma lstrip_with_elem_of s (c : char) : c ∈ lstrip_with p s → c ∈ s.
Proof.
  destruct (lstrip_with_suffix p s) as [k Hk]. intros Hc.
  rewrite Hk. apply elem_of_app. by right.
Qed.

Lemma rstrip_with_elem_of s (c : char) : c ∈ rstrip_with p s → c ∈ s.
Proof.
  destruct (rstrip_with_prefix p s) as [k Hk]. intros Hc.
  rewrite Hk. apply elem_of_app. by left.
Qed.

End StrippingMore.

Section StripMore.

Implicit Types (s t w : str) (a c : char).

Lemma strip_elem_of s c : c ∈ strip s → c ∈ s.
Proof. intros H. by eapply lstrip_with_elem_of, rstrip_with_elem_of. Qed.

(** Whitespace around a trimmed text is what [strip] removes. *)
Lemma strip_padded w1 t w2 :
  forallb isspace w1 = true → forallb isspace w2 = true → trimmed t →
  strip (w1 ++ t ++ w2) = t.
Proof.
  intros Hw1 Hw2 [Hh Hl]. unfold strip.
  rewrite lstrip_with_app, lstrip_with_all by done.
  destruct t as [|x t'].
  - cbn [app]. by rewrite lstrip_with_all.
  - cbn [app lstrip_with]. rewrite (Hh x eq_refl).
    change (x :: t' ++ w2) with ((x :: t') ++ w2).
    rewrite rstrip_with_app, rstrip_with_all by done.
    by apply rstrip_with_id.
Qed.

Lemma rstrip_padded t w :
  forallb isspace w = true → (∀ c, last t = Some c → isspace c = false) →
  rstrip (t ++ w) = t.
Proof.
  intros Hw Hl. unfold rstrip.
  rewrite rstrip_with_app, rstrip_with_all by done. by apply rstrip_with_id.
Qed.

(** A line feed at the end of a line does not survive [strip]. *)
Lemma strip_line_feed body : strip (body ++ NL) = strip body.
Proof.
  unfold strip. rewrite lstrip_with_app.
  destruct (lstrip_with isspace body) as [|x r] eqn:Hl.
  - reflexivity.
  - by rewrite rstrip_with_app.
Qed.

Lemma isspace_not_colon c : isspace c = true → c ≠ COLON_CHAR.
Proof. by intros Hc ->. Qed.

Lemma whitespace_no_colon w : forallb isspace w = true → COLON_CHAR ∉ w.
Proof.
  intros Hw Hin. rewrite forallb_forall in Hw.
  apply list_elem_of_In, Hw in Hin. done.
Qed.

Lemma find_char_head a s : head s = Some a → find [a] s = 0%Z.
Proof.
  intros H. destruct s as [|x s]; [done|]. cbn [find].
  rewrite bool_decide_eq_true_2; [done|]. by apply prefix_singleton.
Qed.

Lemma find_char_not_in a s : a ∉ s → find [a] s = (-1)%Z.
Proof.
  induction s as [|x s IH]; intros Ha; cbn [find].
  - by rewrite bool_decide_eq_false_2 by (by intros ?%prefix_nil_inv).
  - apply not_elem_of_cons in Ha as [Hx Hs].
    rewrite bool_decide_eq_false_2
      by (rewrite prefix_singleton; by intros [= ->]).
    by rewrite IH.
Qed.

Lemma find_char_first a s1 s2 :
  a ∉ s1 → find [a] (s1 ++ a :: s2) = len s1.
Proof.
  intros Ha. induction s1 as [|x s1 IH].
  - by apply find_char_head.
  - apply not_elem_of_cons in Ha as [Hx Hs]. cbn [app find].
    rewrite bool_decide_eq_false_2
      by (rewrite prefix_singleton; by intros [= ->]).
    rewrite IH by done. unfold len. cbn [length].
    replace (Z.of_nat (length s1) <? 0)%Z with false
      by (symmetry; apply Z.ltb_ge; lia).
    lia.
Qed.

Lemma find_char_lower a s : (-1 ≤ find [a] s)%Z.
Proof.
  induction s as [|x s IH]; cbn [find]; case_bool_decide; try lia.
  destruct (find [a] s <? 0)%Z eqn:Hlt; [lia|]. apply Z.ltb_ge in Hlt. lia.
Qed.

(** Up to the index found there is no occurrence. *)
Lemma find_char_before a s :
  a ∉ take (Z.to_nat (find [a] s)) s.
Proof.
  induction s as [|x s IH]; cbn [find].
  - rewrite take_nil. apply not_elem_of_nil.
  - case_bool_decide as Hp; [apply not_elem_of_nil|].
    destruct (find [a] s <? 0)%Z eqn:H; [apply not_elem_of_nil|].
    apply Z.ltb_ge in H.
    replace (Z.to_nat (find [a] s + 1)) with (S (Z.to_nat (find [a] s))) by lia.
    cbn [take]. apply not_elem_of_cons. split; [|done].
    intros ->. apply Hp. by apply prefix_singleton.
Qed.

End StripMore.

(* ================================================================== *)
(** * More on the speaker-line parser *)
(* ================================================================== *)

Section ParserMore.

Import Generator.
Local Open Scope Z_scope.
Implicit Types (line t w name text : str).

(** The parser sees the trimmed line only. *)
Lemma parse_text_line_strip line :
  parse_text_line line = parse_text_line (strip line).
Proof.
  unfold parse_text_line at 1.
  destruct line as [|c0 line0]; [done|]. cbn [nonempty negb].
  destruct (strip (c0 :: line0)) as [|c t] eqn:Hs; [done|].
  cbn [nonempty negb]. unfold parse_text_line. cbn [nonempty negb].
  rewrite <- Hs, strip_idempotent, Hs. reflexivity.
Qed.

(** A trimmed line with no colon, or with a colon in front: narration. *)
Lemma parse_text_line_narration t :
  trimmed t → t ≠ [] → find COLON t < 1 →
  parse_text_line t
  = if nonempty (lstrip_chars COLON t)
    then Some (mkScriptLine None (lstrip_chars COLON t)) else None.
Proof.
  intros Htr Hne Hfind. unfold parse_text_line.
  destruct t as [|c t']; [done|]. cbn [nonempty negb].
  rewrite (strip_id _ Htr). cbn [nonempty negb].
  by replace (find COLON (c :: t') <? 1) with true by (symmetry; by apply Z.ltb_lt).
Qed.

(** A trimmed line with its first colon further on: a speaker. *)
Lemma parse_text_line_speaker t :
  trimmed t → 1 ≤ find COLON t →
  parse_text_line t
  = Some (mkScriptLine
            (Some (rstrip (take (Z.to_nat (find COLON t)) t)))
            (if find COLON t =? len t - 1 then ELLIPSIS
             else if nonempty (strip (drop (Z.to_nat (find COLON t + 1)) t))
                  then strip (drop (Z.to_nat (find COLON t + 1)) t)
                  else ELLIPSIS)).
Proof.
  intros Htr Hfind. unfold parse_text_line.
  destruct t as [|c t'].
  { change COLON with [COLON_CHAR] in Hfind.
    rewrite find_char_not_in in Hfind by apply not_elem_of_nil. lia. }
  cbn [nonempty negb].
  rewrite (strip_id _ Htr). cbn [nonempty negb].
  replace (find COLON (c :: t') <? 1) with false by (symmetry; by apply Z.ltb_ge).
  unfold slice, slice_from. rewrite Z.sub_0_r, drop_0.
  destruct (Z.to_nat (find COLON (c :: t'))) as [|k] eqn:Hk; [lia|].
  cbn [take].
  destruct Htr as [Hh _]. specialize (Hh c eq_refl).
  destruct (trimmed_cons_rstrip c (take k t') Hh) as [Hne _].
  destruct (rstrip (c :: take k t')) as [|n0 n]; [done|].
  cbn [nonempty negb andb].
  destruct (_ =? _); [done|]. by destruct (strip _).
Qed.

(** X5. The parser drops a line exactly when nothing is left of it
    once the whitespace around it and then the colons in front are
    removed: blank lines and lines of colons only. Every other line gives
    a record. *)
Theorem parse_text_line_dropped line :
  parse_text_line line = None ↔ lstrip_chars COLON (strip line) = [].
Proof.
  rewrite parse_text_line_strip.
  pose proof (strip_trimmed line) as Htr.
  destruct (strip line) as [|c t] eqn:Hs; [done|].
  destruct (decide (find COLON (c :: t) < 1)) as [Hlt|Hge].
  - rewrite parse_text_line_narration by done.
    by destruct (lstrip_chars COLON (c :: t)).
  - rewrite parse_text_line_speaker by (done || lia). split; [done|].
    intros Hnil. exfalso. apply Hge.
    destruct (decide (c = COLON_CHAR)) as [->|Hc].
    + rewrite (find_char_head COLON_CHAR); [lia|done].
    + unfold lstrip_chars in Hnil. cbn [lstrip_with] in Hnil.
      rewrite bool_decide_eq_false_2 in Hnil; [done|].
      change COLON with [COLON_CHAR]. by rewrite list_elem_of_singleton.
Qed.

(** X6. A speaker line is read back whatever the blanks around its
    parts: a trimmed name without colon, a colon and a trimmed phrase,
    with any whitespace before, between and after them, give the name and
    the phrase; with nothing but whitespace after the colon the phrase is
    the ellipsis. *)
Theorem parse_text_line_speaker_line w1 name w2 w3 text w4 :
  forallb isspace w1 = true → forallb isspace w2 = true →
  forallb isspace w3 = true → forallb isspace w4 = true →
  name ≠ [] → trimmed name → COLON_CHAR ∉ name → trimmed text →
  parse_text_line (w1 ++ name ++ w2 ++ COLON ++ w3 ++ text ++ w4)
  = Some (mkScriptLine (Some name) (if nonempty text then text else ELLIPSIS)).
Proof.
  intros Hw1 Hw2 Hw3 Hw4 Hname [Hnh Hnl] Hcolon [Hth Htl].
  set (tail := if nonempty text then w3 ++ text else []).
  set (pad := if nonempty text then w4 else w3 ++ w4).
  assert (Hline : w1 ++ name ++ w2 ++ COLON ++ w3 ++ text ++ w4
                  = w1 ++ (name ++ w2 ++ COLON ++ tail) ++ pad).
  { unfold tail, pad. destruct text; cbn [nonempty];
      by rewrite <- ?app_assoc, ?app_nil_r. }
  assert (Hpad : forallb isspace pad = true).
  { unfold pad. destruct text; cbn [nonempty]; [|done].
    rewrite forallb_app. by rewrite Hw3, Hw4. }
  assert (Htr : trimmed (name ++ w2 ++ COLON ++ tail)).
  { split; intros c Hc.
    - rewrite head_app in Hc.
      destruct (head name) as [x|] eqn:Hx; [|by apply head_None in Hx].
      inversion Hc; subst. by apply Hnh.
    - unfold tail in Hc. destruct text as [|x text'] eqn:Htext; cbn [nonempty] in Hc.
      + rewrite app_nil_r, !app_assoc in Hc.
        change COLON with [COLON_CHAR] in Hc. rewrite last_snoc in Hc.
        by inversion Hc.
      + rewrite !app_assoc, last_app in Hc.
        destruct (last (x :: text')) as [y|] eqn:Hy;
          [inversion Hc; subst; by apply Htl | by apply last_None in Hy]. }
  rewrite parse_text_line_strip, Hline, strip_padded by done.
  assert (Hfind : find COLON (name ++ w2 ++ COLON ++ tail) = len (name ++ w2)).
  { rewrite app_assoc. change COLON with [COLON_CHAR].
    apply find_char_first. apply not_elem_of_app. split; [done|].
    by apply whitespace_no_colon. }
  rewrite parse_text_line_speaker;
    [|done| rewrite Hfind; unfold len; rewrite length_app;
            destruct name; [done | simpl; lia]].
  rewrite Hfind. unfold len. rewrite Nat2Z.id.
  replace (Z.to_nat (Z.of_nat (length (name ++ w2)) + 1))
    with (length (name ++ w2) + 1)%nat by lia.
  rewrite <- drop_drop.
  rewrite (app_assoc name w2), take_app_length, drop_app_length.
  rewrite rstrip_padded by done.
  change (drop 1 (COLON ++ tail)) with tail.
  do 2 f_equal. unfold tail.
  destruct text as [|x text'] eqn:Htext; cbn [nonempty].
  - by destruct (_ =? _).
  - replace (_ =? _) with false.
    2:{ symmetry. apply Z.eqb_neq. rewrite !length_app. simpl. lia. }
    replace (strip (w3 ++ x :: text')) with (x :: text'); [done|].
    symmetry. rewrite <- (app_nil_r (x :: text')) at 1.
    by apply (strip_padded w3 (x :: text') []).
Qed.

Lemma parse_text_line_speaker_line_witness :
  parse_text_line (u "  " ++ u "Dr. Who" ++ u " " ++ COLON ++ u "   "
                     ++ u "Run: now!" ++ NL)
  = Some (mkScriptLine (Some (u "Dr. Who")) (u "Run: now!")).
Proof.
  apply (parse_text_line_speaker_line (u "  ") (u "Dr. Who") (u " ") (u "   ")
           (u "Run: now!") NL); try reflexivity; try discriminate.
  - split; intros c Hc; vm_compute in Hc; by inversion Hc.
  - intros Hin. apply list_elem_of_In in Hin. vm_compute in Hin.
    repeat (destruct Hin as [Hin|Hin]; [discriminate|]). done.
  - split; intros c Hc; vm_compute in Hc; by inversion Hc.
Defined.

(** X7. A line without any colon is narration: its trimmed text is the
    phrase, and there is no speaker. *)
Theorem parse_text_line_narration_line w1 text w2 :
  forallb isspace w1 = true → forallb isspace w2 = true →
  text ≠ [] → trimmed text → COLON_CHAR ∉ text →
  parse_text_line (w1 ++ text ++ w2) = Some (mkScriptLine None text).
Proof.
  intros Hw1 Hw2 Hne Htr Hcolon.
  rewrite parse_text_line_strip, strip_padded by done.
  rewrite parse_text_line_narration; [|done|done|].
  2:{ change COLON with [COLON_CHAR]. rewrite find_char_not_in by done. lia. }
  assert (Hid : lstrip_chars COLON text = text).
  { apply lstrip_with_id. intros c Hc. apply bool_decide_eq_false.
    change COLON with [COLON_CHAR]. rewrite list_elem_of_singleton. intros ->.
    apply Hcolon. by apply head_Some_elem_of. }
  rewrite Hid. by destruct text.
Qed.

Lemma parse_text_line_narration_line_witness :
  parse_text_line ([9%N] ++ u "The door opens." ++ u " " ++ NL)
  = Some (mkScriptLine None (u "The door opens.")).
Proof.
  apply (parse_text_line_narration_line [9%N] (u "The door opens.") (u " " ++ NL));
    try reflexivity; try discriminate.
  - split; intros c Hc; vm_compute in Hc; by inversion Hc.
  - intros Hin. apply list_elem_of_In in Hin. vm_compute in Hin.
    repeat (destruct Hin as [Hin|Hin]; [discriminate|]). done.
Defined.

End ParserMore.

(* ================================================================== *)
(** * What the reader of the indexer finds in written files *)
(* ================================================================== *)

Section Declared.

Implicit Types (s t line rest mid label : str).

Lemma label_no_colon : COLON_CHAR ∉ Indexer.LABEL.
Proof.
  intros Hin. apply list_elem_of_In in Hin. vm_compute in Hin.
  repeat (destruct Hin as [Hin|Hin]; [discriminate|]). done.
Qed.

(** A line [label<mid>:...] declares the trimmed [mid], where [mid] has
    no colon and at least two characters. *)
Lemma extract_label_header mid rest :
  COLON_CHAR ∉ mid →
  Indexer.extract_label (Indexer.LABEL ++ mid ++ u ":" ++ rest)
  = if (len mid <? 2)%Z then None else Some (strip mid).
Proof.
  intros Hmid. unfold Indexer.extract_label.
  change (nonempty (Indexer.LABEL ++ mid ++ u ":" ++ rest)) with true.
  cbn [negb]. unfold startswith.
  rewrite bool_decide_eq_true_2 by (by apply prefix_app_r). cbn [negb].
  assert (Hfind : find (u ":") (Indexer.LABEL ++ mid ++ u ":" ++ rest)
                  = len (Indexer.LABEL ++ mid)).
  { rewrite app_assoc. change (u ":" ++ rest) with (COLON_CHAR :: rest).
    change (u ":") with [COLON_CHAR]. apply find_char_first.
    apply not_elem_of_app. split; [apply label_no_colon | done]. }
  rewrite Hfind. unfold len. rewrite length_app.
  change (length Indexer.LABEL) with 5%nat.
  change Indexer.LABEL_START_POS with 5%Z.
  destruct (Z.of_nat (length mid) <? 2)%Z eqn:Hlen.
  - apply Z.ltb_lt in Hlen.
    by replace (Z.of_nat (5 + length mid) <? 5 + 2)%Z with true
      by (symmetry; apply Z.ltb_lt; lia).
  - apply Z.ltb_ge in Hlen.
    replace (Z.of_nat (5 + length mid) <? 5 + 2)%Z with false
      by (symmetry; apply Z.ltb_ge; lia).
    unfold slice. change (Z.to_nat 5) with 5%nat.
    replace (Z.to_nat (Z.of_nat (5 + length mid) - 5)) with (length mid) by lia.
    change (drop 5 (Indexer.LABEL ++ mid ++ u ":" ++ rest))
      with (mid ++ u ":" ++ rest).
    by rewrite take_app_length.
Qed.

(** The header line the writers put in front of a block gives its label
    back. *)
Lemma declared_label_header label :
  plain_label label →
  declared_label (Generator.LABEL ++ u " " ++ label ++ u ":" ++ NL) = Some label.
Proof.
  intros [Hne Htr Hcolon _]. unfold declared_label.
  change Generator.LABEL with Indexer.LABEL.
  replace (Indexer.LABEL ++ u " " ++ label ++ u ":" ++ NL)
    with (Indexer.LABEL ++ (u " " ++ label) ++ u ":" ++ NL)
    by (by rewrite <- !app_assoc).
  rewrite extract_label_header.
  2:{ apply not_elem_of_app. split; [|done].
      change (u " ") with [SPACE]. by rewrite list_elem_of_singleton. }
  destruct label as [|c l]; [done|].
  replace (len (u " " ++ c :: l) <? 2)%Z with false
    by (symmetry; apply Z.ltb_ge; unfold len; simpl; lia).
  rewrite <- (app_nil_r (c :: l)) at 1.
  replace (u " " ++ (c :: l) ++ []) with (u " " ++ (c :: l) ++ []) by done.
  by rewrite (strip_padded (u " ") (c :: l) []).
Qed.

(** A line that does not start with [label] declares nothing. *)
Lemma declared_label_other line :
  (∀ c, head line = Some c → c ≠ 108%N) → declared_label line = None.
Proof.
  intros Hh. unfold declared_label, Indexer.extract_label.
  destruct line as [|c l]; [done|]. cbn [nonempty negb].
  unfold startswith. rewrite bool_decide_eq_false_2; [done|].
  intros Hp. apply prefix_cons_inv_1 in Hp. by apply (Hh c).
Qed.

Lemma quiet_nil : quiet [].
Proof. exists []. by split. Qed.

Lemma quiet_app s t : quiet s → quiet t → quiet (s ++ t).
Proof.
  intros (ls & -> & Hs) (lt & -> & Ht). exists (ls ++ lt).
  split; [by rewrite concat_app | by apply Forall_app].
Qed.

Lemma quiet_concat (ss : list str) : Forall quiet ss → quiet (concat ss).
Proof.
  induction 1 as [|s ss Hs _ IH]; [apply quiet_nil|].
  cbn [concat]. by apply quiet_app.
Qed.

(** A line that starts with a blank, or with nothing but its line feed,
    is quiet. *)
Lemma quiet_indented body :
  LF ∉ body → (∀ c, head (body ++ NL) = Some c → c ≠ 108%N) →
  quiet (body ++ NL).
Proof.
  intros Hlf Hh. exists [body ++ NL]. split; [cbn [concat]; by rewrite app_nil_r|].
  constructor; [|done]. split; [by exists body|]. by apply declared_label_other.
Qed.

Lemma quiet_tab_line body : LF ∉ body → quiet (Generator.TAB ++ body ++ NL).
Proof.
  intros Hlf. rewrite app_assoc. apply quiet_indented.
  - apply not_elem_of_app. split; [|done].
    intros Hin. apply list_elem_of_In in Hin. vm_compute in Hin.
    repeat (destruct Hin as [Hin|Hin]; [discriminate|]). done.
  - intros c [= <-]. done.
Qed.

Lemma quiet_empty_line : quiet NL.
Proof.
  apply (quiet_indented []); [apply not_elem_of_nil|]. by intros c [= <-].
Qed.

Lemma declared_labels_quiet s rest :
  quiet s → declared_labels (s ++ rest) = declared_labels rest.
Proof.
  intros (ls & -> & Hls). unfold declared_labels.
  rewrite split_lines_concat by (eapply Forall_impl; [exact Hls|]; by intros ? [? ?]).
  rewrite omap_app.
  replace (omap declared_label ls) with (@nil str); [done|].
  symmetry. induction Hls as [|l ls [_ Hl] _ IH]; [done|].
  cbn [omap list_omap]. by rewrite Hl.
Qed.

Lemma declared_labels_nil : declared_labels [] = [].
Proof. reflexivity. Qed.

(** A block: its header declares its label, the rest is quiet. *)
Lemma declared_labels_block label body rest :
  plain_label label → quiet body →
  declared_labels (header_text label ++ body ++ rest)
  = label :: declared_labels rest.
Proof.
  intros Hlabel Hbody.
  change (header_text label)
    with (Generator.LABEL ++ u " " ++ label ++ u ":" ++ NL ++ NL).
  replace ((Generator.LABEL ++ u " " ++ label ++ u ":" ++ NL ++ NL) ++ body ++ rest)
    with ((Generator.LABEL ++ u " " ++ label ++ u ":" ++ NL) ++ (NL ++ body) ++ rest)
    by (by rewrite <- !app_assoc).
  rewrite declared_labels_one_line.
  2:{ exists (Generator.LABEL ++ u " " ++ label ++ u ":").
      split; [by rewrite <- !app_assoc|].
      destruct Hlabel as [_ _ _ Hlf].
      rewrite !not_elem_of_app. split_and!; try done;
        intros Hin; apply list_elem_of_In in Hin; vm_compute in Hin;
        repeat (destruct Hin as [Hin|Hin]; [discriminate|]); done. }
  rewrite declared_label_header by done. cbn [from_option app].
  f_equal. apply declared_labels_quiet. apply quiet_app; [apply quiet_empty_line|done].
Qed.

End Declared.

Section DeclaredInMenus.

Implicit Types (s label root : str) (labels : list str) (gb : option str).

Lemma quiet_entry label : LF ∉ label → quiet (entry_text label).
Proof.
  intros Hlf.
  change (entry_text label)
    with ((Generator.TAB ++ Generator.TAB ++ DQUOTE ++ label ++ DQUOTE ++ u ":" ++ NL)
          ++ Generator.TAB ++ Generator.TAB ++ Generator.TAB ++ u "jump "
          ++ label ++ NL ++ NL).
  replace ((Generator.TAB ++ Generator.TAB ++ DQUOTE ++ label ++ DQUOTE ++ u ":" ++ NL)
           ++ Generator.TAB ++ Generator.TAB ++ Generator.TAB ++ u "jump "
           ++ label ++ NL ++ NL)
    with ((Generator.TAB ++ (Generator.TAB ++ DQUOTE ++ label ++ DQUOTE ++ u ":") ++ NL)
          ++ (Generator.TAB ++ (Generator.TAB ++ Generator.TAB ++ u "jump " ++ label) ++ NL)
          ++ NL)
    by (by rewrite <- !app_assoc).
  apply quiet_app; [|apply quiet_app; [|apply quiet_empty_line]];
    apply quiet_tab_line; rewrite !not_elem_of_app;
    split_and!; try done; literal_free.
Qed.

Lemma quiet_back label : LF ∉ label → quiet (back_text label).
Proof.
  intros Hlf.
  change (back_text label)
    with ((Generator.TAB ++ Generator.TAB ++ DQUOTE ++ u "< BACK" ++ DQUOTE ++ u ":" ++ NL)
          ++ Generator.TAB ++ Generator.TAB ++ Generator.TAB ++ u "jump "
          ++ label ++ NL ++ NL).
  replace ((Generator.TAB ++ Generator.TAB ++ DQUOTE ++ u "< BACK" ++ DQUOTE ++ u ":" ++ NL)
           ++ Generator.TAB ++ Generator.TAB ++ Generator.TAB ++ u "jump "
           ++ label ++ NL ++ NL)
    with ((Generator.TAB ++ (Generator.TAB ++ DQUOTE ++ u "< BACK" ++ DQUOTE ++ u ":") ++ NL)
          ++ (Generator.TAB ++ (Generator.TAB ++ Generator.TAB ++ u "jump " ++ label) ++ NL)
          ++ NL)
    by (by rewrite <- !app_assoc).
  apply quiet_app; [|apply quiet_app; [|apply quiet_empty_line]];
    apply quiet_tab_line; rewrite !not_elem_of_app;
    split_and!; try done; literal_free.
Qed.

(** A page declares its own label and no other, as long as no label in
    it holds a line feed. *)
Lemma declared_labels_page (p : MenuPage) (rest : str) :
  plain_label (page_label p) →
  Forall (fun l => LF ∉ l) (page_entries p) →
  LF ∉ text (page_back p) →
  declared_labels (page_text p ++ rest)
  = page_label p :: declared_labels rest.
Proof.
  intros Hlabel Hentries Hback. unfold page_text.
  change (u "    pass" ++ NL) with (Generator.TAB ++ u "pass" ++ NL).
  change (u "    menu:" ++ NL) with (Generator.TAB ++ u "menu:" ++ NL).
  rewrite <- app_assoc.
  apply declared_labels_block; [done|].
  destruct (negb (truthy (page_back p)) && negb (nonempty (page_entries p))).
  - apply quiet_tab_line. literal_free.
  - apply quiet_app; [|apply quiet_app].
    + apply quiet_tab_line. literal_free.
    + destruct (truthy (page_back p)); [by apply quiet_back | apply quiet_nil].
    + apply quiet_concat. apply Forall_fmap.
      eapply Forall_impl; [exact Hentries|]. intros l Hl. by apply quiet_entry.
Qed.

Lemma declared_labels_pages (ps : list MenuPage) (rest : str) :
  Forall (fun p => plain_label (page_label p)
                   ∧ Forall (fun l => LF ∉ l) (page_entries p)
                   ∧ LF ∉ text (page_back p)) ps →
  declared_labels (concat (page_text <$> ps) ++ rest)
  = (page_label <$> ps) ++ declared_labels rest.
Proof.
  induction 1 as [|p ps (Hl & He & Hb) _ IH]; [done|].
  cbn [fmap list_fmap concat app]. rewrite <- app_assoc.
  rewrite declared_labels_page by done. by rewrite IH.
Qed.

Lemma str_of_int_no_lf (z : Z) : LF ∉ str_of_int z.
Proof. intros [H|H]%str_of_int_chars; unfold LF in *; lia. Qed.

Lemma str_of_int_no_colon (z : Z) : COLON_CHAR ∉ str_of_int z.
Proof. intros [H|H]%str_of_int_chars; unfold COLON_CHAR in *; lia. Qed.

(** The label of a sub-page is as plain as the root label. *)
Lemma sub_label_plain root (i : Z) : plain_label root → plain_label (sub_label root i).
Proof.
  intros [Hne [Hh Hl] Hcolon Hlf]. unfold sub_label. split.
  - by destruct root.
  - split; intros c Hc.
    + rewrite head_app in Hc.
      destruct (head root) as [x|] eqn:Hx; [|by apply head_None in Hx].
      inversion Hc; subst. by apply Hh.
    + rewrite app_assoc, last_app in Hc.
      destruct (last (str_of_int i)) as [y|] eqn:Hy.
      * inversion Hc; subst. apply last_Some_elem_of in Hy.
        by apply digit_not_space, str_of_int_chars with i.
      * change (u "_") with [UNDERSCORE] in Hc. rewrite last_snoc in Hc.
        by inversion Hc.
  - rewrite !not_elem_of_app. split_and!; [done|literal_free|apply str_of_int_no_colon].
  - rewrite !not_elem_of_app. split_and!; [done|literal_free|apply str_of_int_no_lf].
Qed.

End DeclaredInMenus.

(* ================================================================== *)
(** * From the screenplay to the script file, and back to its label *)
(* ================================================================== *)

Section ScriptFiles.

Import Generator.
Implicit Types (s line content : str) (lines : list (option ScriptLine))
  (m : gmap str str).

(** The characters of a record come from the trimmed line, the dots of
    the ellipsis apart. *)
Lemma parse_text_line_chars line (r : ScriptLine) :
  parse_text_line line = Some r →
  (∀ c, c ∈ phrase r → c ∈ strip line ∨ c = DOT)
  ∧ (∀ n c, character_name r = Some n → c ∈ n → c ∈ strip line).
Proof.
  rewrite parse_text_line_strip.
  pose proof (strip_trimmed line) as Htr.
  destruct (strip line) as [|x t] eqn:Hs; [done|].
  assert (Hell : ∀ c, c ∈ ELLIPSIS → c = DOT).
  { intros c Hc. repeat (apply elem_of_cons in Hc as [->|Hc]; [done|]).
    by apply elem_of_nil in Hc. }
  destruct (decide (find COLON (x :: t) < 1)%Z) as [Hlt|Hge].
  - rewrite parse_text_line_narration by done.
    destruct (lstrip_chars COLON (x :: t)) as [|y ph] eqn:Hph; [done|].
    cbn [nonempty]. intros [= <-]. cbn [phrase character_name].
    split; [|done]. intros c Hc. left. rewrite <- Hph in Hc.
    unfold lstrip_chars in Hc. by apply lstrip_with_elem_of in Hc.
  - rewrite parse_text_line_speaker by (done || lia). intros [= <-].
    cbn [phrase character_name]. split.
    + intros c Hc. destruct (_ =? _)%Z; [right; by apply Hell|].
      destruct (nonempty _); [|right; by apply Hell].
      left. apply strip_elem_of in Hc. by eapply subseteq_drop.
    + intros n c [= <-] Hc. apply rstrip_with_elem_of in Hc.
      by eapply subseteq_take.
Qed.

(** A line of a file, trimmed, holds no line feed. *)
Lemma strip_line_no_lf content line :
  line ∈ split_lines content → LF ∉ strip line.
Proof.
  intros (body & Hlf & [->| ->])%split_lines_shape.
  - intros Hc. by apply strip_elem_of in Hc.
  - rewrite strip_line_feed. intros Hc. by apply strip_elem_of in Hc.
Qed.

(** The records read from a file, and what they hold. *)
Lemma read_lines_records content :
  read_lines_from_file content = omap parse_text_line (split_lines content)
  ∧ ∀ r, r ∈ read_lines_from_file content →
      phrase r ≠ [] ∧ (LF ∉ phrase r)
      ∧ ∀ n, character_name r = Some n → n ≠ [] ∧ (LF ∉ n).
Proof.
  split; [apply read_lines_from_file_lines|].
  intros r. rewrite read_lines_from_file_lines.
  intros (line & Hline & Hparse)%list_elem_of_omap.
  pose proof (strip_line_no_lf content line Hline) as Hlf.
  destruct (parse_text_line_chars line r Hparse) as [Hph Hnm].
  destruct (parse_text_line_shape line r Hparse) as (Hne & _ & _ & Hname).
  split_and!; [done| |].
  - intros Hc. destruct (Hph _ Hc) as [H|H]; [done|discriminate].
  - intros n Hn. split.
    + destruct Hname as [H|(n' & H & Hn' & _)]; congruence.
    + intros Hc. by apply (Hnm n LF Hn) in Hc.
Qed.

(** X8. Reading a screenplay: the records are those of the lines that
    the parser keeps, in the order of the lines. No record holds a line
    feed, in its phrase or in its speaker name, so each one is written on
    a line of its own; its phrase is not empty, nor is its speaker name
    when it has one. *)
Theorem read_lines_from_file_records content :
  read_lines_from_file content = omap parse_text_line (split_lines content)
  ∧ ∀ r, r ∈ read_lines_from_file content →
      phrase r ≠ [] ∧ (LF ∉ phrase r)
      ∧ ∀ n, character_name r = Some n → n ≠ [] ∧ (LF ∉ n).
Proof. exact (read_lines_records content). Qed.

Lemma read_lines_from_file_records_witness :
  read_lines_from_file (u "Alice: Hi" ++ NL ++ NL ++ u ":::" ++ NL ++ u "bye")
  = [mkScriptLine (Some (u "Alice")) (u "Hi"); mkScriptLine None (u "bye")]
  ∧ LF ∉ u "bye".
Proof.
  destruct (read_lines_from_file_records
              (u "Alice: Hi" ++ NL ++ NL ++ u ":::" ++ NL ++ u "bye")) as [Heq Hrec].
  split; [rewrite Heq; reflexivity|].
  assert (Hin : mkScriptLine None (u "bye")
                ∈ read_lines_from_file
                    (u "Alice: Hi" ++ NL ++ NL ++ u ":::" ++ NL ++ u "bye")).
  { rewrite Heq. apply list_elem_of_In. vm_compute. tauto. }
  destruct (Hrec _ Hin) as (_ & Hlf & _). exact Hlf.
Defined.

(** The values of the character map keep any property that the
    identifiers [ch_k] have. *)
Lemma write_lines_values (P : str → Prop) lines (st : WriterState) :
  (∀ k, P (ch k)) →
  map_Forall (fun _ v => P v) (character_map st) →
  map_Forall (fun _ v => P v) (character_map (foldl write_line st lines)).
Proof.
  intros Hch. revert st. induction lines as [|line lines IH]; intros st Hm; [done|].
  cbn [foldl]. apply IH. rewrite write_line_map.
  destruct (speaker line) as [n|]; [|done].
  destruct (character_map st !! n); [done|].
  by apply map_Forall_insert_2.
Qed.

Lemma ch_no_lf (k : nat) : LF ∉ ch k.
Proof.
  unfold ch. rewrite not_elem_of_app. split; [literal_free|apply str_of_int_no_lf].
Qed.

(** The text of a written line is quiet. *)
Lemma quiet_line_text m (line : option ScriptLine) :
  map_Forall (fun _ v => LF ∉ v) m →
  (∀ l, line = Some l → LF ∉ phrase l) →
  quiet (line_text m line).
Proof.
  intros Hm Hline. destruct line as [l|]; [|apply quiet_nil].
  specialize (Hline l eq_refl). rewrite <- script_line_written.
  apply quiet_tab_line. unfold script_line_text.
  destruct (truthy (character_name l)).
  - destruct (m !! text (character_name l)) as [[|c v]|] eqn:Hv;
      cbn [truthy text from_option id].
    + rewrite !not_elem_of_app. split_and!; try done; literal_free.
    + apply Hm in Hv. rewrite !not_elem_of_app. split_and!; try done; literal_free.
    + rewrite !not_elem_of_app. split_and!; try done; literal_free.
  - cbn [truthy]. rewrite !not_elem_of_app. split_and!; try done; literal_free.
Qed.

Lemma len_zero_nil {A} (l : list A) : len l = 0%Z ↔ l = [].
Proof. unfold len. destruct l; simpl; split; (done || lia). Qed.

Lemma line_text_no_records m lines :
  omap id lines = [] → concat (line_text m <$> lines) = [].
Proof.
  induction lines as [|[l|] lines IH]; [done|done|].
  intros H. cbn [fmap list_fmap concat line_text app]. by apply IH.
Qed.

(** What [write_script_file] does: the file it leaves when the codec lets
    it, and that it raises otherwise. *)
Lemma script_file_outcome
    (join : str → str → str) (path_exists : str → bool) (now_label now_name : Z)
    (dir file_name : str) lines m :
  ∃ sf : ScriptFile,
    write_script_file join path_exists now_label now_name dir file_name lines m
    = (if encodable (script_file (written sf)) then inr sf
       else inl UnicodeEncodeError)
    ∧ (output_file_path sf, chapter_label sf)
      = prepare_output_file_path_and_chapter_label join path_exists now_label
          now_name dir file_name
    ∧ chapter_label sf
      = normalize_label now_label (Some (slice_to file_name (- EXT_RPY_LENGTH))) None
    ∧ script_file (written sf)
      = header_text (chapter_label sf)
        ++ (if decide (omap id lines = []) then u "    pass" ++ NL
            else concat (line_text (character_map (written sf)) <$> lines))
    ∧ lines_count (written sf) = len (omap id lines)
    ∧ m ⊆ character_map (written sf)
    ∧ ∀ P : str → Prop, (∀ k, P (ch k)) → map_Forall (fun _ v => P v) m →
        map_Forall (fun _ v => P v) (character_map (written sf)).
Proof.
  unfold write_script_file, with_open_utf8.
  destruct (prepare_output_file_path_and_chapter_label _ _ _ _ _ _) as [path X] eqn:Hprep.
  assert (HX : X = normalize_label now_label
                     (Some (slice_to file_name (- EXT_RPY_LENGTH))) None).
  { unfold prepare_output_file_path_and_chapter_label in Hprep.
    destruct (path_exists _); by inversion Hprep. }
  cbv zeta. eexists. split; [reflexivity|].
  cbn [output_file_path chapter_label written].
  unfold write_lines_to_script_file.
  destruct (write_lines_foldl lines
              (mkWriterState (write [] (LABEL ++ u " " ++ X ++ u ":" ++ NL ++ NL)) m 0))
    as (Hsub & _ & _ & Hfile & Hcnt).
  assert (Hvals : ∀ P : str → Prop, (∀ k, P (ch k)) →
            map_Forall (fun _ v => P v) m →
            map_Forall (fun _ v => P v)
              (character_map
                 (foldl write_line
                    (mkWriterState (write [] (LABEL ++ u " " ++ X ++ u ":" ++ NL ++ NL))
                       m 0) lines)))
    by (intros P Hch Hm; by apply write_lines_values).
  cbn [character_map script_file lines_count] in *.
  rewrite Z.add_0_l in Hcnt. rewrite Hcnt.
  destruct (decide (omap id lines = [])) as [Hnil|Hsome].
  - rewrite Hnil. cbn [len length Z.of_nat Z.eqb].
    cbn [script_file lines_count character_map].
    split_and!; try done.
    rewrite Hfile, line_text_no_records by done.
    unfold write. rewrite app_nil_r. cbn [app]. unfold header_text.
    by rewrite <- !app_assoc.
  - replace (len (omap id lines) =? 0)%Z with false
      by (symmetry; apply Z.eqb_neq; by rewrite len_zero_nil).
    by split_and!.
Qed.

(** What it leaves when it returns. *)
Lemma script_file_returned
    (join : str → str → str) (path_exists : str → bool) (now_label now_name : Z)
    (dir file_name : str) lines m (sf : ScriptFile) :
  write_script_file join path_exists now_label now_name dir file_name lines m
  = inr sf →
  encodable (script_file (written sf)) = true
  ∧ (output_file_path sf, chapter_label sf)
    = prepare_output_file_path_and_chapter_label join path_exists now_label
        now_name dir file_name
  ∧ chapter_label sf
    = normalize_label now_label (Some (slice_to file_name (- EXT_RPY_LENGTH))) None
  ∧ script_file (written sf)
    = header_text (chapter_label sf)
      ++ (if decide (omap id lines = []) then u "    pass" ++ NL
          else concat (line_text (character_map (written sf)) <$> lines))
  ∧ lines_count (written sf) = len (omap id lines)
  ∧ m ⊆ character_map (written sf)
  ∧ ∀ P : str → Prop, (∀ k, P (ch k)) → map_Forall (fun _ v => P v) m →
      map_Forall (fun _ v => P v) (character_map (written sf)).
Proof.
  intros Hsf.
  destruct (script_file_outcome join path_exists now_label now_name dir file_name
              lines m) as (sf' & Hw & Hrest).
  rewrite Hw in Hsf.
  destruct (encodable (script_file (written sf'))) eqn:Henc; [|discriminate].
  inversion Hsf; subst sf'. by split.
Qed.

End ScriptFiles.

Section RoundTrips.

Import Generator.
Local Open Scope Z_scope.
Implicit Types (s line content root : str) (lines : list (option ScriptLine))
  (labels : list str) (m : gmap str str) (gb : option str).

Lemma lf_is_space (c : char) : isspace c = false → c ≠ LF.
Proof. by intros Hc ->. Qed.

Lemma normalize_label_no_lf (now : Z) s :
  LF ∉ s → LF ∉ normalize_label now (Some s) None.
Proof.
  intros Hs. rewrite normalize_label_cases. cbn [text from_option id truthy].
  assert (Hpre : LF ∉ LABEL ++ u "_")
    by (intros Hin; apply in_label_prefix in Hin as (_ & _ & Hsp); done).
  assert (Hund : LF ∉ underscored (strip s)).
  { unfold underscored. intros (y & Hy & Hin)%list_elem_of_fmap.
    case_decide; [done|]. subst y. by apply strip_elem_of in Hin. }
  destruct (strip s) as [|x t] eqn:Ht.
  - rewrite app_assoc, not_elem_of_app. split; [done|apply str_of_int_no_lf].
  - cbv zeta. destruct (starts_with_digit _); [|done].
    rewrite app_assoc, not_elem_of_app. by split.
Qed.

Lemma normalized_plain s : normalized s → LF ∉ s → plain_label s.
Proof. intros [[Hne _ Hc _] Htr] Hlf. by split. Qed.

Lemma slice_to_elem_of {A} (l : list A) (hi : Z) (x : A) :
  x ∈ slice_to l hi → x ∈ l.
Proof. unfold slice_to. destruct (hi <? 0); by apply subseteq_take. Qed.

Lemma generate_script_file_name_no_lf s :
  LF ∉ s → LF ∉ generate_script_file_name s.
Proof.
  intros Hs. rewrite generate_script_file_name_cases. cbv zeta.
  assert (Ht : LF ∉ strip_chars (u ".") s).
  { intros Hin. unfold strip_chars in Hin.
    by apply rstrip_with_elem_of, lstrip_with_elem_of in Hin. }
  rewrite not_elem_of_app. split; [|literal_free].
  destruct (nonempty _); [|literal_free].
  destruct (_ <? 0); [done|]. intros Hin. by apply subseteq_take in Hin.
Qed.

(** The chapter label of a file whose name stays on its line is plain. *)
Lemma chapter_label_plain (now : Z) s :
  LF ∉ s →
  plain_label (normalize_label now (Some (slice_to s (- EXT_RPY_LENGTH))) None).
Proof.
  intros Hs. apply normalized_plain.
  - apply normalize_label_normalized. by left.
  - apply normalize_label_no_lf. intros Hin. by apply slice_to_elem_of in Hin.
Qed.

(** The text of a script file declares its chapter label and no other. *)
Lemma script_text_labels (label : str) lines (mf : gmap str str) :
  plain_label label →
  map_Forall (fun _ v => LF ∉ v) mf →
  (∀ l, Some l ∈ lines → LF ∉ phrase l) →
  Indexer.read_labels_from_file
    (header_text label
     ++ (if decide (omap id lines = []) then u "    pass" ++ NL
         else concat (line_text mf <$> lines)))
  = [label].
Proof.
  intros Hlabel Hm Hlines.
  rewrite read_labels_from_file_lines.
  rewrite <- (app_nil_r (if decide _ then _ else _)).
  rewrite declared_labels_block; [done|done|].
  case_decide.
  - change (u "    pass" ++ NL) with (TAB ++ u "pass" ++ NL).
    apply quiet_tab_line. literal_free.
  - apply quiet_concat, Forall_fmap, Forall_forall.
    intros line Hline. apply quiet_line_text; [done|].
    intros l ->. by apply Hlines.
Qed.

End RoundTrips.

(* ================================================================== *)
(** * Index files *)
(* ================================================================== *)

Section IndexFiles.

Local Open Scope Z_scope.
Implicit Types (s line root label : str) (labels : list str) (gb : option str)
  (P : Z).

(** One label always fits one page, whatever the page size. *)
Lemma builder_one_label (file root label : str) gb P :
  Indexer.write_labels_to_file_in_batches file root [label] gb P
  = file ++ page_text (mkPage root [label] gb).
Proof.
  unfold Indexer.write_labels_to_file_in_batches. cbn [nonempty negb orb].
  assert (Hfit : (len [label] <=?
                    (if (P =? 0) || (P <? 1) then Indexer.MAX_LABELS_PER_MENU else P))
                 = true).
  { apply Z.leb_le. unfold len. cbn [length].
    destruct ((P =? 0) || (P <? 1)) eqn:Hg; [done|].
    apply orb_false_iff in Hg as [_ Hg%Z.ltb_ge]. lia. }
  rewrite Hfit. rewrite indexer_jump_menu. apply jump_menu_appends.
Qed.

Lemma batch_entries_no_lf labels P (c : list str) :
  0 < P → Forall (fun l => LF ∉ l) labels →
  c ∈ Generator.batch_labels labels P → Forall (fun l => LF ∉ l) c.
Proof.
  intros HP Hlabels [i Hi]%list_elem_of_lookup.
  destruct (batch_labels_lookup _ _ _ _ HP Hi) as [-> _].
  by apply Forall_take, Forall_drop.
Qed.

(** The text of a menu file declares the labels of its pages, in the order
    they were written. *)
Lemma menu_text_labels root labels gb P :
  0 < P → plain_label root →
  Forall (fun l => LF ∉ l) labels → LF ∉ text gb →
  Indexer.read_labels_from_file
    (Indexer.write_labels_to_file_in_batches [] root labels gb P)
  = if decide (len labels ≤ P) then [root]
    else imap (fun i _ => sub_label root (Z.of_nat i))
              (Generator.batch_labels labels P) ++ [root].
Proof.
  intros HP Hroot Hlabels Hgb. rewrite read_labels_from_file_lines.
  case_decide as HN.
  - rewrite builder_single_page by done. cbn [app].
    rewrite <- (app_nil_r (page_text _)). by rewrite declared_labels_page.
  - rewrite builder_paged by lia. cbn [app].
    rewrite declared_labels_pages.
    + rewrite <- (app_nil_r (page_text _)).
      rewrite declared_labels_page; [| done | | done].
      * cbn [page_label]. f_equal. unfold sub_pages. rewrite fmap_imap.
        by apply imap_ext.
      * cbn [top_page page_entries]. apply Forall_lookup_2. intros i l Hl.
        rewrite list_lookup_imap in Hl.
        destruct (Generator.batch_labels labels P !! i); [|done].
        inversion Hl; subst. by apply sub_label_plain.
    + unfold sub_pages. apply Forall_lookup_2. intros i p Hp.
      rewrite list_lookup_imap in Hp.
      destruct (Generator.batch_labels labels P !! i) as [c|] eqn:Hc; [|done].
      inversion Hp; subst. cbn [page_label page_entries page_back].
      split_and!.
      * by apply sub_label_plain.
      * eapply batch_entries_no_lf; [done|done|]. by eapply list_elem_of_lookup_2.
      * by destruct Hroot.
Qed.

(** X14. What [extract_label] accepts: a line gives a label only if it
    starts with [label] and its first colon is at index 7 or later; the
    label is the text between index 5 and that colon, trimmed, so it has
    no colon and no whitespace at its ends (it may be empty). *)
Theorem extract_label_sound line label :
  Indexer.extract_label line = Some label →
  Indexer.LABEL `prefix_of` line
  ∧ 7 ≤ find (u ":") line
  ∧ label = strip (slice line 5 (find (u ":") line))
  ∧ trimmed label
  ∧ COLON_CHAR ∉ label.
Proof.
  unfold Indexer.extract_label.
  destruct (nonempty line); [|done]. cbn [negb]. unfold startswith.
  case_bool_decide as Hp; [|done]. cbn [negb].
  change Indexer.LABEL_START_POS with 5.
  destruct (find (u ":") line <? 5 + 2) eqn:Hidx; [done|].
  apply Z.ltb_ge in Hidx. intros [= <-].
  split_and!; [done | lia | done | apply strip_trimmed |].
  intros Hin. apply strip_elem_of in Hin. unfold slice in Hin.
  rewrite take_drop_commute in Hin. apply subseteq_drop in Hin.
  replace (Z.to_nat 5 + Z.to_nat (find (u ":") line - 5))%nat
    with (Z.to_nat (find (u ":") line)) in Hin by lia.
  by apply (find_char_before COLON_CHAR line).
Qed.

Lemma extract_label_sound_witness :
  Indexer.extract_label (u "label  the end :" ++ NL) = Some (u "the end")
  ∧ COLON_CHAR ∉ u "the end".
Proof.
  split; [reflexivity|].
  apply (extract_label_sound (u "label  the end :" ++ NL) (u "the end") eq_refl).
Defined.

End IndexFiles.

(* ================================================================== *)
(** * More on the menu builder and on the character map *)
(* ================================================================== *)

Section BuilderMore.

Local Open Scope Z_scope.
Implicit Types (file root : str) (labels : list str) (gb : option str) (P : Z).

(** X15. A page size that is zero or negative is replaced by the default
    of 20 labels per page, in both tools: the builder writes what it
    writes for a page size of 20. *)
Theorem page_size_defaults_to_20 file labels root gb P :
  P ≤ 0 →
  Generator.write_labels_to_script_file file labels root P
  = Generator.write_labels_to_script_file file labels root 20
  ∧ Indexer.write_labels_to_file_in_batches file root labels gb P
    = Indexer.write_labels_to_file_in_batches file root labels gb 20.
Proof.
  intros HP.
  assert (Hg : (P =? 0) || (P <? 1) = true).
  { apply orb_true_iff. destruct (decide (P = 0)) as [->|]; [by left|].
    right. apply Z.ltb_lt. lia. }
  unfold Generator.write_labels_to_script_file,
    Indexer.write_labels_to_file_in_batches.
  rewrite Hg. split; reflexivity.
Qed.

Lemma page_size_defaults_to_20_witness :
  Generator.write_labels_to_script_file [] [u "a"] (u "main") (-3)
  = Generator.write_labels_to_script_file [] [u "a"] (u "main") 20.
Proof.
  exact (proj1 (page_size_defaults_to_20 [] [u "a"] (u "main") None (-3)
                  ltac:(lia))).
Defined.

(** X16. The menu is two levels deep and no more: with more than P * P
    labels the builder writes the sub-pages and then, under the root
    label, a top page whose entries are the labels [root_0], [root_1], ...
    of the sub-pages, one per sub-page; they are ceil(N/P), which is more
    than P. The page size does not bound the top page. Its text is written
    out: header, menu line, the caller's back entry if any, the
    entries. *)
Theorem top_page_not_capped file labels root gb P :
  0 < P → P * P < len labels →
  let chunks := Generator.batch_labels labels P in
  let tops := imap (fun i (_ : list str) => sub_label root (Z.of_nat i)) chunks in
  Indexer.write_labels_to_file_in_batches file root labels gb P
  = file
    ++ concat (page_text <$> sub_pages root chunks)
    ++ header_text root ++ (u "    menu:" ++ NL)
    ++ (if truthy gb then back_text (text gb) else [])
    ++ concat (entry_text <$> tops)
  ∧ len tops = ceil_div (len labels) P
  ∧ P < len tops.
Proof.
  intros HP HN. cbv zeta.
  assert (Hlen : len (imap (fun i (_ : list str) => sub_label root (Z.of_nat i))
                        (Generator.batch_labels labels P))
                 = ceil_div (len labels) P).
  { unfold len at 1. rewrite length_imap. by apply batch_labels_length. }
  assert (Hmore : P < len (imap (fun i (_ : list str) => sub_label root (Z.of_nat i))
                             (Generator.batch_labels labels P))).
  { rewrite Hlen. pose proof (ceil_div_covers (len labels) P HP). nia. }
  split_and!; [|done|done].
  rewrite builder_paged by nia. unfold page_text, top_page.
  cbn [page_label page_entries page_back].
  destruct (imap _ (Generator.batch_labels labels P)) as [|t ts] eqn:Htops.
  - unfold len in Hmore. cbn [length] in Hmore. lia.
  - cbn [nonempty negb]. by rewrite andb_false_r.
Qed.

Lemma top_page_not_capped_witness :
  Indexer.write_labels_to_file_in_batches []
    (u "main") [u "a"; u "b"; u "c"; u "d"; u "e"] None 2
  = concat (page_text <$> sub_pages (u "main")
              [[u "a"; u "b"]; [u "c"; u "d"]; [u "e"]])
    ++ header_text (u "main") ++ (u "    menu:" ++ NL)
    ++ entry_text (u "main_0") ++ entry_text (u "main_1")
    ++ entry_text (u "main_2")
  ∧ 2 < len [u "main_0"; u "main_1"; u "main_2"].
Proof.
  destruct (top_page_not_capped [] [u "a"; u "b"; u "c"; u "d"; u "e"] (u "main")
              None 2) as (Htext & _ & Hmore); [lia | vm_compute; reflexivity |].
  split; [etrans; [exact Htext | reflexivity] | exact Hmore].
Defined.

(** X17. The writers only append: what is in the file before a call is
    still there, unchanged, in front of what the call writes, and what the
    call writes does not depend on it. *)
Theorem writers_only_append file :
  (∀ top labels gb,
     Generator.write_jump_menu_to_script_file file top labels gb
     = file ++ Generator.write_jump_menu_to_script_file [] top labels gb)
  ∧ (∀ labels root P,
       Generator.write_labels_to_script_file file labels root P
       = file ++ Generator.write_labels_to_script_file [] labels root P)
  ∧ (∀ root labels gb P,
       Indexer.write_labels_to_file_in_batches file root labels gb P
       = file ++ Indexer.write_labels_to_file_in_batches [] root labels gb P)
  ∧ (∀ lines m,
       Generator.script_file (Generator.write_lines_to_script_file file lines m)
       = file ++ Generator.script_file
                   (Generator.write_lines_to_script_file [] lines m)
       ∧ Generator.character_map (Generator.write_lines_to_script_file file lines m)
         = Generator.character_map (Generator.write_lines_to_script_file [] lines m)).
Proof.
  assert (Hmenu : ∀ f top labels gb,
            Generator.write_jump_menu_to_script_file f top labels gb
            = f ++ Generator.write_jump_menu_to_script_file [] top labels gb).
  { intros. by rewrite (jump_menu_appends f), (jump_menu_appends []). }
  assert (Hbuild : ∀ f root labels gb P,
            Indexer.write_labels_to_file_in_batches f root labels gb P
            = f ++ Indexer.write_labels_to_file_in_batches [] root labels gb P).
  { intros f root labels gb P. unfold Indexer.write_labels_to_file_in_batches.
    destruct (_ || _); [rewrite !indexer_jump_menu; apply Hmenu|].
    change (Indexer.write_submenu root) with (Generator.write_submenu root).
    rewrite (write_submenus_foldl root f), (write_submenus_foldl root []).
    rewrite !indexer_jump_menu, (Hmenu (f ++ _)), (Hmenu ([] ++ _)).
    by rewrite <- !app_assoc. }
  split_and!.
  - intros. apply Hmenu.
  - intros. rewrite !generator_builder_is_indexer_builder. apply Hbuild.
  - intros. apply Hbuild.
  - intros lines m. unfold Generator.write_lines_to_script_file.
    assert (Hgen : ∀ f m n,
              Generator.script_file
                (foldl Generator.write_line (Generator.mkWriterState f m n) lines)
              = f ++ concat (line_text
                   (Generator.character_map
                      (foldl Generator.write_line (Generator.mkWriterState [] m n) lines))
                   <$> lines)
              ∧ Generator.character_map
                  (foldl Generator.write_line (Generator.mkWriterState f m n) lines)
                = Generator.character_map
                    (foldl Generator.write_line (Generator.mkWriterState [] m n) lines)).
    { clear m. induction lines as [|line lines IH]; intros f m n.
      - cbn. by rewrite app_nil_r.
      - cbn [foldl].
        pose proof (write_line_map (Generator.mkWriterState f m n) line) as Hm1.
        pose proof (write_line_map (Generator.mkWriterState [] m n) line) as Hm2.
        cbn [Generator.character_map] in Hm1, Hm2.
        destruct (Generator.write_line (Generator.mkWriterState f m n) line)
          as [f1 m1 n1] eqn:H1.
        destruct (Generator.write_line (Generator.mkWriterState [] m n) line)
          as [f2 m2 n2] eqn:H2.
        cbn [Generator.character_map] in Hm1, Hm2.
        assert (m1 = m2) as -> by congruence.
        assert (n1 = n2) as ->.
        { pose proof (write_line_count (Generator.mkWriterState f m n) line) as Hc1.
          pose proof (write_line_count (Generator.mkWriterState [] m n) line) as Hc2.
          rewrite H1 in Hc1. rewrite H2 in Hc2.
          cbn [Generator.lines_count] in *. congruence. }
        destruct (IH f1 m2 n2) as [IHf IHm]. destruct (IH f2 m2 n2) as [IHf2 IHm2].
        split; [|congruence].
        rewrite IHf. cbn [fmap list_fmap concat].
        destruct (write_lines_foldl lines (Generator.mkWriterState [] m2 n2))
          as (Hsub & _).
        cbn [Generator.character_map] in Hsub.
        assert (Hsub2 : Generator.character_map
                          (Generator.write_line (Generator.mkWriterState [] m n) line)
                        ⊆ Generator.character_map
                            (foldl Generator.write_line
                               (Generator.mkWriterState [] m2 n2) lines))
          by (by rewrite H2).
        assert (Hsub1 : Generator.character_map
                          (Generator.write_line (Generator.mkWriterState f m n) line)
                        ⊆ Generator.character_map
                            (foldl Generator.write_line
                               (Generator.mkWriterState [] m2 n2) lines))
          by (by rewrite H1).
        pose proof (write_line_file _ line _ Hsub1) as Hf1.
        rewrite H1 in Hf1. cbn [Generator.script_file] in Hf1.
        rewrite Hf1, IHm2. by rewrite <- app_assoc. }
    destruct (Hgen file m 0) as [Hf Hm]. destruct (Hgen [] m 0) as [Hf0 _].
    split; [|done]. rewrite Hf, Hf0. done.
Qed.

End BuilderMore.

Section Identifiers.

Import Generator.
Implicit Types (lines : list (option ScriptLine)) (m : gmap str str).

Lemma uint_chars_inj (d1 d2 : Decimal.uint) :
  uint_chars d1 = uint_chars d2 → d1 = d2.
Proof.
  revert d2. induction d1 as [|d1 IH|d1 IH|d1 IH|d1 IH|d1 IH|d1 IH|d1 IH|d1 IH|d1 IH|d1 IH];
    intros [|d2|d2|d2|d2|d2|d2|d2|d2|d2|d2]; cbn [uint_chars]; intros H;
    try discriminate; try reflexivity; f_equal; apply IH; by inversion H.
Qed.

Lemma uint_chars_no_minus (d : Decimal.uint) (s : str) :
  uint_chars d ≠ 45%N :: s.
Proof. by destruct d. Qed.

Lemma str_of_int_inj (z1 z2 : Z) : str_of_int z1 = str_of_int z2 → z1 = z2.
Proof.
  unfold str_of_int. intros H.
  rewrite <- (DecimalZ.of_to z1), <- (DecimalZ.of_to z2).
  destruct (Z.to_int z1) as [d1|d1], (Z.to_int z2) as [d2|d2].
  - by rewrite (uint_chars_inj d1 d2 H).
  - by apply uint_chars_no_minus in H.
  - symmetry in H. by apply uint_chars_no_minus in H.
  - inversion H as [H']. by rewrite (uint_chars_inj d1 d2 H').
Qed.

Lemma ch_inj (k1 k2 : nat) : ch k1 = ch k2 → k1 = k2.
Proof.
  unfold ch. intros H%app_inv_head%str_of_int_inj. lia.
Qed.

(** The loop keeps the map injective, from any state in which the
    identifiers still to come are free. *)
Lemma write_lines_distinct lines (st : WriterState) :
  (∀ n1 n2 v, character_map st !! n1 = Some v →
              character_map st !! n2 = Some v → n1 = n2) →
  (∀ n v (k : nat), character_map st !! n = Some v →
                    size (character_map st) ≤ k → v ≠ ch k) →
  ∀ n1 n2 v,
    character_map (foldl write_line st lines) !! n1 = Some v →
    character_map (foldl write_line st lines) !! n2 = Some v →
    n1 = n2.
Proof.
  revert st. induction lines as [|line lines IH]; intros st Hinj Hfree; [exact Hinj|].
  cbn [foldl]. apply IH; rewrite write_line_map;
    destruct (speaker line) as [n|]; try done;
    destruct (character_map st !! n) as [v0|] eqn:Hn; try done.
  - intros n1 n2 v H1 H2.
    apply lookup_insert_Some in H1 as [[<- <-]|[Hne1 H1]];
      apply lookup_insert_Some in H2 as [[<- H2]|[Hne2 H2]]; try done.
    + exfalso. by apply (Hfree n2 _ (size (character_map st)) H2).
    + exfalso. subst v. by apply (Hfree n1 _ (size (character_map st)) H1).
    + by eapply Hinj.
  - intros n' v k Hl Hk. rewrite map_size_insert_None in Hk by done.
    apply lookup_insert_Some in Hl as [[<- <-]|[Hne Hl]].
    + intros Heq%ch_inj. lia.
    + apply (Hfree n' v k Hl). lia.
Qed.

(** X18. Distinct speakers get distinct identifiers. If the starting
    character map gives different names different identifiers, and none of
    them is a [ch_k] that the writer can still hand out (k at least the
    size of the map), then the map after any run still gives different
    names different identifiers. This is so for the empty map. *)
Theorem character_ids_distinct (file : str) lines m0 :
  (∀ n1 n2 v, m0 !! n1 = Some v → m0 !! n2 = Some v → n1 = n2) →
  (∀ n v (k : nat), m0 !! n = Some v → size m0 ≤ k → v ≠ ch k) →
  ∀ n1 n2 v,
    character_map (write_lines_to_script_file file lines m0) !! n1 = Some v →
    character_map (write_lines_to_script_file file lines m0) !! n2 = Some v →
    n1 = n2.
Proof.
  intros Hinj Hfree. unfold write_lines_to_script_file.
  by apply write_lines_distinct.
Qed.

Lemma character_ids_distinct_witness :
  character_map
    (write_lines_to_script_file []
       [Some (mkScriptLine (Some (u "Alice")) (u "Hello"));
        Some (mkScriptLine (Some (u "Bob")) (u "Hi"))] ∅) !! u "Alice"
  = Some (u "ch_0")
  ∧ character_map
      (write_lines_to_script_file []
         [Some (mkScriptLine (Some (u "Alice")) (u "Hello"));
          Some (mkScriptLine (Some (u "Bob")) (u "Hi"))] ∅) !! u "Bob"
    ≠ Some (u "ch_0").
Proof.
  assert (HA : character_map
                 (write_lines_to_script_file []
                    [Some (mkScriptLine (Some (u "Alice")) (u "Hello"));
                     Some (mkScriptLine (Some (u "Bob")) (u "Hi"))] ∅) !! u "Alice"
               = Some (u "ch_0")) by (vm_compute; reflexivity).
  split; [exact HA|]. intros HB.
  assert (Heq : u "Alice" = u "Bob"); [|discriminate].
  apply (character_ids_distinct []
           [Some (mkScriptLine (Some (u "Alice")) (u "Hello"));
            Some (mkScriptLine (Some (u "Bob")) (u "Hi"))] ∅) with (u "ch_0");
    [| |exact HA|exact HB].
  - intros n1 n2 v H. by rewrite lookup_empty in H.
  - intros n v k H. by rewrite lookup_empty in H.
Defined.

End Identifiers.

Section MainLabels.

Implicit Types (now : Z) (main_label : option str).

Lemma main_label_normalized : normalized Generator.MAIN_LABEL.
Proof.
  split.
  - split; [discriminate | literal_free | literal_free | reflexivity].
  - split; intros c Hc; vm_compute in Hc; by inversion Hc.
Qed.

Lemma main_index_label_normalized : normalized Indexer.MAIN_INDEX_LABEL.
Proof.
  split.
  - split; [discriminate | literal_free | literal_free | reflexivity].
  - split; intros c Hc; vm_compute in Hc; by inversion Hc.
Qed.

(** X19. The main label of either tool is a normalized label whatever is
    passed for it, and the clock is never used for it: with a label that
    is absent, empty or blank, the generator takes [main] and the indexer
    [main_index]. *)
Theorem main_labels_normalized now main_label :
  normalized (Generator.main_label_of now main_label)
  ∧ normalized (Indexer.main_label_of now main_label)
  ∧ (strip (text main_label) = [] →
     Generator.main_label_of now main_label = u "main"
     ∧ Indexer.main_label_of now main_label = u "main_index")
  ∧ (∀ now', Generator.main_label_of now' main_label
             = Generator.main_label_of now main_label
             ∧ Indexer.main_label_of now' main_label
               = Indexer.main_label_of now main_label).
Proof.
  unfold Generator.main_label_of, Indexer.main_label_of.
  change Indexer.normalize_label with Generator.normalize_label.
  split_and!.
  - apply normalize_label_normalized. right. apply main_label_normalized.
  - apply normalize_label_normalized. right. apply main_index_label_normalized.
  - intros Hblank. rewrite !normalize_label_cases, Hblank. done.
  - intros now'. rewrite !normalize_label_cases.
    by destruct (strip (text main_label)).
Qed.

Lemma main_labels_normalized_witness :
  Generator.main_label_of 7 (Some (u "   ")) = u "main"
  ∧ Indexer.main_label_of 7 (Some (u "   ")) = u "main_index".
Proof.
  destruct (main_labels_normalized 7 (Some (u "   "))) as (_ & _ & H & _).
  apply H. reflexivity.
Defined.

End MainLabels.

(* ================================================================== *)
(** * Reading back what was written *)
(* ================================================================== *)

Section ReadBack.

Import Generator.
Local Open Scope Z_scope.
Implicit Types (s content root : str) (lines : list (option ScriptLine))
  (labels : list str) (m : gmap str str) (gb : option str) (x : char).

(** A text without carriage return is read as it is. *)
Lemma read_text_id s : CR ∉ s → read_text s = s.
Proof.
  induction s as [|c s IH]; [done|]. intros [Hc Hs]%not_elem_of_cons.
  cbn [read_text].
  replace (c =? 13)%N with false by (symmetry; apply N.eqb_neq; by intros ->).
  by rewrite IH.
Qed.

(** What is read was stored, the line feeds apart. *)
Lemma read_text_elem_of s x : x ∈ read_text s → x ∈ s ∨ x = LF.
Proof.
  assert (H : ∀ n s, (length s < n)%nat → x ∈ read_text s → x ∈ s ∨ x = LF).
  { clear s. induction n as [|n IH]; intros s Hn; [lia|].
    destruct s as [|c s]; [by intros ?%elem_of_nil|]. cbn [read_text].
    cbn [length] in Hn. destruct (c =? 13)%N eqn:Hc.
    - destruct s as [|c' s'].
      + intros [->|?%elem_of_nil]%elem_of_cons; [by right|done].
      + cbn [length] in Hn. destruct (c' =? 10)%N;
          (intros [->|Hin]%elem_of_cons; [by right|]);
          (apply IH in Hin; [|cbn [length]; lia]);
          (destruct Hin as [Hin|Hin]; [left|by right]).
        * by do 2 right.
        * by right.
    - intros [->|Hin]%elem_of_cons; [left; by left|].
      apply IH in Hin; [|lia]. destruct Hin as [Hin|Hin]; [left; by right|by right]. }
  apply (H (S (length s))). lia.
Qed.

(** No carriage return is ever read. *)
Lemma read_text_no_cr s : CR ∉ read_text s.
Proof.
  assert (H : ∀ n s, (length s < n)%nat → CR ∉ read_text s).
  { clear s. induction n as [|n IH]; intros s Hn; [lia|].
    destruct s as [|c s]; [apply not_elem_of_nil|]. cbn [read_text].
    cbn [length] in Hn. destruct (c =? 13)%N eqn:Hc.
    - destruct s as [|c' s'].
      + apply not_elem_of_cons. split; [done|apply not_elem_of_nil].
      + cbn [length] in Hn. destruct (c' =? 10)%N;
          apply not_elem_of_cons; (split; [done|]); apply IH; cbn [length]; lia.
    - apply N.eqb_neq in Hc. apply not_elem_of_cons.
      split; [by intros <-|]. apply IH. lia. }
  apply (H (S (length s))). lia.
Qed.

(** ** What UTF-8 can encode *)

Lemma cr_foreign : foreign CR.
Proof. by left. Qed.

Lemma surrogate_foreign x : surrogate x = true → foreign x.
Proof.
  unfold surrogate. intros [H _]%andb_true_iff. apply N.leb_le in H.
  right. lia.
Qed.

Lemma encodable_free s : encodable s = true ↔ ∀ x, surrogate x = true → x ∉ s.
Proof.
  unfold encodable. rewrite forallb_forall. split.
  - intros H x Hx Hin. apply list_elem_of_In in Hin. apply H in Hin.
    by rewrite Hx in Hin.
  - intros H x Hin. apply list_elem_of_In in Hin.
    destruct (surrogate x) eqn:Hx; [|done]. by apply H in Hin.
Qed.

Lemma encodable_elem_of s x : x ∈ s → surrogate x = true → encodable s = false.
Proof.
  intros Hin Hx. apply not_true_is_false. intros Henc.
  by apply (proj1 (encodable_free s) Henc x Hx).
Qed.

Lemma not_encodable s : encodable s = false → ∃ x, x ∈ s ∧ surrogate x = true.
Proof.
  induction s as [|c s IH]; [done|]. cbn [encodable forallb].
  destruct (surrogate c) eqn:Hc.
  - intros _. exists c. split; [by left|done].
  - cbn [negb andb]. intros (x & Hin & Hx)%IH. exists x. split; [by right|done].
Qed.

Lemma encodable_app (a b : str) : encodable (a ++ b) = encodable a && encodable b.
Proof. apply forallb_app. Qed.

(** A run of writes on a file opened as UTF-8 goes through exactly when
    the whole text can be encoded, and then the file holds that text. *)
Lemma strict_writes (pieces : list str) (file : str) :
  foldl write_utf8 (inr file) pieces
  = if encodable (concat pieces) then inr (file ++ concat pieces)
    else inl UnicodeEncodeError.
Proof.
  revert file. induction pieces as [|piece pieces IH]; intros file;
    cbn [foldl concat].
  - by rewrite app_nil_r.
  - rewrite encodable_app. cbn [write_utf8]. destruct (encodable piece).
    + rewrite IH. unfold write. cbn [andb]. by rewrite app_assoc.
    + cbn [andb]. clear. induction pieces as [|p ps IH]; [done|]. exact IH.
Qed.

(** ** Characters that the tools do not write of their own *)

Lemma concat_free x (ss : list str) :
  Forall (fun s => x ∉ s) ss → x ∉ concat ss.
Proof.
  induction 1 as [|s ss Hs _ IH]; [apply not_elem_of_nil|].
  cbn [concat]. by apply not_elem_of_app.
Qed.

Lemma concat_elem_of x s (ss : list str) : s ∈ ss → x ∈ s → x ∈ concat ss.
Proof.
  intros Hs Hx. apply list_elem_of_In, in_concat. exists s.
  split; by apply list_elem_of_In.
Qed.

Lemma split_lines_concat_id content : concat (split_lines content) = content.
Proof.
  induction content as [|c rest IH]; [done|]. cbn [split_lines].
  destruct (c =? 10)%N; [cbn [concat app]; by rewrite IH|].
  destruct (split_lines rest) as [|l ls]; cbn [concat app] in *; by rewrite <- IH.
Qed.

Lemma split_lines_elem_of content line x :
  line ∈ split_lines content → x ∈ line → x ∈ content.
Proof.
  intros Hline Hc. rewrite <- (split_lines_concat_id content).
  by eapply concat_elem_of.
Qed.

Lemma str_of_int_foreign x (z : Z) : foreign x → x ∉ str_of_int z.
Proof. intros Hx [H|H]%str_of_int_chars; unfold foreign, CR in Hx; lia. Qed.

Lemma ch_foreign x (k : nat) : foreign x → x ∉ ch k.
Proof.
  intros Hx. unfold ch. rewrite not_elem_of_app.
  split; [literal_foreign Hx | by apply str_of_int_foreign].
Qed.

Lemma normalize_label_foreign x (now : Z) s :
  foreign x → x ∉ s → x ∉ normalize_label now (Some s) None.
Proof.
  intros Hx Hs. rewrite normalize_label_cases. cbn [text from_option id truthy].
  assert (Hpre : x ∉ LABEL ++ u "_") by literal_foreign Hx.
  assert (Hund : x ∉ underscored (strip s)).
  { unfold underscored. intros (y & Hy & Hin)%list_elem_of_fmap.
    case_decide.
    - unfold foreign, CR, UNDERSCORE in *. lia.
    - subst y. by apply strip_elem_of in Hin. }
  destruct (strip s) as [|c t] eqn:Ht.
  - rewrite app_assoc, not_elem_of_app. split; [done|by apply str_of_int_foreign].
  - cbv zeta. destruct (starts_with_digit _); [|done].
    rewrite app_assoc, not_elem_of_app. by split.
Qed.

Lemma generate_script_file_name_foreign x s :
  foreign x → x ∉ s → x ∉ generate_script_file_name s.
Proof.
  intros Hx Hs. rewrite generate_script_file_name_cases. cbv zeta.
  assert (Ht : x ∉ strip_chars (u ".") s).
  { intros Hin. unfold strip_chars in Hin.
    by apply rstrip_with_elem_of, lstrip_with_elem_of in Hin. }
  rewrite not_elem_of_app. split; [|literal_foreign Hx].
  destruct (nonempty _); [|literal_foreign Hx].
  destruct (_ <? 0); [done|]. intros Hin. by apply subseteq_take in Hin.
Qed.

Lemma header_text_foreign x s : foreign x → x ∉ s → x ∉ header_text s.
Proof.
  intros Hx Hs. unfold header_text. rewrite !not_elem_of_app.
  split_and!; try done; literal_foreign Hx.
Qed.

Lemma line_text_foreign x m (line : option ScriptLine) :
  foreign x →
  map_Forall (fun _ v => x ∉ v) m →
  (∀ l, line = Some l → x ∉ phrase l) →
  x ∉ line_text m line.
Proof.
  intros Hx Hm Hline. destruct line as [l|]; [|apply not_elem_of_nil].
  specialize (Hline l eq_refl). unfold line_text, line_id.
  destruct (speaker (Some l)) as [n|];
    [destruct (m !! _) as [[|c v]|] eqn:Hv|];
    rewrite !not_elem_of_app; split_and!; try done; try literal_foreign Hx.
  by apply Hm in Hv.
Qed.

(** The text of a script file holds no foreign character that its label,
    its identifiers and its phrases do not hold. *)
Lemma script_text_foreign x (label : str) lines (mf : gmap str str) :
  foreign x → x ∉ label →
  map_Forall (fun _ v => x ∉ v) mf →
  (∀ l, Some l ∈ lines → x ∉ phrase l) →
  x ∉ header_text label
      ++ (if decide (omap id lines = []) then u "    pass" ++ NL
          else concat (line_text mf <$> lines)).
Proof.
  intros Hx Hlabel Hm Hlines. apply not_elem_of_app. split.
  - by apply header_text_foreign.
  - case_decide.
    + rewrite !not_elem_of_app. split_and!; literal_foreign Hx.
    + apply concat_free, Forall_fmap, Forall_forall.
      intros line Hline. apply line_text_foreign; [done|done|].
      intros l ->. by apply Hlines.
Qed.

(** A phrase is in the text of its line, and so is a label in its
    header. *)
Lemma phrase_in_line_text x m (l : ScriptLine) :
  x ∈ phrase l → x ∈ line_text m (Some l).
Proof.
  intros Hin. unfold line_text. destruct (line_id m (Some l));
    rewrite !elem_of_app; tauto.
Qed.

Lemma label_in_header_text x (label : str) : x ∈ label → x ∈ header_text label.
Proof. intros Hin. unfold header_text. rewrite !elem_of_app. tauto. Qed.

Lemma page_text_foreign x (p : MenuPage) :
  foreign x →
  x ∉ page_label p →
  Forall (fun l => x ∉ l) (page_entries p) →
  x ∉ text (page_back p) →
  x ∉ page_text p.
Proof.
  intros Hx Hlabel Hentries Hback. unfold page_text. apply not_elem_of_app.
  split; [by apply header_text_foreign|].
  destruct (negb (truthy (page_back p)) && negb (nonempty (page_entries p))).
  - rewrite !not_elem_of_app. split_and!; literal_foreign Hx.
  - rewrite !not_elem_of_app. split_and!; try literal_foreign Hx.
    + destruct (truthy (page_back p)); [|apply not_elem_of_nil].
      unfold back_text. rewrite !not_elem_of_app.
      split_and!; try done; literal_foreign Hx.
    + apply concat_free, Forall_fmap.
      eapply Forall_impl; [exact Hentries|]. intros l Hl. unfold compose.
      unfold entry_text. rewrite !not_elem_of_app.
      split_and!; try done; literal_foreign Hx.
Qed.

Lemma sub_label_foreign x root (i : Z) : foreign x → x ∉ root → x ∉ sub_label root i.
Proof.
  intros Hx Hroot. unfold sub_label. rewrite !not_elem_of_app.
  split_and!; [done | literal_foreign Hx | by apply str_of_int_foreign].
Qed.

(** What the menu builder writes holds no foreign character that the
    labels do not hold. *)
Lemma menu_text_foreign x root labels gb P :
  foreign x →
  0 < P → x ∉ root → Forall (fun l => x ∉ l) labels → x ∉ text gb →
  x ∉ Indexer.write_labels_to_file_in_batches [] root labels gb P.
Proof.
  intros Hx HP Hroot Hlabels Hgb.
  destruct (decide (len labels ≤ P)) as [HN|HN].
  - rewrite builder_single_page by done. cbn [app]. by apply page_text_foreign.
  - rewrite builder_paged by lia. cbn [app]. apply not_elem_of_app. split.
    + apply concat_free, Forall_fmap. unfold sub_pages.
      apply Forall_lookup_2. intros i p Hp. rewrite list_lookup_imap in Hp.
      destruct (Generator.batch_labels labels P !! i) as [c|] eqn:Hc; [|done].
      inversion Hp; subst. unfold compose. apply page_text_foreign;
        cbn [page_label page_entries page_back text from_option id].
      * done.
      * by apply sub_label_foreign.
      * destruct (batch_labels_lookup _ _ _ _ HP Hc) as [-> _].
        by apply Forall_take, Forall_drop.
      * done.
    + apply page_text_foreign; cbn [top_page page_label page_entries page_back];
        [done|done| |done].
      apply Forall_lookup_2. intros i l Hl. rewrite list_lookup_imap in Hl.
      destruct (Generator.batch_labels labels P !! i); [|done].
      inversion Hl; subst. by apply sub_label_foreign.
Qed.

(** The records read from a text hold no foreign character that the text
    does not hold. *)
Lemma read_lines_foreign x content (r : ScriptLine) :
  foreign x → x ∉ content → r ∈ read_lines_from_file content → x ∉ phrase r.
Proof.
  intros Hx Hcr. rewrite read_lines_from_file_lines.
  intros (line & Hline & Hparse)%list_elem_of_omap.
  destruct (parse_text_line_chars line r Hparse) as [Hph _].
  intros Hc. destruct (Hph _ Hc) as [H|H].
  - apply strip_elem_of in H. by apply (split_lines_elem_of content line x) in H.
  - unfold foreign, CR, DOT in *. lia.
Qed.

(** ** Texts that a file holds as they are *)

Lemma storable_free s x :
  storable s → x = LF ∨ x = CR ∨ surrogate x = true → x ∉ s.
Proof.
  intros [[Hlf Hcr] Henc] [->|[->|Hx]]; [done|done|].
  by apply (proj1 (encodable_free s) Henc).
Qed.

(** [write_script_file] returns when the codec can encode the name of the
    file, the phrases and the identifiers of a seeded map. *)
Lemma script_file_returns
    (join : str → str → str) (path_exists : str → bool) (now_label now_name : Z)
    (dir file_name : str) lines m :
  encodable file_name = true →
  map_Forall (fun _ v => encodable v = true) m →
  (∀ l, Some l ∈ lines → encodable (phrase l) = true) →
  ∃ sf, write_script_file join path_exists now_label now_name dir file_name
          lines m = inr sf.
Proof.
  intros Hname Hm Hlines.
  destruct (script_file_outcome join path_exists now_label now_name dir file_name
              lines m) as (sf & Hw & _ & HX & Htext & _ & _ & Hvals).
  exists sf. rewrite Hw.
  replace (encodable (script_file (written sf))) with true; [done|].
  symmetry. apply encodable_free. intros x Hx.
  pose proof (surrogate_foreign x Hx) as Hfx.
  rewrite Htext. apply script_text_foreign; [done| | |].
  - rewrite HX. apply normalize_label_foreign; [done|].
    intros Hin. apply slice_to_elem_of in Hin.
    by apply (proj1 (encodable_free file_name) Hname x Hx).
  - apply (Hvals (fun v => x ∉ v)); [intros k; by apply ch_foreign|].
    intros n v Hv. by apply (proj1 (encodable_free v) (Hm n v Hv) x Hx).
  - intros l Hl. by apply (proj1 (encodable_free _) (Hlines l Hl) x Hx).
Qed.

(** It raises when the codec cannot encode the chapter label or a
    phrase. *)
Lemma script_file_raises
    (join : str → str → str) (path_exists : str → bool) (now_label now_name : Z)
    (dir file_name : str) lines m :
  encodable (normalize_label now_label
               (Some (slice_to file_name (- EXT_RPY_LENGTH))) None) = false
  ∨ (∃ l, Some l ∈ lines ∧ encodable (phrase l) = false) →
  write_script_file join path_exists now_label now_name dir file_name lines m
  = inl UnicodeEncodeError.
Proof.
  intros Hbad.
  destruct (script_file_outcome join path_exists now_label now_name dir file_name
              lines m) as (sf & Hw & _ & HX & Htext & _).
  rewrite Hw.
  replace (encodable (script_file (written sf))) with false; [done|].
  symmetry. rewrite Htext.
  destruct Hbad as [Hlabel|(l & Hl & Hph)].
  - apply not_encodable in Hlabel as (x & Hin & Hx).
    apply (encodable_elem_of _ x); [|done].
    apply elem_of_app. left. apply label_in_header_text. by rewrite HX.
  - apply not_encodable in Hph as (x & Hin & Hx).
    apply (encodable_elem_of _ x); [|done].
    apply elem_of_app. right. case_decide as Hnil.
    + exfalso. apply list_elem_of_In in Hl.
      assert (Hin' : l ∈ omap id lines)
        by (apply list_elem_of_omap; exists (Some l);
            split; [by apply list_elem_of_In|done]).
      rewrite Hnil in Hin'. by apply elem_of_nil in Hin'.
    + apply (concat_elem_of x (line_text (character_map (written sf)) (Some l))).
      * apply list_elem_of_fmap. by exists (Some l).
      * by apply phrase_in_line_text.
Qed.

(** A script file read back: its text and its labels. *)
Lemma script_file_read_back
    (join : str → str → str) (path_exists : str → bool) (now_label now_name : Z)
    (dir file_name : str) lines m :
  storable file_name →
  map_Forall (fun _ v => storable v) m →
  (∀ l, Some l ∈ lines → storable (phrase l)) →
  ∃ sf,
    write_script_file join path_exists now_label now_name dir file_name lines m
    = inr sf
    ∧ read_text (script_file (written sf)) = script_file (written sf)
    ∧ Indexer.read_labels_from_file (read_text (script_file (written sf)))
      = [chapter_label sf].
Proof.
  intros Hname Hm Hlines.
  destruct (script_file_returns join path_exists now_label now_name dir file_name
              lines m) as [sf Hsf].
  { by destruct Hname. }
  { intros n v Hv. by destruct (Hm n v Hv). }
  { intros l Hl. by destruct (Hlines l Hl). }
  exists sf. split; [done|].
  destruct (script_file_returned _ _ _ _ _ _ _ _ _ Hsf)
    as (_ & _ & HX & Htext & _ & _ & Hvals).
  assert (Hid : read_text (script_file (written sf)) = script_file (written sf)).
  { apply read_text_id. rewrite Htext.
    apply script_text_foreign; [apply cr_foreign| | |].
    - rewrite HX. apply normalize_label_foreign; [apply cr_foreign|].
      intros Hin. apply slice_to_elem_of in Hin.
      by apply (storable_free file_name CR Hname); auto.
    - apply (Hvals (fun v => CR ∉ v)); [intros k; apply ch_foreign, cr_foreign|].
      intros n v Hv. apply (storable_free v CR (Hm n v Hv)); auto.
    - intros l Hl. apply (storable_free _ CR (Hlines l Hl)); auto. }
  split; [exact Hid|]. rewrite Hid, Htext.
  apply script_text_labels.
  - rewrite HX. apply chapter_label_plain.
    apply (storable_free file_name LF Hname); auto.
  - apply (Hvals (fun v => LF ∉ v)); [apply ch_no_lf|].
    intros n v Hv. apply (storable_free v LF (Hm n v Hv)); auto.
  - intros l Hl. apply (storable_free _ LF (Hlines l Hl)); auto.
Qed.

(** The name of the script file is as storable as that of the source. *)
Lemma generate_script_file_name_storable s :
  storable s → storable (generate_script_file_name s).
Proof.
  intros Hs. split; [split|].
  - apply generate_script_file_name_no_lf. apply (storable_free s LF Hs); auto.
  - apply generate_script_file_name_foreign; [apply cr_foreign|].
    apply (storable_free s CR Hs); auto.
  - apply encodable_free. intros x Hx.
    apply generate_script_file_name_foreign; [by apply surrogate_foreign|].
    apply (storable_free s x Hs); auto.
Qed.

(** The phrases read from a decoded text are storable. *)
Lemma read_lines_storable (source : str) (r : ScriptLine) :
  encodable source = true →
  r ∈ read_lines_from_file (read_text source) → storable (phrase r).
Proof.
  intros Hsrc Hr. split; [split|].
  - by destruct (proj2 (read_lines_records (read_text source)) r Hr) as (_ & ? & _).
  - eapply read_lines_foreign; [apply cr_foreign | apply read_text_no_cr | exact Hr].
  - apply encodable_free. intros x Hx.
    eapply read_lines_foreign; [by apply surrogate_foreign | | exact Hr].
    intros [Hin| ->]%read_text_elem_of; [|done].
    by apply (proj1 (encodable_free source) Hsrc x Hx).
Qed.

(** The same for the file written for a source file. *)
Lemma processed_file_read_back
    (join : str → str → str) (path_exists : str → bool) (now_label now_name : Z)
    (source file_name dir : str) m :
  encodable source = true →
  storable file_name →
  map_Forall (fun _ v => storable v) m →
  ∃ sf,
    process_text_file join path_exists now_label now_name
      (read_text source) file_name dir m = inr sf
    ∧ chapter_label sf
      = normalize_label now_label
          (Some (slice_to (generate_script_file_name file_name) (- EXT_RPY_LENGTH)))
          None
    ∧ read_text (script_file (written sf)) = script_file (written sf)
    ∧ Indexer.read_labels_from_file (read_text (script_file (written sf)))
      = [chapter_label sf].
Proof.
  intros Hsrc Hname Hm. unfold process_text_file.
  destruct (script_file_read_back join path_exists now_label now_name dir
              (generate_script_file_name file_name)
              (Some <$> read_lines_from_file (read_text source)) m)
    as (sf & Hsf & Hid & Hlabels); [| done | |].
  - by apply generate_script_file_name_storable.
  - intros l (r & Heq & Hr)%list_elem_of_fmap. inversion Heq; subst r.
    by apply (read_lines_storable source).
  - exists sf. split_and!; try done.
    by destruct (script_file_returned _ _ _ _ _ _ _ _ _ Hsf) as (_ & _ & HX & _).
Qed.

End ReadBack.

Section ReadBackProperties.

Import Generator.
Local Open Scope Z_scope.
Implicit Types (s content root : str) (lines : list (option ScriptLine))
  (labels : list str) (m : gmap str str) (gb : option str).

(** X9. The file that [write_script_file] writes, and when it writes it.
    When the function returns, the file holds the header of the chapter
    label and a blank line, then one line per record: four spaces, the
    identifier that the final character map holds for the speaker and a
    space when the record names a speaker, and the quoted phrase; when
    there is no record at all it holds the single statement [pass]
    instead, so the block is never empty. The counter returned is the
    number of records. The function returns whenever UTF-8 can encode the
    name of the file, the phrases and the identifiers of a seeded map; it
    raises [UnicodeEncodeError] when the chapter label or a phrase holds
    a surrogate. *)
Theorem write_script_file_content
    (join : str → str → str) (path_exists : str → bool) (now_label now_name : Z)
    (dir file_name : str) lines m :
  let label := normalize_label now_label (Some (slice_to file_name (- 4))) None in
  let run := write_script_file join path_exists now_label now_name dir file_name
               lines m in
  (∀ sf, run = inr sf →
     chapter_label sf = label
     ∧ script_file (written sf)
       = header_text label
         ++ (if decide (omap id lines = []) then u "    pass" ++ NL
             else concat (line_text (character_map (written sf)) <$> lines))
     ∧ encodable (script_file (written sf)) = true
     ∧ lines_count (written sf) = len (omap id lines)
     ∧ m ⊆ character_map (written sf))
  ∧ (encodable file_name = true →
     map_Forall (fun _ v => encodable v = true) m →
     (∀ l, Some l ∈ lines → encodable (phrase l) = true) →
     ∃ sf, run = inr sf)
  ∧ (encodable label = false
     ∨ (∃ l, Some l ∈ lines ∧ encodable (phrase l) = false) →
     run = inl UnicodeEncodeError).
Proof.
  cbv zeta. change (- 4) with (- EXT_RPY_LENGTH). split_and!.
  - intros sf Hsf.
    destruct (script_file_returned _ _ _ _ _ _ _ _ _ Hsf)
      as (Henc & _ & HX & Htext & Hcnt & Hsub & _).
    rewrite <- HX. by split_and!.
  - apply script_file_returns.
  - apply script_file_raises.
Qed.

Lemma write_script_file_content_witness :
  ∃ sf,
    write_script_file (fun d f : str => d ++ u "/" ++ f) (fun _ => false) 0 0
      (u "out") (u "1 act.rpy")
      [Some (mkScriptLine (Some (u "Alice")) (u "Hi"));
       Some (mkScriptLine None (u "She waves."))] ∅
    = inr sf
    ∧ script_file (written sf)
      = (u "label label_1_act:" ++ NL ++ NL)
        ++ (u "    ch_0 " ++ DQUOTE ++ u "Hi" ++ DQUOTE ++ NL)
        ++ (u "    " ++ DQUOTE ++ u "She waves." ++ DQUOTE ++ NL).
Proof.
  destruct (write_script_file_content (fun d f : str => d ++ u "/" ++ f)
              (fun _ => false) 0 0 (u "out") (u "1 act.rpy")
              [Some (mkScriptLine (Some (u "Alice")) (u "Hi"));
               Some (mkScriptLine None (u "She waves."))] ∅)
    as (_ & Hreturns & _).
  destruct Hreturns as [sf Hsf].
  - reflexivity.
  - apply map_Forall_empty.
  - intros l Hl. repeat (apply elem_of_cons in Hl as [Hl|Hl];
                         [inversion Hl; subst; reflexivity|]).
    by apply elem_of_nil in Hl.
  - exists sf. split; [exact Hsf|].
    vm_compute in Hsf. inversion Hsf. reflexivity.
Defined.

(** X10. The indexer finds in a script file the label the generator
    filed it under, and nothing else. When the name of the file, the
    phrases and the identifiers of a seeded character map hold no line
    feed, no carriage return and no surrogate, [write_script_file]
    returns, the text of the file it wrote is read back as it was
    written, and reading its labels gives the chapter label alone. *)
Theorem read_labels_of_script_file
    (join : str → str → str) (path_exists : str → bool) (now_label now_name : Z)
    (dir file_name : str) lines m :
  storable file_name →
  map_Forall (fun _ v => storable v) m →
  (∀ l, Some l ∈ lines → storable (phrase l)) →
  ∃ sf,
    write_script_file join path_exists now_label now_name dir file_name lines m
    = inr sf
    ∧ read_text (script_file (written sf)) = script_file (written sf)
    ∧ Indexer.read_labels_from_file (read_text (script_file (written sf)))
      = [chapter_label sf].
Proof.
  exact (script_file_read_back join path_exists now_label now_name dir file_name
           lines m).
Qed.

Lemma read_labels_of_script_file_witness :
  ∃ sf,
    write_script_file (fun d f : str => d ++ u "/" ++ f) (fun _ => false) 0 0
      (u "out") (u "1 act.rpy")
      [Some (mkScriptLine (Some (u "Alice")) (u "label x: y"))] ∅
    = inr sf
    ∧ Indexer.read_labels_from_file (read_text (script_file (written sf)))
      = [u "label_1_act"].
Proof.
  destruct (read_labels_of_script_file (fun d f : str => d ++ u "/" ++ f)
              (fun _ => false) 0 0 (u "out") (u "1 act.rpy")
              [Some (mkScriptLine (Some (u "Alice")) (u "label x: y"))] ∅)
    as (sf & Hsf & _ & Hlabels).
  - split; [split; literal_free | reflexivity].
  - apply map_Forall_empty.
  - intros l Hl. apply list_elem_of_singleton in Hl. inversion Hl; subst.
    cbn [phrase]. split; [split; literal_free | reflexivity].
  - exists sf. split; [exact Hsf|]. rewrite Hlabels.
    vm_compute in Hsf. inversion Hsf. reflexivity.
Defined.

(** X11. From the screenplay to the index: whatever lines the source
    file holds, [process_text_file] returns and the script file it writes
    is read back as it was written and declares exactly one label, its
    chapter label. This needs the text of the source, as decoded from
    UTF-8, to hold no surrogate, and the name of the source file and the
    identifiers of a seeded character map to hold no line feed, no
    carriage return and no surrogate. No line of the screenplay is taken
    for a label. *)
Theorem read_labels_of_processed_file
    (join : str → str → str) (path_exists : str → bool) (now_label now_name : Z)
    (source file_name dir : str) m :
  encodable source = true →
  storable file_name →
  map_Forall (fun _ v => storable v) m →
  ∃ sf,
    process_text_file join path_exists now_label now_name
      (read_text source) file_name dir m = inr sf
    ∧ read_text (script_file (written sf)) = script_file (written sf)
    ∧ Indexer.read_labels_from_file (read_text (script_file (written sf)))
      = [chapter_label sf].
Proof.
  intros Hsrc Hname Hm.
  destruct (processed_file_read_back join path_exists now_label now_name source
              file_name dir m Hsrc Hname Hm) as (sf & Hsf & _ & Hid & Hlabels).
  by exists sf.
Qed.

Lemma read_labels_of_processed_file_witness :
  ∃ sf,
    process_text_file (fun d f : str => d ++ u "/" ++ f) (fun _ => false) 0 0
      (read_text (u "label fake:" ++ [13%N; 10%N] ++ u "Bob: label other:"
                    ++ [13%N]))
      (u "chapter one.txt") (u "out") ∅
    = inr sf
    ∧ Indexer.read_labels_from_file (read_text (script_file (written sf)))
      = [u "chapter_one"].
Proof.
  destruct (read_labels_of_processed_file (fun d f : str => d ++ u "/" ++ f)
              (fun _ => false) 0 0
              (u "label fake:" ++ [13%N; 10%N] ++ u "Bob: label other:" ++ [13%N])
              (u "chapter one.txt") (u "out") ∅)
    as (sf & Hsf & _ & Hlabels).
  - reflexivity.
  - split; [split; literal_free | reflexivity].
  - apply map_Forall_empty.
  - exists sf. split; [exact Hsf|]. rewrite Hlabels.
    vm_compute in Hsf. inversion Hsf. reflexivity.
Defined.

(** X12. The indexer finds in a menu file the labels of its pages, in
    the order they were written: the root label alone when the labels fit
    one page, else the sub-page labels [root_0], [root_1], ... and then
    the root label. No menu entry is taken for a label. This needs a root
    label that is not empty, trimmed and without colon, and no line feed
    or carriage return in any label. *)
Theorem read_labels_of_menu_file root labels gb P :
  0 < P → plain_label root → CR ∉ root →
  Forall no_break labels → no_break (text gb) →
  Indexer.read_labels_from_file
    (read_text (Indexer.write_labels_to_file_in_batches [] root labels gb P))
  = if decide (len labels ≤ P) then [root]
    else imap (fun i _ => sub_label root (Z.of_nat i))
              (Generator.batch_labels labels P) ++ [root].
Proof.
  intros HP Hroot Hcr Hlabels [Hg1 Hg2].
  rewrite read_text_id.
  - apply menu_text_labels; [done|done| |done].
    eapply Forall_impl; [exact Hlabels|]. by intros l [? ?].
  - apply menu_text_foreign; [apply cr_foreign|done|done| |done].
    eapply Forall_impl; [exact Hlabels|]. by intros l [? ?].
Qed.

Lemma read_labels_of_menu_file_witness :
  Indexer.read_labels_from_file
    (read_text
       (Indexer.write_labels_to_file_in_batches [] (u "main")
          [u "label a"; u "b"; u "c"] (Some (u "top")) 2))
  = [u "main_0"; u "main_1"; u "main"].
Proof.
  assert (Hplain : plain_label (u "main")).
  { split; [discriminate| | literal_free | literal_free].
    split; intros c Hc; vm_compute in Hc; by inversion Hc. }
  rewrite (read_labels_of_menu_file (u "main") [u "label a"; u "b"; u "c"]
             (Some (u "top")) 2 ltac:(lia) Hplain).
  - reflexivity.
  - literal_free.
  - repeat constructor; literal_free.
  - split; literal_free.
Defined.

(** X13. The index of a generated script file. The script file that
    [process_text_file] writes declares its chapter label alone, so
    [process_script_file], reading it back, counts one label and writes
    the index file; its text is, under the root label of the index file,
    a single menu page that begins with the back entry to the main label
    and whose one entry jumps to the chapter label. This holds whatever
    lines the source file holds and whatever the page size, when the main
    label is not empty, the decoded source, the name of the script file
    given to the indexer and the main label hold no surrogate, and the
    name of the source file and the identifiers of a seeded character map
    hold no line feed, no carriage return and no surrogate. *)
Theorem index_of_processed_file
    (join : str → str → str) (path_exists : str → bool) (now_label now_name : Z)
    (source file_name dir : str) (m : gmap str str)
    (join' : str → str → str) (path_exists' : str → bool) (now_label' now_name' : Z)
    (script_file_name dir' main_label : str) P :
  encodable source = true →
  storable file_name →
  map_Forall (fun _ v => storable v) m →
  encodable script_file_name = true →
  encodable main_label = true →
  main_label ≠ [] →
  let r := Indexer.prepare_output_file_path_and_root_label join' path_exists'
             now_label' now_name' dir' (u "index_" ++ script_file_name) in
  ∃ sf,
    process_text_file join path_exists now_label now_name
      (read_text source) file_name dir m = inr sf
    ∧ Indexer.process_script_file join' path_exists' now_label' now_name'
        (read_text (script_file (written sf))) script_file_name dir' main_label P
      = inr (Some (Indexer.mkIndexFile r.1 r.2
                     (header_text r.2 ++ (u "    menu:" ++ NL)
                      ++ back_text main_label
                      ++ entry_text (chapter_label sf))),
             1).
Proof.
  intros Hsrc Hname Hm Hscript Hmain Hne. cbv zeta.
  destruct (processed_file_read_back join path_exists now_label now_name source
              file_name dir m Hsrc Hname Hm) as (sf & Hsf & HX & Hid & Hlabels).
  exists sf. split; [exact Hsf|].
  unfold Indexer.process_script_file. rewrite Hlabels.
  cbn [nonempty negb]. unfold Indexer.write_labels_to_file. cbn [nonempty negb].
  destruct (Indexer.prepare_output_file_path_and_root_label _ _ _ _ _ _)
    as [path root] eqn:Hprep.
  assert (Hroot : root = normalize_label now_label'
                           (Some (slice_to (u "index_" ++ script_file_name)
                                    (- EXT_RPY_LENGTH))) None).
  { unfold Indexer.prepare_output_file_path_and_root_label in Hprep.
    destruct (path_exists' _); by inversion Hprep. }
  unfold with_open_utf8. cbv zeta. rewrite builder_one_label. cbn [app id].
  assert (Hpage : page_text (mkPage root [chapter_label sf] (Some main_label))
                  = header_text root ++ (u "    menu:" ++ NL)
                    ++ back_text main_label ++ entry_text (chapter_label sf)).
  { unfold page_text. cbn [page_label page_entries page_back].
    destruct main_label as [|c t]; [done|].
    cbn [truthy negb andb text from_option id fmap list_fmap concat].
    by rewrite app_nil_r. }
  replace (encodable (page_text (mkPage root [chapter_label sf] (Some main_label))))
    with true; [by rewrite Hpage|].
  symmetry. apply encodable_free. intros x Hx.
  pose proof (surrogate_foreign x Hx) as Hfx.
  apply page_text_foreign; cbn [page_label page_entries page_back text from_option id];
    [done | | |].
  - rewrite Hroot. apply normalize_label_foreign; [done|].
    intros Hin. apply slice_to_elem_of in Hin.
    apply elem_of_app in Hin as [Hin|Hin]; [revert Hin; literal_foreign Hfx|].
    by apply (proj1 (encodable_free script_file_name) Hscript x Hx).
  - apply Forall_singleton. rewrite HX.
    apply normalize_label_foreign; [done|].
    intros Hin. apply slice_to_elem_of in Hin. revert Hin.
    apply generate_script_file_name_foreign; [done|].
    apply (storable_free file_name x Hname); auto.
  - by apply (proj1 (encodable_free main_label) Hmain x Hx).
Qed.

Lemma index_of_processed_file_witness :
  ∃ sf,
    process_text_file (fun d f : str => d ++ u "/" ++ f) (fun _ => false) 0 0
      (read_text (u "Bob: Hi" ++ NL)) (u "intro.txt") (u "out") ∅ = inr sf
    ∧ Indexer.process_script_file (fun d f : str => d ++ u "/" ++ f)
        (fun _ => false) 0 0
        (read_text (script_file (written sf))) (u "intro.rpy") (u "idx")
        (u "main_index") 20
      = inr (Some (Indexer.mkIndexFile (u "idx/index_intro.rpy") (u "index_intro")
                     ((u "label index_intro:" ++ NL ++ NL)
                      ++ (u "    menu:" ++ NL)
                      ++ (u "        " ++ DQUOTE ++ u "< BACK" ++ DQUOTE ++ u ":" ++ NL)
                      ++ (u "            jump main_index" ++ NL ++ NL)
                      ++ (u "        " ++ DQUOTE ++ u "intro" ++ DQUOTE ++ u ":" ++ NL)
                      ++ (u "            jump intro" ++ NL ++ NL))),
             1).
Proof.
  destruct (index_of_processed_file (fun d f : str => d ++ u "/" ++ f)
              (fun _ => false) 0 0 (u "Bob: Hi" ++ NL) (u "intro.txt") (u "out") ∅
              (fun d f : str => d ++ u "/" ++ f) (fun _ => false) 0 0
              (u "intro.rpy") (u "idx") (u "main_index") 20)
    as (sf & Hsf & Hindex).
  - reflexivity.
  - split; [split; literal_free | reflexivity].
  - apply map_Forall_empty.
  - reflexivity.
  - reflexivity.
  - discriminate.
  - exists sf. split; [exact Hsf|]. rewrite Hindex.
    vm_compute in Hsf. inversion Hsf. reflexivity.
Defined.

End ReadBackProperties.
